(** * Keyword expansion and staging engine of [apps/keyword/total_gold.py]

    A shallow embedding of the stage classifier, the breadth-first keyword
    expansion, the per-keyword competitiveness analysis, the target-stage
    filters and the result-table merge, followed by the properties of the
    specification that are settled on it.

    Conventions of the embedding:
    - a Python [int] is a [Z]; a Python [float] is the rational it denotes
      (a [Q]), with rounding to binary64 written out where the code rounds;
    - a Python [dict] with string keys is a [gmap string _], a [set] of
      strings a [gset string], a [deque] a [list] popped at its head;
    - a Python exception is [None] in an [option] result;
    - dictionaries that are shared between containers live in a store
      addressed by locations, so that aliasing is visible. *)

From Stdlib Require Import ZArith QArith Qpower Qround Qabs Lia Lqa Ascii String List.
From Stdlib Require Import Sorting.Sorted Sorting.Permutation.
From stdpp Require Import gmap strings list pretty.

Local Open Scope Z_scope.

(* ===================================================================== *)
(** * Part I: the embedding                                               *)
(* ===================================================================== *)

(** ** Python values that reach the modelled code *)

(** Values decoded from the JSON answers of the oracles and stored in the
    per-keyword metrics dictionaries.  [PyFloat] carries the exact value of a
    finite binary64 number; [PyOther] stands for lists, dicts and any other
    object, which the code only ever tests with [isinstance]. *)
Inductive pyval :=
  | PyNone
  | PyBool (b : bool)
  | PyInt (z : Z)
  | PyFloat (q : Q)
  | PyStr (s : string)
  | PyOther.

(** ** Stage classifier: [NaverAdsClient.get_keyword_stage] *)

(** A bound read from [config/keyword.yaml]: an integer, or [float('inf')],
    which is also the default of [D_max] and [S_max]. *)
Inductive bound :=
  | Fin (z : Z)
  | Inf.

(** [x <= b] for an integer [x] and a bound [b]. *)
Definition le_bound (x : Z) (b : bound) : bool :=
  match b with
  | Fin z => x <=? z
  | Inf => true
  end.

(** [b <= x] for a bound [b] and an integer [x]. *)
Definition bound_le (b : bound) (x : Z) : bool :=
  match b with
  | Fin z => z <=? x
  | Inf => false
  end.

(** One entry of [blog_stages]: a dict with the optional keys ["D_max"],
    ["S_min"] and ["S_max"]. *)
Abbreviation stage_config := (gmap string bound).

(** [stage_config.get('D_max', float('inf'))] and its two siblings. *)
Definition D_max (stage_config : stage_config) : bound :=
  default Inf (stage_config !! "D_max"%string).
Definition S_min (stage_config : stage_config) : bound :=
  default (Fin 0) (stage_config !! "S_min"%string).
Definition S_max (stage_config : stage_config) : bound :=
  default Inf (stage_config !! "S_max"%string).

(** The condition of line 486:
    [doc_count <= d_max and s_min <= total_search <= s_max]. *)
Definition base_condition (stage_config : stage_config)
    (doc_count total_search : Z) : bool :=
  le_bound doc_count (D_max stage_config)
  && (bound_le (S_min stage_config) total_search
      && le_bound total_search (S_max stage_config)).

(** The body of [for stage_num in range(1, 6)], as a recursion over the
    stage numbers still to be examined.  [pretty] is [str] on integers. *)
Fixpoint stage_scan (blog_stages : gmap string stage_config)
    (doc_count total_search : Z) (stage_nums : list Z) : Z :=
  match stage_nums with
  | [] => 0
  | stage_num :: rest =>
      match blog_stages !! pretty stage_num with
      | Some stage_config =>
          if base_condition stage_config doc_count total_search then
            if stage_num =? 1 then stage_num
            else if total_search >=? doc_count then stage_num
            else stage_scan blog_stages doc_count total_search rest
          else stage_scan blog_stages doc_count total_search rest
      | None => stage_scan blog_stages doc_count total_search rest
      end
  end.

(** The loaded [config/keyword.yaml]: a dict whose key ["blog_stages"] holds
    the table of stages keyed by ["1"] .. ["5"].  A failed load leaves the
    empty dict. *)
Abbreviation blog_stages_config := (gmap string (gmap string stage_config)).

Definition get_keyword_stage (config : blog_stages_config)
    (doc_count total_search : Z) : Z :=
  match config !! "blog_stages"%string with
  | None => 0
  | Some blog_stages => stage_scan blog_stages doc_count total_search (seqZ 1 5)
  end.

(** The specification's reading of "tier [k] matches [(d, s)]": the rule of
    tier [k] is present, its base condition holds, and for the tiers 2..5 the
    search volume is at least the document count. *)
Definition tier_matches (blog_stages : gmap string stage_config)
    (k d s : Z) : Prop :=
  exists rule, blog_stages !! pretty k = Some rule
    /\ base_condition rule d s = true
    /\ (k = 1 \/ d <= s).

(** The claim's reading of the bounds of a rule, written with the order of
    the integers and not with the comparisons of the code: the document
    count is at most the maximum of the rule, and the search volume lies
    between its minimum and its maximum.  A maximum that is absent or [inf]
    bounds nothing, an absent minimum is 0, and a minimum of [inf] is above
    every volume. *)
Definition within_bounds (rule : stage_config) (d s : Z) : Prop :=
  (forall d_max, rule !! "D_max"%string = Some (Fin d_max) -> d <= d_max)
  /\ (rule !! "S_min"%string = None -> 0 <= s)
  /\ (forall s_min, rule !! "S_min"%string = Some (Fin s_min) -> s_min <= s)
  /\ rule !! "S_min"%string <> Some Inf
  /\ (forall s_max, rule !! "S_max"%string = Some (Fin s_max) -> s <= s_max).

(** "Tier [k] applies to [(d, s)]", in the claim's words: the rule of tier
    [k] is in the table, [(d, s)] is within its bounds, and for the tiers
    other than the first the search volume is at least the document count. *)
Definition tier_applies (blog_stages : gmap string stage_config)
    (k d s : Z) : Prop :=
  exists rule, blog_stages !! pretty k = Some rule
    /\ within_bounds rule d s
    /\ (k = 1 \/ d <= s).

(** ** Keyword expansion: [expand_keywords_recursive] *)

(** The variables of the function, with two ghost fields that are not
    program variables: [oracle_log] records every call of the
    related-keywords oracle made so far together with its answer, the latest
    call first, and [skipped] counts the iterations ended by [continue]. *)
Record expansion_state := {
  processed_keywords : gset string;
  all_keywords : gset string;
  queue : list (string * string);
  total_processed : nat;
  consecutive_empty_results : Z;
  oracle_log : list (string * list string);
  skipped : nat
}.

(** How an iteration of the [while] loop ends: it falls through or
    [continue]s to the loop test ([Next]), or it [break]s ([Stop]). *)
Inductive control :=
  | Next (st : expansion_state)
  | Stop (st : expansion_state).

Definition state_of (c : control) : expansion_state :=
  match c with
  | Next st => st
  | Stop st => st
  end.

Definition max_empty_tolerance : Z := 50.

Section Expansion.

(** [get_naver_autocomplete]: the answer of the related-keywords oracle to
    the call number [n] of the run (counted from 0), made for a keyword.
    The answer may change from call to call, as that of a network service
    does; a failed call answers [[]]. *)
Variable get_naver_autocomplete : nat -> string -> list string.

(** Lines 200-204: [interrupted n] says whether a [KeyboardInterrupt]
    arrives during the pause that follows the call number [n] of the oracle.
    The loop then [break]s and the function returns normally.  An interrupt
    at any other point ends the function with the exception, and such a run
    returns nothing. *)
Variable interrupted : nat -> bool.

Variable max_keywords : Z.

(** Lines 200-204: [if queue:] guards the pause. *)
Definition pause_interrupted (queue : list (string * string)) (n : nat)
    : bool :=
  match queue with
  | [] => false
  | _ :: _ => interrupted n
  end.

(** Lines 184-191: the [for kw in related_keywords] loop.  The keyword is
    added to the pool first; only the enqueueing is guarded by the size. *)
Fixpoint add_related (original_seed : string) (related_keywords : list string)
    (all_keywords : gset string) (queue : list (string * string))
    : gset string * list (string * string) :=
  match related_keywords with
  | [] => (all_keywords, queue)
  | kw :: rest =>
      if decide (kw ∈ all_keywords) then
        add_related original_seed rest all_keywords queue
      else
        let all_keywords' := {[kw]} ∪ all_keywords in
        let queue' :=
          if Z.of_nat (size all_keywords') <? max_keywords
          then queue ++ [(kw, original_seed)]
          else queue in
        add_related original_seed rest all_keywords' queue'
  end.

(** Line 166: [while queue and len(all_keywords) < max_keywords]. *)
Definition loop_test (st : expansion_state) : bool :=
  match queue st with
  | [] => false
  | _ :: _ => Z.of_nat (size (all_keywords st)) <? max_keywords
  end.

(** Lines 167-208: one iteration of the loop.  After the answer has been
    merged, or counted as empty, the pause of lines 200-204 may be
    interrupted, which ends the loop; then the size is tested again. *)
Definition loop_body (st : expansion_state) : control :=
  match queue st with
  | [] => Stop st
  | (current_keyword, original_seed) :: queue' =>
      if decide (current_keyword ∈ processed_keywords st) then
        Next {| processed_keywords := processed_keywords st;
                all_keywords := all_keywords st;
                queue := queue';
                total_processed := total_processed st;
                consecutive_empty_results := consecutive_empty_results st;
                oracle_log := oracle_log st;
                skipped := S (skipped st) |}
      else
        let processed' := {[current_keyword]} ∪ processed_keywords st in
        let related_keywords :=
          get_naver_autocomplete (total_processed st) current_keyword in
        let log' := (current_keyword, related_keywords) :: oracle_log st in
        match related_keywords with
        | _ :: _ =>
            let '(all', queue'') :=
              add_related original_seed related_keywords
                (all_keywords st) queue' in
            let st' :=
              {| processed_keywords := processed';
                 all_keywords := all';
                 queue := queue'';
                 total_processed := S (total_processed st);
                 consecutive_empty_results := 0;
                 oracle_log := log';
                 skipped := skipped st |} in
            if pause_interrupted queue'' (total_processed st) then Stop st'
            else if Z.of_nat (size all') >=? max_keywords then Stop st'
            else Next st'
        | [] =>
            let empties := consecutive_empty_results st + 1 in
            let st' :=
              {| processed_keywords := processed';
                 all_keywords := all_keywords st;
                 queue := queue';
                 total_processed := S (total_processed st);
                 consecutive_empty_results := empties;
                 oracle_log := log';
                 skipped := skipped st |} in
            if empties >=? max_empty_tolerance then Stop st'
            else if pause_interrupted queue' (total_processed st) then Stop st'
            else if Z.of_nat (size (all_keywords st)) >=? max_keywords
            then Stop st'
            else Next st'
        end
  end.

(** The [while] loop, with the number of iterations it may still start. *)
Fixpoint expand_loop (fuel : nat) (st : expansion_state)
    : option expansion_state :=
  match fuel with
  | O => None
  | S fuel' =>
      if loop_test st then
        match loop_body st with
        | Next st' => expand_loop fuel' st'
        | Stop st' => Some st'
        end
      else Some st
  end.

(** Lines 150-163: the state before the loop. *)
Definition initial_state (seed_keywords : list string) : expansion_state :=
  {| processed_keywords := ∅;
     all_keywords := list_to_set seed_keywords;
     queue := (fun seed => (seed, seed)) <$> seed_keywords;
     total_processed := 0;
     consecutive_empty_results := 0;
     oracle_log := [];
     skipped := 0 |}.

(** The whole function; the pool is returned as the set it is, the order
    of [list(all_keywords)] being unspecified. *)
Definition expand_keywords_recursive (fuel : nat)
    (seed_keywords : list string) : option (gset string) :=
  all_keywords <$> expand_loop fuel (initial_state seed_keywords).

End Expansion.

(** The number of empty answers at the recent end of a log. *)
Fixpoint trailing_empty (log : list (string * list string)) : Z :=
  match log with
  | (_, []) :: earlier => 1 + trailing_empty earlier
  | _ => 0
  end.

(** Every point of the history was reached with at most [n] empty answers
    in a row. *)
Fixpoint empty_runs_at_most (n : Z) (log : list (string * list string)) : Prop :=
  match log with
  | [] => True
  | _ :: earlier => trailing_empty log <= n /\ empty_runs_at_most n earlier
  end.

(** The room left in the pool; it bounds the iterations that add a
    keyword. *)
Definition room (max_keywords : Z) (st : expansion_state) : nat :=
  Z.to_nat (max_keywords - Z.of_nat (size (all_keywords st))).

(** The keywords queried so far are exactly the processed ones, each was
    queried once, and [total_processed] counts the calls. *)
Definition log_invariant (st : expansion_state) : Prop :=
  processed_keywords st = list_to_set (oracle_log st).*1
  /\ NoDup (oracle_log st).*1
  /\ total_processed st = length (oracle_log st).

(** The counter is the number of empty answers in a row at the recent end of
    the history, it never went above the tolerance, and at the loop test
    ([strict]) it is below the tolerance. *)
Definition breaker_invariant (strict : bool) (st : expansion_state) : Prop :=
  consecutive_empty_results st = trailing_empty (oracle_log st)
  /\ (if strict
      then consecutive_empty_results st < max_empty_tolerance
      else consecutive_empty_results st <= max_empty_tolerance)
  /\ empty_runs_at_most max_empty_tolerance (oracle_log st).

(** A small oracle for the examples: ["a"] is related to ["b"], ["c"] and
    ["d"], and nothing else is related to anything. *)
(** Runs whose pauses are never interrupted. *)
Definition never_interrupted (n : nat) : bool := false.

Definition example_oracle (n : nat) (keyword : string) : list string :=
  if bool_decide (keyword = "a"%string)
  then ["b"; "c"; "d"]%string else [].

(** ** Python numerics used by the analysis *)

(** Rounding of a rational to the nearest integer, ties to the even one. *)
Definition round_half_even (q : Q) : Z :=
  let f := Qfloor q in
  match (q - inject_Z f ?= 1 # 2)%Q with
  | Lt => f
  | Gt => f + 1
  | Eq => if Z.even f then f else f + 1
  end.

(** [floor (log2 q)] for a positive rational [q]. *)
Definition floor_log2 (q : Q) : Z :=
  let k := Z.log2 (Qnum q) - Z.log2 (Zpos (Qden q)) in
  if Qle_bool (2 ^ k) q then k else k - 1.

(** The binary64 number nearest to a positive rational [a] (ties to even,
    gradual underflow): the exponent of the last place is
    [max (floor (log2 a) - 52) (-1074)], and the significand is [a] scaled by
    it and rounded.  [None] is the overflow that Python reports as
    [OverflowError]. *)
Definition overflow_threshold : Q := 2 ^ 1024.

Definition binary64_pos (a : Q) : option Q :=
  let e := Z.max (floor_log2 a - 52) (-1074) in
  let r := (inject_Z (round_half_even (a / 2 ^ e)) * 2 ^ e)%Q in
  if Qle_bool overflow_threshold r then None else Some r.

(** The binary64 number nearest to [q], as the rational it denotes in lowest
    terms. *)
Definition binary64 (q : Q) : option Q :=
  if Qeq_bool q 0 then Some 0%Q
  else if Qle_bool 0 q then Qred <$> binary64_pos q
  else (fun r => Qred (- r)) <$> binary64_pos (- q).

(** Constants of the error analysis: half a unit in the last place of a
    normal binary64 number relative to its value, half the smallest
    subnormal, and a range of arguments whose rounding cannot overflow. *)
Definition ulp_half : Q := / 2 ^ 53.
Definition tiny : Q := 2 ^ (-1075).
Definition binary64_range : Q := 2 ^ 1002.

(** [a / b] on Python ints: the correctly rounded quotient;
    [ZeroDivisionError] and [OverflowError] are [None]. *)
Definition py_truediv (a b : Z) : option Q :=
  if b =? 0 then None else binary64 (inject_Z a / inject_Z b).

(** [round(x, 3)] on a finite float: the exact value of [x] is rounded to
    three decimals, ties to even, and the decimal is converted back to the
    nearest binary64. *)
Definition py_round3 (x : Q) : option Q :=
  binary64 (inject_Z (round_half_even (x * 1000)) / 1000).

(** ** Per-keyword analysis: the body of [get_keyword_analysis] and of
    [get_keyword_analysis_with_save] *)

(** How a call ends: it returns a value or it raises an exception; a
    [try] whose body raises runs its handler. *)
Inductive outcome (A : Type) :=
  | Returns (a : A)
  | Raises.
Arguments Returns {A} a.
Arguments Raises {A}.

Definition try_except {A} (body handler : outcome A) : outcome A :=
  match body with
  | Returns a => Returns a
  | Raises => handler
  end.

Section Analysis.

(** [int(s)] on a string: [None] when it raises.  The analysis is
    parametric in it: nothing below depends on which strings parse. *)
Variable py_int : string -> option Z.

(** [volume_str.startswith('<')]. *)
Definition startswith_lt (volume_str : string) : bool :=
  match volume_str with
  | String c _ => bool_decide (c = "<"%char)
  | EmptyString => false
  end.

(** The nested [parse_volume] of lines 532-542 (and, verbatim, 599-609).
    [isinstance(v, int)] also holds of a [bool]. *)
Definition parse_volume (volume_str : pyval) : pyval :=
  match volume_str with
  | PyInt _ | PyBool _ => volume_str
  | PyStr str =>
      if startswith_lt str then PyInt 5
      else match py_int str with
           | Some n => PyInt n
           | None => PyInt 0
           end
  | _ => PyInt 0
  end.

(** The same function with its control flow: [int(volume_str)] returns or
    raises, the bare [except] of lines 540-541 catches what it raises, and
    nothing else in the body can raise. *)
Definition int_call (volume_str : string) : outcome pyval :=
  match py_int volume_str with
  | Some n => Returns (PyInt n)
  | None => Raises
  end.

Definition parse_volume_steps (volume_str : pyval) : outcome pyval :=
  match volume_str with
  | PyInt _ | PyBool _ => Returns volume_str
  | PyStr str =>
      if startswith_lt str then Returns (PyInt 5)
      else try_except (int_call str) (Returns (PyInt 0))
  | _ => Returns (PyInt 0)
  end.

(** The integer denoted by an [int] instance ([True] is 1, [False] is 0);
    it is only applied to results of [parse_volume]. *)
Definition int_value (v : pyval) : Z :=
  match v with
  | PyInt z => z
  | PyBool b => if b then 1 else 0
  | _ => 0
  end.

(** Lines 551 and 623:
    [round(blog_count / total_search_volume, 3) if total_search_volume > 0 else 0]. *)
Definition competition_ratio (blog_count total_search_volume : Z)
    : option pyval :=
  if total_search_volume >? 0 then
    x ← py_truediv blog_count total_search_volume;
    r ← py_round3 x;
    Some (PyFloat r)
  else Some (PyInt 0).

(** Lines 544-559: from the two volume cells of the oracle answer and the
    document count to the metrics dictionary of the keyword. *)
Definition keyword_metrics (pc_cell mobile_cell : pyval) (blog_count : Z)
    : option (gmap string pyval) :=
  let pc_volume := parse_volume pc_cell in
  let mobile_volume := parse_volume mobile_cell in
  let total_search_volume := int_value pc_volume + int_value mobile_volume in
  ratio ← competition_ratio blog_count total_search_volume;
  Some (<["pc_search_volume"%string := pc_volume]>
        (<["mobile_search_volume"%string := mobile_volume]>
         (<["total_search_volume"%string := PyInt total_search_volume]>
          (<["blog_count"%string := PyInt blog_count]>
           (<["competition_ratio"%string := ratio]> ∅))))).

(** Lines 611-631: the permissive variant takes zero volumes for a keyword
    that is absent from the volume lookup. *)
Definition keyword_metrics_with_save
    (volume_entry : option (gmap string pyval)) (blog_count : Z)
    : option (gmap string pyval) :=
  match volume_entry with
  | Some entry =>
      pc_cell ← entry !! "pc_search_volume"%string;
      mobile_cell ← entry !! "mobile_search_volume"%string;
      keyword_metrics pc_cell mobile_cell blog_count
  | None => keyword_metrics (PyInt 0) (PyInt 0) blog_count
  end.

End Analysis.

(** An instance of [int(s)] for plain ASCII literals: optional surrounding
    blanks, an optional sign, then decimal digits. *)
Definition digit_value (c : ascii) : option Z :=
  let n := Z.of_N (N_of_ascii c) in
  if (48 <=? n) && (n <=? 57) then Some (n - 48) else None.

Fixpoint parse_digits (acc : Z) (str : string) : option Z :=
  match str with
  | EmptyString => Some acc
  | String c rest =>
      d ← digit_value c; parse_digits (10 * acc + d) rest
  end.

Fixpoint lstrip_blank (str : string) : string :=
  match str with
  | String " "%char rest => lstrip_blank rest
  | _ => str
  end.

Fixpoint rstrip_blank (str : string) : string :=
  match str with
  | EmptyString => EmptyString
  | String c rest =>
      match rstrip_blank rest with
      | EmptyString => if bool_decide (c = " "%char) then EmptyString
                       else String c EmptyString
      | rest' => String c rest'
      end
  end.

Definition py_int_ascii (str : string) : option Z :=
  match rstrip_blank (lstrip_blank str) with
  | String "-"%char (String c rest) => Z.opp <$> parse_digits 0 (String c rest)
  | String "+"%char (String c rest) => parse_digits 0 (String c rest)
  | String c rest => parse_digits 0 (String c rest)
  | EmptyString => None
  end.

(** ** Target-stage filters: [filter_keywords_by_target_stages] and
    [filter_keywords_auto_mode] *)

(** The metrics dictionaries are objects: a mapping from keywords holds
    references to them.  [store] is the heap of these objects. *)
Abbreviation ref := positive.
Abbreviation store := (gmap ref (gmap string pyval)).

(** A Python dict from keywords to references, as the sequence of its items
    in insertion order; the keys of a dict are distinct. *)
Abbreviation keyword_dict := (list (string * ref)).

(** [d[k]] and [d[k] = v] on such a dict. *)
Fixpoint dict_get (k : string) (d : keyword_dict) : option ref :=
  match d with
  | [] => None
  | (k', v) :: rest => if decide (k' = k) then Some v else dict_get k rest
  end.

Fixpoint dict_set (k : string) (v : ref) (d : keyword_dict) : keyword_dict :=
  match d with
  | [] => [(k, v)]
  | (k', v') :: rest =>
      if decide (k' = k) then (k, v) :: rest else (k', v') :: dict_set k v rest
  end.

(** The integer of a cell that holds an [int] instance; [None] for any other
    value (the comparison of the classifier with a string raises, and floats
    are not stored in these two cells by the analysis). *)
Definition as_int (v : pyval) : option Z :=
  match v with
  | PyInt z => Some z
  | PyBool b => Some (if b then 1 else 0)
  | _ => None
  end.

(** [self.get_keyword_stage(data['blog_count'], data['total_search_volume'])];
    a missing key raises [KeyError]. *)
Definition metrics_stage (config : blog_stages_config)
    (data : gmap string pyval) : option Z :=
  doc_count ← data !! "blog_count"%string ≫= as_int;
  total_search ← data !! "total_search_volume"%string ≫= as_int;
  Some (get_keyword_stage config doc_count total_search).

Definition TARGET_STAGES : list Z := [1; 2; 3; 4; 5].

(** Lines 758-765, the loop of [filter_keywords_by_target_stages]:
    [filtered_result[keyword] = data] stores the reference, and
    [filtered_result[keyword]['stage'] = keyword_stage] writes through it. *)
Fixpoint target_stages_loop (config : blog_stages_config)
    (target_stages : list Z) (items : keyword_dict)
    (heap : store) (filtered_result : keyword_dict)
    : option (store * keyword_dict) :=
  match items with
  | [] => Some (heap, filtered_result)
  | (keyword, data) :: rest =>
      metrics ← heap !! data;
      keyword_stage ← metrics_stage config metrics;
      if bool_decide (keyword_stage ∈ target_stages) then
        let filtered_result' := dict_set keyword data filtered_result in
        target ← dict_get keyword filtered_result';
        object ← heap !! target;
        let heap' :=
          <[target := <["stage"%string := PyInt keyword_stage]> object]> heap in
        target_stages_loop config target_stages rest heap' filtered_result'
      else
        target_stages_loop config target_stages rest heap filtered_result
  end.

Definition filter_keywords_by_target_stages (config : blog_stages_config)
    (heap : store) (analysis_result : keyword_dict)
    (target_stages : option (list Z)) : option (store * keyword_dict) :=
  let target_stages := default TARGET_STAGES target_stages in
  match config !! "blog_stages"%string with
  | None => Some (heap, [])
  | Some _ => target_stages_loop config target_stages analysis_result heap []
  end.

(** Lines 733-743, the loop of [filter_keywords_auto_mode]:
    [stats['stage'] = keyword_stage] first, then [auto_result[keyword] = stats]. *)
Fixpoint auto_mode_loop (config : blog_stages_config)
    (target_stages : list Z) (items : keyword_dict)
    (heap : store) (auto_result : keyword_dict)
    : option (store * keyword_dict) :=
  match items with
  | [] => Some (heap, auto_result)
  | (keyword, stats) :: rest =>
      metrics ← heap !! stats;
      keyword_stage ← metrics_stage config metrics;
      if bool_decide (keyword_stage ∈ target_stages) then
        let heap' :=
          <[stats := <["stage"%string := PyInt keyword_stage]> metrics]> heap in
        auto_mode_loop config target_stages rest heap'
          (dict_set keyword stats auto_result)
      else
        auto_mode_loop config target_stages rest heap auto_result
  end.

Definition filter_keywords_auto_mode (config : blog_stages_config)
    (heap : store) (analysis_result : keyword_dict)
    (target_stages : option (list Z)) : option (store * keyword_dict) :=
  match config !! "blog_stages"%string with
  | None => Some (heap, analysis_result)
  | Some _ =>
      let target_stages := default TARGET_STAGES target_stages in
      auto_mode_loop config target_stages analysis_result heap []
  end.

(** What a reader of the mapping sees under a keyword: the metrics object
    its reference points to. *)
Definition read_metrics (heap : store) (d : keyword_dict) (keyword : string)
    : option (gmap string pyval) :=
  dict_get keyword d ≫= fun r => heap !! r.

(** A stage table and a heap for the examples. *)
Definition example_stage (d_max s_min s_max : Z) : stage_config :=
  <["D_max"%string := Fin d_max]>
    (<["S_min"%string := Fin s_min]> (<["S_max"%string := Fin s_max]> ∅)).

Definition example_blog_stages : gmap string stage_config :=
  <["1"%string := example_stage 10 0 100]>
  (<["2"%string := example_stage 50 0 500]>
  (<["3"%string := example_stage 100 10 1000]>
  (<["4"%string := example_stage 500 10 5000]>
  (<["5"%string := example_stage 1000 10 10000]> ∅)))).

Definition example_config : blog_stages_config :=
  <["blog_stages"%string := example_blog_stages]> ∅.

Definition example_metrics (blog_count total : Z) : gmap string pyval :=
  <["blog_count"%string := PyInt blog_count]>
    (<["total_search_volume"%string := PyInt total]> ∅).

Definition example_heap : store :=
  <[1%positive := example_metrics 5 50]>
    (<[2%positive := example_metrics 5000 40]> ∅).

Definition example_analysis_result : keyword_dict :=
  [("game"%string, 1%positive); ("rpg"%string, 2%positive)].

(** ** Result table: [save_to_excel] *)

(** The setting [MODE] of the module. *)
Inductive mode :=
  | BASIC
  | AUTO
  | BACKGROUND.

(** A row of the table.  The columns are, in this order, the keyword, the
    PC, mobile and total volumes, the document count, the competitiveness
    ratio and the stage.  The two numeric columns the code computes with are
    numbers, [None] being an empty cell (NaN). *)
Record row := {
  row_keyword : string;
  row_pc : pyval;
  row_mobile : pyval;
  row_total : pyval;
  row_blog_count : pyval;
  row_ratio : option Q;
  row_stage : option Z
}.

(** The table read by [pd.read_excel]: its rows, and whether it has the
    stage column at all. *)
Record dataframe := {
  has_stage_column : bool;
  df_rows : list row
}.

(** A number cell: the value of an [int] or of a [float]. *)
Definition as_number (v : pyval) : option Q :=
  match v with
  | PyInt z => Some (inject_Z z)
  | PyBool b => Some (if b then 1%Q else 0%Q)
  | PyFloat q => Some q
  | _ => None
  end.

(** Lines 794-802: the row made of a keyword and its metrics; a missing key
    raises [KeyError], and [stats.get('stage', 0)] defaults the stage. *)
Definition new_row (item : string * gmap string pyval) : option row :=
  let '(keyword, stats) := item in
  pc ← stats !! "pc_search_volume"%string;
  mobile ← stats !! "mobile_search_volume"%string;
  total ← stats !! "total_search_volume"%string;
  blog_count ← stats !! "blog_count"%string;
  ratio ← stats !! "competition_ratio"%string ≫= as_number;
  stage ← as_int (default (PyInt 0) (stats !! "stage"%string));
  Some {| row_keyword := keyword;
          row_pc := pc;
          row_mobile := mobile;
          row_total := total;
          row_blog_count := blog_count;
          row_ratio := Some ratio;
          row_stage := Some stage |}.

(** Line 811: [existing_df[(existing_df['단계'] > 0) & (existing_df['단계'].notna())]]. *)
Definition staged (r : row) : bool :=
  match row_stage r with
  | Some z => 0 <? z
  | None => false
  end.

(** Line 818: [drop_duplicates(subset=['키워드'], keep='last')]. *)
Fixpoint drop_duplicates_last (rows : list row) : list row :=
  match rows with
  | [] => []
  | r :: rest =>
      if bool_decide (row_keyword r ∈ row_keyword <$> rest)
      then drop_duplicates_last rest
      else r :: drop_duplicates_last rest
  end.

(** The ascending order of the ratio column, empty cells last. *)
Definition ratio_leb (a b : option Q) : bool :=
  match a, b with
  | Some x, Some y => Qle_bool x y
  | _, None => true
  | None, Some _ => false
  end.

(** Line 823: [sort_values('경쟁도', ascending=True)], as an insertion sort.
    pandas leaves the order among equal ratios open; only that the result
    is a sorted rearrangement is used below. *)
Fixpoint insert_row (r : row) (rows : list row) : list row :=
  match rows with
  | [] => [r]
  | r' :: rest =>
      if ratio_leb (row_ratio r) (row_ratio r') then r :: rows
      else r' :: insert_row r rest
  end.

Definition sort_values (rows : list row) : list row :=
  foldr insert_row [] rows.

(** Lines 806-818, the existing rows that take part in the merge. *)
Definition existing_rows (MODE : mode) (existing_df : dataframe) : list row :=
  match MODE with
  | AUTO =>
      if has_stage_column existing_df
      then filter (fun r => staged r = true) (df_rows existing_df)
      else df_rows existing_df
  | _ => df_rows existing_df
  end.

(** [save_to_excel]: the table written to the file, or [None] when the
    function raises.  [existing_df] is [None] when there is no readable
    file.  With no file and no incoming row the frame has no columns and
    [sort_values] raises. *)
Definition save_to_excel (MODE : mode) (existing_df : option dataframe)
    (analysis_result : list (string * gmap string pyval)) : option (list row) :=
  new_data ← mapM new_row analysis_result;
  combined_df ←
    match existing_df with
    | Some df =>
        Some (drop_duplicates_last (existing_rows MODE df ++ new_data))
    | None =>
        match new_data with
        | [] => None
        | _ :: _ => Some new_data
        end
    end;
  Some (sort_values combined_df).

(** The order in which the table is written. *)
Definition ratio_le (r1 r2 : row) : Prop :=
  ratio_leb (row_ratio r1) (row_ratio r2) = true.

(** The amended claim's reading of "an existing row takes part in the
    merge", written without the code's filter: every row of the table read
    does, except that in [AUTO] mode, when the table has a stage column, only
    the rows do whose stage cell holds a number above 0 (a row whose stage is
    0, negative or empty does not). *)
Definition takes_part (MODE : mode) (existing_df : dataframe) (r : row)
    : Prop :=
  r ∈ df_rows existing_df
  /\ (MODE = AUTO -> has_stage_column existing_df = true ->
      exists stage, row_stage r = Some stage /\ 0 < stage).

(** Rows and metrics for the examples. *)
Definition example_row (keyword : string) (ratio : Q) (stage : Z) : row :=
  {| row_keyword := keyword;
     row_pc := PyInt 10;
     row_mobile := PyInt 20;
     row_total := PyInt 30;
     row_blog_count := PyInt 3;
     row_ratio := Some ratio;
     row_stage := Some stage |}.

Definition example_stats (ratio : Q) (stage : Z) : gmap string pyval :=
  <["pc_search_volume"%string := PyInt 10]>
  (<["mobile_search_volume"%string := PyInt 20]>
  (<["total_search_volume"%string := PyInt 30]>
  (<["blog_count"%string := PyInt 3]>
  (<["competition_ratio"%string := PyFloat ratio]>
  (<["stage"%string := PyInt stage]> ∅))))).

(** A row whose stage cell is empty. *)
Definition example_unstaged_row (keyword : string) (ratio : Q) : row :=
  {| row_keyword := keyword;
     row_pc := PyInt 10;
     row_mobile := PyInt 20;
     row_total := PyInt 30;
     row_blog_count := PyInt 3;
     row_ratio := Some ratio;
     row_stage := None |}.

(** A table in which the keyword ["b"] has two rows, and one whose only row
    has an empty stage. *)
Definition example_repeated : dataframe :=
  {| has_stage_column := true;
     df_rows := [example_row "b" (3 # 10) 1; example_row "b" (4 # 10) 1] |}.

Definition example_empty_stage : dataframe :=
  {| has_stage_column := true;
     df_rows := [example_unstaged_row "c" (3 # 10)] |}.

Definition example_existing : dataframe :=
  {| has_stage_column := true;
     df_rows := [example_row "a" (1 # 10) 2; example_row "b" (3 # 10) 0] |}.

(** The metrics computed for a keyword whose PC volume is reported as
    ["< 10"], and the outcome of filtering the example mapping. *)
Definition example_sentinel_metrics : gmap string pyval :=
  <["pc_search_volume"%string := PyInt 5]>
  (<["mobile_search_volume"%string := PyInt 30]>
  (<["total_search_volume"%string := PyInt 35]>
  (<["blog_count"%string := PyInt 7]>
  (<["competition_ratio"%string
       := PyFloat (3602879701896397 # 18014398509481984)]> ∅)))).

Definition example_heap_after : store :=
  <[1%positive := <["stage"%string := PyInt 1]> (example_metrics 5 50)]>
    example_heap.

Definition example_filtered : keyword_dict := [("game"%string, 1%positive)].

(** ** Further notions for the expansion *)

(** Every keyword that the oracle answered in the calls of a history. *)
Definition answered (log : list (string * list string)) : gset string :=
  ⋃ (list_to_set <$> log.*2).

(** The processed keywords are in the pool, and so is every queued keyword,
    whose originating seed is one of the seeds. *)
Definition pool_covers (seeds : list string) (st : expansion_state) : Prop :=
  processed_keywords st ⊆ all_keywords st
  /\ forall kw s, (kw, s) ∈ queue st -> kw ∈ all_keywords st /\ s ∈ seeds.

(** Every keyword of the pool is processed or waits in the queue. *)
Definition pool_pending (st : expansion_state) : Prop :=
  all_keywords st ⊆ processed_keywords st ∪ list_to_set (queue st).*1.

(** ** Single-stage filter: [filter_keywords_by_stage] *)

(** Lines 704-717, the loop of [filter_keywords_by_stage]: the keyword is
    kept when it meets the bounds of the requested stage, and the stage
    written is the one the classifier gives. *)
Fixpoint by_stage_loop (config : blog_stages_config)
    (stage_config : stage_config) (items : keyword_dict)
    (heap : store) (filtered_result : keyword_dict)
    : option (store * keyword_dict) :=
  match items with
  | [] => Some (heap, filtered_result)
  | (keyword, stats) :: rest =>
      metrics ← heap !! stats;
      doc_count ← metrics !! "blog_count"%string ≫= as_int;
      total_search ← metrics !! "total_search_volume"%string ≫= as_int;
      let keyword_stage := get_keyword_stage config doc_count total_search in
      if base_condition stage_config doc_count total_search then
        let heap' :=
          <[stats := <["stage"%string := PyInt keyword_stage]> metrics]> heap in
        by_stage_loop config stage_config rest heap'
          (dict_set keyword stats filtered_result)
      else
        by_stage_loop config stage_config rest heap filtered_result
  end.

(** [filter_keywords_by_stage]: without a stage it is the target-stage
    filter; with a stage that the configuration does not have, or without a
    stage table, it returns its input. *)
Definition filter_keywords_by_stage (config : blog_stages_config)
    (heap : store) (analysis_result : keyword_dict) (stage : option Z)
    : option (store * keyword_dict) :=
  match stage with
  | None =>
      filter_keywords_by_target_stages config heap analysis_result
        (Some TARGET_STAGES)
  | Some stage =>
      match config !! "blog_stages"%string with
      | None => Some (heap, analysis_result)
      | Some blog_stages =>
          match blog_stages !! pretty stage with
          | None => Some (heap, analysis_result)
          | Some stage_config =>
              by_stage_loop config stage_config analysis_result heap []
          end
      end
  end.

(** The common shape of the filter loops.  From the metrics object the
    [verdict] either raises ([None]), drops the keyword ([Some None]) or
    keeps it and gives the stage to write. *)
Fixpoint stamp_loop (verdict : gmap string pyval -> option (option Z))
    (items : keyword_dict) (heap : store) (result : keyword_dict)
    : option (store * keyword_dict) :=
  match items with
  | [] => Some (heap, result)
  | (keyword, r) :: rest =>
      metrics ← heap !! r;
      decision ← verdict metrics;
      match decision with
      | Some stage =>
          stamp_loop verdict rest
            (<[r := <["stage"%string := PyInt stage]> metrics]> heap)
            (dict_set keyword r result)
      | None => stamp_loop verdict rest heap result
      end
  end.

Definition target_verdict (config : blog_stages_config)
    (target_stages : list Z) (metrics : gmap string pyval)
    : option (option Z) :=
  keyword_stage ← metrics_stage config metrics;
  Some (if bool_decide (keyword_stage ∈ target_stages)
        then Some keyword_stage else None).

Definition stage_verdict (config : blog_stages_config)
    (stage_config : stage_config) (metrics : gmap string pyval)
    : option (option Z) :=
  doc_count ← metrics !! "blog_count"%string ≫= as_int;
  total_search ← metrics !! "total_search_volume"%string ≫= as_int;
  Some (if base_condition stage_config doc_count total_search
        then Some (get_keyword_stage config doc_count total_search)
        else None).

(** The stage a verdict gives for the object behind a reference, if it
    keeps it. *)
Definition kept_stage (verdict : gmap string pyval -> option (option Z))
    (heap : store) (r : ref) : option Z :=
  match heap !! r ≫= verdict with
  | Some (Some stage) => Some stage
  | _ => None
  end.

Definition kept_item (verdict : gmap string pyval -> option (option Z))
    (heap : store) (item : string * ref) : bool :=
  bool_decide (is_Some (kept_stage verdict heap item.2)).

(** ** Further notions for the result table *)

(** The frame that [save_to_excel] hands to [to_excel]: its rows are the
    table, and its columns are those of the two frames merged, so that the
    incoming rows bring the stage column and with no incoming row the
    columns are those of the existing table.  Whether [pd.read_excel]
    returns this frame for the file is a matter of the cells: it infers the
    type of a column anew, and a keyword that reads as a number or as a
    missing value does not come back as the string written. *)
Definition written_frame (existing_df : option dataframe)
    (analysis_result : list (string * gmap string pyval))
    (table : list row) : dataframe :=
  {| has_stage_column :=
       match analysis_result with
       | [] => from_option has_stage_column false existing_df
       | _ :: _ => true
       end;
     df_rows := table |}.

(** The items of a mapping with the metrics objects its references point
    to, as [analysis_result.items()] yields them; [None] on a dangling
    reference. *)
Definition resolve (heap : store) (d : keyword_dict)
    : option (list (string * gmap string pyval)) :=
  mapM (fun item : string * ref => (fun obj => (item.1, obj)) <$> heap !! item.2) d.

(** The incoming mapping and the table of the merge example. *)
Definition example_incoming : list (string * gmap string pyval) :=
  [("a"%string, example_stats (1 # 2) 3)].

Definition example_merged : list row :=
  [example_row "b" (3 # 10) 0; example_row "a" (1 # 2) 3].

(** A heap with one complete metrics object, its filtered state, and the
    row made of it. *)
Definition example_full_heap : store :=
  <[1%positive := example_stats (1 # 10) 0]> ∅.

Definition example_full_result : keyword_dict := [("a"%string, 1%positive)].

Definition example_full_heap_after : store :=
  <[1%positive := <["stage"%string := PyInt 1]> (example_stats (1 # 10) 0)]>
    example_full_heap.

(** ** Volume lookup: [_get_search_volume_batch] and [get_search_volume] *)

(** [range(0, stop, step)] for a positive step, and the slices
    [l[i:i+step]] taken at its values. *)
Definition range_step (stop step : nat) : list nat :=
  (fun k => step * k)%nat <$> seq 0 ((stop + step - 1) / step).

Definition chunks {A} (step : nat) (l : list A) : list (list A) :=
  (fun i => take step (drop i l)) <$> range_step (length l) step.

(** [s.replace(' ', '')]. *)
Fixpoint replace_spaces (str : string) : string :=
  match str with
  | EmptyString => EmptyString
  | String c rest =>
      if bool_decide (c = " "%char) then replace_spaces rest
      else String c (replace_spaces rest)
  end.

(** An object of the answer of the keyword tool, read through
    [item.get('relKeyword', '')], [item.get('monthlyPcQcCnt', '0')] and
    [item.get('monthlyMobileQcCnt', '0')]: an absent key is [None].  The
    keyword it names is a string. *)
Record volume_item := {
  relKeyword : option string;
  monthlyPcQcCnt : option pyval;
  monthlyMobileQcCnt : option pyval
}.

(** The outcome of one request to the keyword tool: the request or its
    decoding failed; the body is a list; the body is an object with the key
    ['keywordList']; or it is any other JSON value.  An element of a list
    that is not an object is [None]. *)
Inductive keywordstool_answer :=
  | AnswerFailed
  | AnswerList (items : list (option volume_item))
  | AnswerKeywordList (items : list (option volume_item))
  | AnswerOther.

(** Lines 362-365: the entry stored for an item. *)
Definition volume_entry (item : volume_item) : gmap string pyval :=
  <["pc_search_volume"%string := default (PyStr "0") (monthlyPcQcCnt item)]>
    (<["mobile_search_volume"%string
         := default (PyStr "0") (monthlyMobileQcCnt item)]> ∅).

(** Lines 358-366 (and 370-378): the loop over the items of the answer. *)
Fixpoint extract_keyword_stats (items : list (option volume_item))
    (keyword_stats : gmap string (gmap string pyval))
    : gmap string (gmap string pyval) :=
  match items with
  | [] => keyword_stats
  | Some item :: rest =>
      let keyword := default ""%string (relKeyword item) in
      if bool_decide (keyword <> ""%string) then
        extract_keyword_stats rest
          (<[keyword := volume_entry item]> keyword_stats)
      else extract_keyword_stats rest keyword_stats
  | None :: rest => extract_keyword_stats rest keyword_stats
  end.

Section VolumeLookup.

(** [s.strip()]; the lookup is parametric in what it strips. *)
Variable py_strip : string -> string.

(** The keyword tool: the outcome of the request number [n] of a lookup,
    made for a list of hint keywords. *)
Variable keywordstool : nat -> list string -> keywordstool_answer.

(** [keyword.strip().replace(' ', '')]. *)
Definition clean_keyword (keyword : string) : string :=
  replace_spaces (py_strip keyword).

(** [_get_search_volume_batch]: [None] is the exception it raises, for more
    than five keywords or for a failed request. *)
Definition _get_search_volume_batch (n : nat) (keywords : list string)
    : option (gmap string (gmap string pyval)) :=
  if (5 <? length keywords)%nat then None
  else
    let cleaned_keywords := clean_keyword <$> keywords in
    match keywordstool n cleaned_keywords with
    | AnswerFailed => None
    | AnswerList items => Some (extract_keyword_stats items ∅)
    | AnswerKeywordList items => Some (extract_keyword_stats items ∅)
    | AnswerOther => Some ∅
    end.

(** Lines 409-419: the loop over the batches, [n] being the number of the
    batch; [all_results.update(batch_result)] lets the later answer win, and
    a batch that raises is passed over. *)
Fixpoint volume_loop (n : nat) (batches : list (list string))
    (all_results : gmap string (gmap string pyval))
    : gmap string (gmap string pyval) :=
  match batches with
  | [] => all_results
  | batch :: rest =>
      match _get_search_volume_batch n batch with
      | Some batch_result => volume_loop (S n) rest (batch_result ∪ all_results)
      | None => volume_loop (S n) rest all_results
      end
  end.

Definition get_search_volume (keywords : list string)
    : gmap string (gmap string pyval) :=
  volume_loop 0 (chunks 5 keywords) ∅.

End VolumeLookup.

(** An entry has both volume cells, and its keyword is not empty. *)
Definition well_formed_stats (stats : gmap string (gmap string pyval)) : Prop :=
  forall keyword entry, stats !! keyword = Some entry ->
    keyword <> ""%string
    /\ is_Some (entry !! "pc_search_volume"%string)
    /\ is_Some (entry !! "mobile_search_volume"%string).

(** A keyword tool that reports one keyword, its PC volume as the sentinel
    string and its mobile volume as a number. *)
Definition example_volume_item : volume_item :=
  {| relKeyword := Some "game"%string;
     monthlyPcQcCnt := Some (PyStr "< 10");
     monthlyMobileQcCnt := Some (PyInt 120) |}.

Definition example_keywordstool (n : nat) (hints : list string)
    : keywordstool_answer :=
  AnswerList [Some example_volume_item].

(** ** Suggestions: [get_naver_autocomplete] *)

(** The text of an answer is the sequence of its characters.  The wrapper
    consists of ASCII characters only, so the two cuts of [text[11:-2]] are
    the same on characters and on the bytes of the UTF-8 encoding. *)
Definition jsonp_prefix : list ascii := list_ascii_of_string "jsonp12345(".
Definition jsonp_suffix : list ascii := list_ascii_of_string ");".

(** [text.startswith(p)], [text.endswith(s)] and [text[start:-back]]. *)
Definition startswith (p text : list ascii) : bool :=
  bool_decide (take (length p) text = p).

Definition endswith (s text : list ascii) : bool :=
  bool_decide (drop (length text - length s) text = s).

Definition slice_from_to_end (start back : nat) (text : list ascii)
    : list ascii :=
  drop start (take (length text - back) text).

(** Lines 117-124: the string handed to [json.loads]. *)
Definition jsonp_payload (text : list ascii) : list ascii :=
  if startswith jsonp_prefix text && endswith jsonp_suffix text
  then slice_from_to_end 11 2 text
  else text.

(** The parts of the decoded answer that the extraction reads:
    [data["items"]] is a list; an element of it is a list of sub-items, or
    something else ([None]); a sub-item is a list, or something else
    ([None]); the first element of a sub-item is a string. *)
Abbreviation sub_item := (option (list string)).
Abbreviation suggestion_item := (option (list sub_item)).

Inductive autocomplete_data :=
  | NoItems
  | Items (items : list suggestion_item).

(** Lines 133-137, the loop over the sub-items of an item. *)
Fixpoint sub_items_loop (keyword : string) (sub_items : list sub_item)
    (suggestions : list string) : list string :=
  match sub_items with
  | [] => suggestions
  | Some (suggestion :: _) :: rest =>
      if bool_decide (suggestion <> ""%string)
         && bool_decide (suggestion <> keyword)
         && bool_decide (suggestion ∉ suggestions)
      then sub_items_loop keyword rest (suggestions ++ [suggestion])
      else sub_items_loop keyword rest suggestions
  | _ :: rest => sub_items_loop keyword rest suggestions
  end.

(** Lines 131-137, the loop over the items. *)
Fixpoint items_loop (keyword : string) (items : list suggestion_item)
    (suggestions : list string) : list string :=
  match items with
  | [] => suggestions
  | Some (sub :: subs) :: rest =>
      items_loop keyword rest (sub_items_loop keyword (sub :: subs) suggestions)
  | _ :: rest => items_loop keyword rest suggestions
  end.

(** Lines 127-139. *)
Definition extract_suggestions (keyword : string) (data : autocomplete_data)
    : list string :=
  match data with
  | Items (item :: items) => items_loop keyword (item :: items) []
  | _ => []
  end.

Section Autocomplete.

(** The request of a keyword gives the text of the answer, or raises
    ([None]); [json_loads] is the decoding of a text together with the view
    of the decoded value that the extraction reads, [None] when
    [json.loads] or a later operation on the decoded value raises. *)
Variable request : string -> option (list ascii).
Variable json_loads : list ascii -> option autocomplete_data.

(** [get_naver_autocomplete]: every exception gives the empty list. *)
Definition get_naver_autocomplete (keyword : string) : list string :=
  match request keyword with
  | None => []
  | Some text =>
      match json_loads (jsonp_payload text) with
      | None => []
      | Some data => extract_suggestions keyword data
      end
  end.

End Autocomplete.

(** What the loop over sub-items offers for the suggestions of a keyword:
    the non-empty first elements other than the keyword. *)
Definition offered (keyword : string) (sub_items : list sub_item)
    (s : string) : Prop :=
  s <> ""%string /\ s <> keyword
  /\ exists others, Some (s :: others) ∈ sub_items.

(** ** The analysis loop: [get_keyword_analysis] *)

(** The state of the loop: the mapping [analysis_result] from keywords to
    the references of their metrics objects, the heap of the objects created
    so far, the reference that the next object gets, and the keywords given
    so far to [get_blog_count]. *)
Record analysis_state := {
  result_dict : keyword_dict;
  objects : store;
  next_object : ref;
  blog_calls : list string
}.

Definition empty_analysis : analysis_state :=
  {| result_dict := [];
     objects := ∅;
     next_object := 1%positive;
     blog_calls := [] |}.

Section KeywordAnalysis.

Variable py_int : string -> option Z.
Variable py_strip : string -> string.
Variable keywordstool : nat -> list string -> keywordstool_answer.

(** [get_blog_count]: the count that its call number [n] gives for a
    keyword. *)
Variable get_blog_count : nat -> string -> Z.

(** Lines 524-559, the body of the inner loop: a keyword whose cleaned form
    is in the volume lookup gets a new metrics object. *)
Definition analyse_keyword
    (search_volume_result : gmap string (gmap string pyval))
    (cleaned_keyword original_keyword : string) (st : analysis_state)
    : option analysis_state :=
  match search_volume_result !! cleaned_keyword with
  | Some entry =>
      let blog_count :=
        get_blog_count (length (blog_calls st)) original_keyword in
      pc_cell ← entry !! "pc_search_volume"%string;
      mobile_cell ← entry !! "mobile_search_volume"%string;
      metrics ← keyword_metrics py_int pc_cell mobile_cell blog_count;
      Some {| result_dict :=
                dict_set original_keyword (next_object st) (result_dict st);
              objects := <[next_object st := metrics]> (objects st);
              next_object := Pos.succ (next_object st);
              blog_calls := blog_calls st ++ [original_keyword] |}
  | None => Some st
  end.

(** Lines 520-559: [for i, original_keyword in enumerate(batch_keywords)],
    with [cleaned_keywords[global_i]] raising when out of range. *)
Fixpoint analysis_batch_loop
    (search_volume_result : gmap string (gmap string pyval))
    (cleaned_keywords : list string) (batch_idx i : nat)
    (batch_keywords : list string) (st : analysis_state)
    : option analysis_state :=
  match batch_keywords with
  | [] => Some st
  | original_keyword :: rest =>
      let global_i := (batch_idx + i)%nat in
      cleaned_keyword ← cleaned_keywords !! global_i;
      st' ← analyse_keyword search_volume_result cleaned_keyword
              original_keyword st;
      analysis_batch_loop search_volume_result cleaned_keywords batch_idx
        (S i) rest st'
  end.

(** Lines 516-563: [for batch_idx in range(0, len(keywords), batch_size)]. *)
Fixpoint analysis_loop
    (search_volume_result : gmap string (gmap string pyval))
    (cleaned_keywords keywords : list string) (batch_size : nat)
    (indices : list nat) (st : analysis_state) : option analysis_state :=
  match indices with
  | [] => Some st
  | batch_idx :: rest =>
      let batch_keywords := take batch_size (drop batch_idx keywords) in
      st' ← analysis_batch_loop search_volume_result cleaned_keywords
              batch_idx 0 batch_keywords st;
      analysis_loop search_volume_result cleaned_keywords keywords batch_size
        rest st'
  end.

(** [get_keyword_analysis], with the final state of its loop; [None] when
    it raises. *)
Definition keyword_analysis_run (keywords : list string)
    : option analysis_state :=
  let search_volume_result :=
    get_search_volume py_strip keywordstool keywords in
  let cleaned_keywords := clean_keyword py_strip <$> keywords in
  let batch_size := 50%nat in
  analysis_loop search_volume_result cleaned_keywords keywords batch_size
    (range_step (length keywords) batch_size) empty_analysis.

Definition get_keyword_analysis (keywords : list string)
    : option (store * keyword_dict) :=
  st ← keyword_analysis_run keywords;
  Some (objects st, result_dict st).

(** One pass over the keywords, each with its own cleaned form: what the
    two nested loops are shown to amount to. *)
Fixpoint analysis_pass
    (search_volume_result : gmap string (gmap string pyval))
    (keywords : list string) (st : analysis_state) : option analysis_state :=
  match keywords with
  | [] => Some st
  | keyword :: rest =>
      st' ← analyse_keyword search_volume_result
              (clean_keyword py_strip keyword) keyword st;
      analysis_pass search_volume_result rest st'
  end.

End KeywordAnalysis.

(** The metrics object that the analysis creates: the five cells, the two
    that the classifier reads holding integers, and no stage yet. *)
Definition analysed_metrics (obj : gmap string pyval) : Prop :=
  exists pc_volume mobile_volume blog_count ratio,
    obj !! "pc_search_volume"%string = Some pc_volume
    /\ obj !! "mobile_search_volume"%string = Some mobile_volume
    /\ obj !! "total_search_volume"%string
         = Some (PyInt (int_value pc_volume + int_value mobile_volume))
    /\ obj !! "blog_count"%string = Some (PyInt blog_count)
    /\ obj !! "competition_ratio"%string = Some ratio
    /\ is_Some (as_number ratio)
    /\ obj !! "stage"%string = None.

(** A lookup of two keywords, one of them with the sentinel volume, and a
    document count for the examples. *)
Definition example_volume_items : list (option volume_item) :=
  [Some example_volume_item;
   Some {| relKeyword := Some "chess"%string;
           monthlyPcQcCnt := Some (PyInt 40);
           monthlyMobileQcCnt := Some (PyStr "60") |}].

Definition example_keywordstool_two (n : nat) (hints : list string)
    : keywordstool_answer :=
  AnswerKeywordList example_volume_items.

Definition example_blog_count (n : nat) (keyword : string) : Z := 500.

(** What holds of the state of the analysis after the keywords [seen], for
    the volume lookup [search_volume_result]. *)
Definition analysis_invariant (py_strip : string -> string)
    (search_volume_result : gmap string (gmap string pyval))
    (seen : list string) (st : analysis_state) : Prop :=
  NoDup (result_dict st).*1
  /\ NoDup (result_dict st).*2
  /\ (forall kw, kw ∈ (result_dict st).*1 <->
        kw ∈ seen /\ clean_keyword py_strip kw ∈ dom search_volume_result)
  /\ blog_calls st
       = filter (fun kw => clean_keyword py_strip kw ∈ dom search_volume_result)
           seen
  /\ (forall kw r, (kw, r) ∈ result_dict st ->
        (r < next_object st)%positive
        /\ exists obj, objects st !! r = Some obj /\ analysed_metrics obj).

(** The analysis of three keywords, the second of which the lookup does not
    know, and its final state. *)
Definition example_keywords : list string :=
  ["game"%string; "go"%string; "chess"%string].

Definition example_object (pc mobile blog_count : Z) (ratio : Q)
    : gmap string pyval :=
  <["pc_search_volume"%string := PyInt pc]>
    (<["mobile_search_volume"%string := PyInt mobile]>
      (<["total_search_volume"%string := PyInt (pc + mobile)]>
        (<["blog_count"%string := PyInt blog_count]>
          (<["competition_ratio"%string := PyFloat ratio]> ∅)))).

Definition example_analysed : analysis_state :=
  {| result_dict := [("game"%string, 1%positive); ("chess"%string, 2%positive)];
     objects := <[2%positive := example_object 40 60 500 5]>
                  (<[1%positive := example_object 5 120 500 4]> ∅);
     next_object := 3%positive;
     blog_calls := ["game"%string; "chess"%string] |}.

(** ** The document count: [get_blog_count] *)

(** The outcome of one attempt: the request answers with status 200 and the
    decoded body gives [result.get('total', 0)]; it answers with another
    status; it raises [HTTPError] with code 429; or the attempt raises
    anything else. *)
Inductive blog_response :=
  | BlogTotal (total_count : Z)
  | BlogOtherStatus
  | BlogTooManyRequests
  | BlogFailure.

(** Lines 428-469: [for attempt in range(max_retries)], with the number of
    attempts made. *)
Fixpoint blog_count_loop (max_retries : nat)
    (responses : nat -> blog_response) (attempts : list nat) (made : nat)
    : Z * nat :=
  match attempts with
  | [] => (0, made)
  | attempt :: rest =>
      match responses attempt with
      | BlogTotal total_count => (total_count, S made)
      | BlogOtherStatus =>
          if (attempt <? max_retries - 1)%nat
          then blog_count_loop max_retries responses rest (S made)
          else (0, S made)
      | BlogTooManyRequests =>
          blog_count_loop max_retries responses rest (S made)
      | BlogFailure => (0, S made)
      end
  end.

Definition blog_count_with (max_retries : nat)
    (responses : nat -> blog_response) : Z * nat :=
  blog_count_loop max_retries responses (seq 0 max_retries) 0.

(** [get_blog_count], where [max_retries = 1]. *)
Definition get_blog_count (responses : nat -> blog_response) : Z * nat :=
  blog_count_with 1 responses.

(** ** The analysis with intermediate saves:
    [get_keyword_analysis_with_save] *)

Section KeywordAnalysisWithSave.

Variable py_int : string -> option Z.
Variable py_strip : string -> string.
Variable keywordstool : nat -> list string -> keywordstool_answer.
Variable get_blog_count : nat -> string -> Z.

(** What [_save_intermediate_results] does to the metrics objects when it
    is given the mapping; it swallows every exception, and it does not touch
    the mapping itself. *)
Variable save_intermediate : keyword_dict -> store -> store.

(** Lines 588-631, the body of the inner loop: every keyword gets a metrics
    object, with zero volumes when its cleaned form is not in the lookup. *)
Definition analyse_keyword_with_save
    (search_volume_result : gmap string (gmap string pyval))
    (cleaned_keyword original_keyword : string) (st : analysis_state)
    : option analysis_state :=
  let blog_count :=
    get_blog_count (length (blog_calls st)) original_keyword in
  metrics ← keyword_metrics_with_save py_int
              (search_volume_result !! cleaned_keyword) blog_count;
  Some {| result_dict :=
            dict_set original_keyword (next_object st) (result_dict st);
          objects := <[next_object st := metrics]> (objects st);
          next_object := Pos.succ (next_object st);
          blog_calls := blog_calls st ++ [original_keyword] |}.

(** Lines 588-631: [for i, original_keyword in enumerate(batch_keywords)]. *)
Fixpoint with_save_batch_loop
    (search_volume_result : gmap string (gmap string pyval))
    (cleaned_keywords : list string) (batch_idx i : nat)
    (batch_keywords : list string) (st : analysis_state)
    : option analysis_state :=
  match batch_keywords with
  | [] => Some st
  | original_keyword :: rest =>
      let global_i := (batch_idx + i)%nat in
      cleaned_keyword ← cleaned_keywords !! global_i;
      st' ← analyse_keyword_with_save search_volume_result cleaned_keyword
              original_keyword st;
      with_save_batch_loop search_volume_result cleaned_keywords batch_idx
        (S i) rest st'
  end.

(** Lines 634-635: [if analysis_result: self._save_intermediate_results(...)]. *)
Definition intermediate_save (st : analysis_state) : analysis_state :=
  match result_dict st with
  | [] => st
  | _ :: _ =>
      {| result_dict := result_dict st;
         objects := save_intermediate (result_dict st) (objects st);
         next_object := next_object st;
         blog_calls := blog_calls st |}
  end.

(** Lines 584-639: the loop over the batches, each followed by a save. *)
Fixpoint with_save_loop
    (search_volume_result : gmap string (gmap string pyval))
    (cleaned_keywords keywords : list string) (batch_size : nat)
    (indices : list nat) (st : analysis_state) : option analysis_state :=
  match indices with
  | [] => Some st
  | batch_idx :: rest =>
      let batch_keywords := take batch_size (drop batch_idx keywords) in
      st' ← with_save_batch_loop search_volume_result cleaned_keywords
              batch_idx 0 batch_keywords st;
      with_save_loop search_volume_result cleaned_keywords keywords batch_size
        rest (intermediate_save st')
  end.

(** [get_keyword_analysis_with_save] when it is not interrupted, with the
    final state of its loop; [None] when it raises. *)
Definition keyword_analysis_with_save_run (keywords : list string)
    : option analysis_state :=
  let search_volume_result :=
    get_search_volume py_strip keywordstool keywords in
  let cleaned_keywords := clean_keyword py_strip <$> keywords in
  let batch_size := 20%nat in
  with_save_loop search_volume_result cleaned_keywords keywords batch_size
    (range_step (length keywords) batch_size) empty_analysis.

Definition get_keyword_analysis_with_save (keywords : list string)
    : option (store * keyword_dict) :=
  st ← keyword_analysis_with_save_run keywords;
  Some (objects st, result_dict st).

End KeywordAnalysisWithSave.

(** An intermediate save writes nothing but the stage of an object. *)
Definition writes_stage_only (save : keyword_dict -> store -> store) : Prop :=
  forall d heap r obj,
    heap !! r = Some obj ->
    exists obj', save d heap !! r = Some obj'
      /\ forall key, key <> "stage"%string -> obj' !! key = obj !! key.

(** The metrics object of a keyword after the analysis with saves: the five
    metrics, all zero but the document count when the lookup does not know
    the keyword. *)
Definition saved_metrics (known : bool) (obj : gmap string pyval) : Prop :=
  exists pc_volume mobile_volume blog_count ratio,
    obj !! "pc_search_volume"%string = Some pc_volume
    /\ obj !! "mobile_search_volume"%string = Some mobile_volume
    /\ obj !! "total_search_volume"%string
         = Some (PyInt (int_value pc_volume + int_value mobile_volume))
    /\ obj !! "blog_count"%string = Some (PyInt blog_count)
    /\ obj !! "competition_ratio"%string = Some ratio
    /\ is_Some (as_number ratio)
    /\ (known = false ->
        pc_volume = PyInt 0 /\ mobile_volume = PyInt 0 /\ ratio = PyInt 0).

Definition with_save_invariant (py_strip : string -> string)
    (search_volume_result : gmap string (gmap string pyval))
    (seen : list string) (st : analysis_state) : Prop :=
  NoDup (result_dict st).*1
  /\ NoDup (result_dict st).*2
  /\ (forall kw, kw ∈ (result_dict st).*1 <-> kw ∈ seen)
  /\ blog_calls st = seen
  /\ (forall kw r, (kw, r) ∈ result_dict st ->
        (r < next_object st)%positive
        /\ exists obj,
             objects st !! r = Some obj
             /\ saved_metrics
                  (bool_decide (clean_keyword py_strip kw
                                  ∈ dom search_volume_result)) obj).

(** The intermediate save as the code has it when the filter returns: the
    stamps of [filter_keywords_by_target_stages]. *)
Definition example_save_intermediate (d : keyword_dict) (heap : store)
    : store :=
  match filter_keywords_by_target_stages example_config heap d
          (Some TARGET_STAGES) with
  | Some (heap', _) => heap'
  | None => heap
  end.

(** The final state of the analysis with saves of the example keywords. *)
Definition example_unknown_object (blog_count : Z) : gmap string pyval :=
  <["pc_search_volume"%string := PyInt 0]>
    (<["mobile_search_volume"%string := PyInt 0]>
      (<["total_search_volume"%string := PyInt 0]>
        (<["blog_count"%string := PyInt blog_count]>
          (<["competition_ratio"%string := PyInt 0]> ∅)))).

Definition example_saved : analysis_state :=
  {| result_dict := [("game"%string, 1%positive); ("go"%string, 2%positive);
                     ("chess"%string, 3%positive)];
     objects := <[3%positive := example_object 40 60 500 5]>
                  (<[2%positive := example_unknown_object 500]>
                    (<[1%positive := example_object 5 120 500 4]> ∅));
     next_object := 4%positive;
     blog_calls := example_keywords |}.

(** ** The table of all keywords: [save_all_keywords_to_test] *)

(** Lines 850-862: the row made of a keyword and its metrics, its stage
    being computed by the classifier and the metrics left as they are. *)
Definition test_row (config : blog_stages_config)
    (item : string * gmap string pyval) : option row :=
  let '(keyword, stats) := item in
  keyword_stage ← metrics_stage config stats;
  pc ← stats !! "pc_search_volume"%string;
  mobile ← stats !! "mobile_search_volume"%string;
  total ← stats !! "total_search_volume"%string;
  blog_count ← stats !! "blog_count"%string;
  ratio ← stats !! "competition_ratio"%string ≫= as_number;
  Some {| row_keyword := keyword;
          row_pc := pc;
          row_mobile := mobile;
          row_total := total;
          row_blog_count := blog_count;
          row_ratio := Some ratio;
          row_stage := Some keyword_stage |}.

(** [save_all_keywords_to_test]: the table written, or [None] when the
    function raises; a frame without rows has no column to sort by. *)
Definition save_all_keywords_to_test (config : blog_stages_config)
    (analysis_result : list (string * gmap string pyval))
    : option (list row) :=
  all_data ← mapM (test_row config) analysis_result;
  match all_data with
  | [] => None
  | _ :: _ => Some (sort_values all_data)
  end.

(** The mapping of the example with the metrics it refers to, and the table
    of all its keywords. *)
Definition example_full_items : list (string * gmap string pyval) :=
  [("a"%string, example_stats (1 # 10) 0)].

Definition example_test_table : list row := [example_row "a" (1 # 10) 1].

(* ===================================================================== *)
(** * Part II: properties                                                 *)
(* ===================================================================== *)

Section StageClassifier.

Variable blog_stages : gmap string stage_config.
Variables d s : Z.

(** One step of the scan, read off the three branches of the loop body. *)
Lemma stage_scan_hit k rest :
  tier_matches blog_stages k d s ->
  stage_scan blog_stages d s (k :: rest) = k.
Proof.
  intros (rule & Hrule & Hbase & Hextra). simpl.
  rewrite Hrule, Hbase.
  destruct (k =? 1) eqn:Hk; [reflexivity|].
  destruct Hextra as [->|Hle]; [discriminate|].
  destruct (s >=? d) eqn:Hge; [reflexivity|]. lia.
Qed.

Lemma stage_scan_miss k rest :
  ~ tier_matches blog_stages k d s ->
  stage_scan blog_stages d s (k :: rest) = stage_scan blog_stages d s rest.
Proof.
  intros Hno. simpl.
  destruct (blog_stages !! pretty k) as [rule|] eqn:Hrule; [|reflexivity].
  destruct (base_condition rule d s) eqn:Hbase; [|reflexivity].
  destruct (k =? 1) eqn:Hk.
  - exfalso. apply Hno. exists rule. repeat split; auto. left. lia.
  - destruct (s >=? d) eqn:Hge; [|reflexivity].
    exfalso. apply Hno. exists rule. repeat split; auto. right. lia.
Qed.

Lemma tier_matches_dec k :
  {tier_matches blog_stages k d s} + {~ tier_matches blog_stages k d s}.
Proof.
  unfold tier_matches.
  destruct (blog_stages !! pretty k) as [rule|]; [|right; intros (?&?&_); discriminate].
  destruct (base_condition rule d s) eqn:Hb;
    [|right; intros (r&Hr&Hb'&_); injection Hr as <-; congruence].
  destruct (decide (k = 1)) as [->|Hk]; [left; eauto|].
  destruct (decide (d <= s)) as [Hle|Hgt]; [left; eauto|].
  right. intros (_&_&_&[?|?]); contradiction.
Qed.

(** The scan returns the first stage number of the list that matches, and
    0 when none does. *)
Lemma stage_scan_first nums :
  (stage_scan blog_stages d s nums = 0
     /\ forall k, k ∈ nums -> ~ tier_matches blog_stages k d s)
  \/ (exists (i : nat) k, nums !! i = Some k
        /\ stage_scan blog_stages d s nums = k
        /\ tier_matches blog_stages k d s
        /\ forall (j : nat) y, nums !! j = Some y -> (j < i)%nat ->
             ~ tier_matches blog_stages y d s).
Proof.
  induction nums as [|k rest IH].
  - left. split; [reflexivity|]. intros k Hk. inversion Hk.
  - destruct (tier_matches_dec k) as [Hyes|Hno].
    + right. exists 0%nat, k. rewrite stage_scan_hit by assumption.
      repeat split; auto. intros j y _ Hj. lia.
    + rewrite stage_scan_miss by assumption.
      destruct IH as [[H0 Hall]|(i & k' & Hi & Hr & Hm & Hbefore)].
      * left. split; [assumption|].
        intros k' Hk'. apply elem_of_cons in Hk' as [->|Hk']; auto.
      * right. exists (S i), k'. repeat split; auto.
        intros [|j] y Hy Hj; simpl in Hy.
        -- injection Hy as <-. assumption.
        -- apply (Hbefore j); [assumption | lia].
Qed.

End StageClassifier.

(** The bounds test of line 486 decides the bounds as the claim reads
    them. *)
Lemma base_condition_within_bounds (rule : stage_config) (d s : Z) :
  base_condition rule d s = true <-> within_bounds rule d s.
Proof.
  unfold base_condition, within_bounds, D_max, S_min, S_max.
  rewrite !andb_true_iff.
  destruct (rule !! "D_max"%string) as [[d_max|]|];
    destruct (rule !! "S_min"%string) as [[s_min|]|];
    destruct (rule !! "S_max"%string) as [[s_max|]|];
    simpl; rewrite ?Z.leb_le; split;
    try (intros (H1 & H2 & H3);
         repeat split; try congruence; try discriminate;
         intros; simplify_eq; lia);
    try (intros (H1 & H2 & H3 & H4 & H5);
         try (exfalso; apply H4; reflexivity);
         repeat split; auto).
Qed.

Lemma tier_matches_applies (blog_stages : gmap string stage_config)
    (k d s : Z) :
  tier_matches blog_stages k d s <-> tier_applies blog_stages k d s.
Proof.
  unfold tier_matches, tier_applies. split.
  - intros (rule & Hrule & Hbase & Hextra). exists rule.
    split; [exact Hrule|]. split; [|exact Hextra].
    apply base_condition_within_bounds. exact Hbase.
  - intros (rule & Hrule & Hbounds & Hextra). exists rule.
    split; [exact Hrule|]. split; [|exact Hextra].
    apply base_condition_within_bounds. exact Hbounds.
Qed.

(** C1.  With the stage table loaded, [get_keyword_stage] returns the first
    tier number [r] of 1..5 that applies: its rule is present, [d] is at most
    the maximum document count of the rule and [s] lies between its minimum
    and maximum search volume, and, for the tiers 2..5, [s >= d] holds as
    well; tier 1 needs the bounds only; a tier whose bounds hold while
    [s < d] is passed over and the later tiers are still examined; the result
    is 0 exactly when no tier of 1..5 applies.  The bounds are stated by
    [within_bounds], in the order of the integers. *)
Theorem get_keyword_stage_first_match
    (config : blog_stages_config) (blog_stages : gmap string stage_config)
    (d s : Z) :
  config !! "blog_stages"%string = Some blog_stages ->
  let r := get_keyword_stage config d s in
  (1 <= r <= 5
     /\ tier_applies blog_stages r d s
     /\ forall j, 1 <= j < r -> ~ tier_applies blog_stages j d s)
  \/ (r = 0 /\ forall j, 1 <= j <= 5 -> ~ tier_applies blog_stages j d s).
Proof.
  intros Hcfg r. subst r. unfold get_keyword_stage. rewrite Hcfg.
  destruct (stage_scan_first blog_stages d s (seqZ 1 5))
    as [[H0 Hall]|(i & k & Hi & Hr & Hm & Hbefore)].
  - right. split; [assumption|]. intros j Hj Happlies.
    apply tier_matches_applies in Happlies. revert Happlies. apply Hall.
    apply elem_of_seqZ. lia.
  - left. rewrite Hr. apply lookup_seqZ in Hi as [-> Hi5].
    split; [lia|]. split; [apply tier_matches_applies; assumption|].
    intros j Hj Happlies. apply tier_matches_applies in Happlies.
    revert Happlies. apply (Hbefore (Z.to_nat (j - 1))); [|lia].
    apply lookup_seqZ. lia.
Qed.

Example parse_volume_examples :
  parse_volume py_int_ascii (PyStr "< 10") = PyInt 5
  /\ parse_volume py_int_ascii (PyStr "120") = PyInt 120
  /\ parse_volume py_int_ascii (PyStr " -7 ") = PyInt (-7)
  /\ parse_volume py_int_ascii (PyStr "12.5") = PyInt 0
  /\ parse_volume py_int_ascii (PyStr "") = PyInt 0
  /\ parse_volume py_int_ascii (PyInt 33) = PyInt 33
  /\ parse_volume py_int_ascii PyNone = PyInt 0.
Proof. repeat split; reflexivity. Qed.



Lemma get_keyword_stage_first_match_witness :
  let r := get_keyword_stage example_config 30 40 in
  (1 <= r <= 5
     /\ tier_applies example_blog_stages r 30 40
     /\ forall j, 1 <= j < r -> ~ tier_applies example_blog_stages j 30 40)
  \/ (r = 0
      /\ forall j, 1 <= j <= 5 -> ~ tier_applies example_blog_stages j 30 40).
Proof.
  apply (get_keyword_stage_first_match example_config example_blog_stages
           30 40).
  reflexivity.
Defined.

(** The classifier on the example table: tier 1 by its bounds alone even
    though [s < d]; tier 2 when tier 1 fails; and 0 when the bounds of the
    tiers 2..5 hold but [s < d]. *)
Example get_keyword_stage_examples :
  get_keyword_stage example_config 8 3 = 1
  /\ get_keyword_stage example_config 30 40 = 2
  /\ get_keyword_stage example_config 30 20 = 0
  /\ get_keyword_stage ∅ 8 3 = 0.
Proof. repeat split; vm_compute; reflexivity. Qed.

Section ExpansionProofs.

Variable oracle : nat -> string -> list string.
Variable interrupted : nat -> bool.
Variable max_keywords : Z.

Local Abbreviation add_related := (add_related max_keywords).
Local Abbreviation loop_test := (loop_test max_keywords).
Local Abbreviation loop_body := (loop_body oracle interrupted max_keywords).
Local Abbreviation expand_loop := (expand_loop oracle interrupted max_keywords).
Local Abbreviation room := (room max_keywords).

(** *** The inner loop *)

Lemma add_related_pool seed related all q :
  (add_related seed related all q).1 = all ∪ list_to_set related.
Proof.
  revert all q. induction related as [|kw rest IH]; intros all q; simpl.
  - set_solver.
  - destruct (decide (kw ∈ all)); rewrite IH; set_solver.
Qed.

Lemma add_related_size seed related all q :
  (size (add_related seed related all q).1 <= size all + length related)%nat.
Proof.
  revert all q. induction related as [|kw rest IH]; intros all q; simpl.
  - lia.
  - destruct (decide (kw ∈ all)) as [Hin|Hout].
    + etransitivity; [apply IH|]. lia.
    + etransitivity; [apply IH|].
      rewrite size_union by set_solver. rewrite size_singleton. lia.
Qed.

Lemma add_related_grows seed related all q :
  (size all <= size (add_related seed related all q).1)%nat.
Proof.
  rewrite add_related_pool. apply subseteq_size. set_solver.
Qed.

(** Either nothing was new, and the queue is untouched, or the pool is
    strictly larger. *)
Lemma add_related_same_or_larger seed related all q :
  add_related seed related all q = (all, q)
  \/ (size all < size (add_related seed related all q).1)%nat.
Proof.
  revert all q. induction related as [|kw rest IH]; intros all q; simpl.
  - left. reflexivity.
  - destruct (decide (kw ∈ all)) as [Hin|Hout]; [apply IH|].
    right. eapply Nat.lt_le_trans; [|apply add_related_grows].
    rewrite size_union by set_solver. rewrite size_singleton. lia.
Qed.

(** *** The loop: invariants *)

(** A property [I] of the states at the loop test that every iteration
    preserves, and that yields [F] at each of the exits, gives [F] of the
    final state. *)
Lemma expand_loop_S fuel st :
  expand_loop (S fuel) st =
    if loop_test st then
      match loop_body st with
      | Next st' => expand_loop fuel st'
      | Stop st' => Some st'
      end
    else Some st.
Proof. reflexivity. Qed.

Lemma expand_loop_invariant (I F : expansion_state -> Prop) :
  (forall st, I st -> loop_test st = false -> F st) ->
  (forall st, I st -> loop_test st = true ->
     match loop_body st with
     | Next st' => I st'
     | Stop st' => F st'
     end) ->
  forall fuel st st',
    I st -> expand_loop fuel st = Some st' -> F st'.
Proof.
  intros Hexit Hstep fuel.
  induction fuel as [|fuel IH]; intros st st' HI Hrun.
  - discriminate.
  - rewrite expand_loop_S in Hrun.
    destruct (loop_test st) eqn:Htest.
    + specialize (Hstep st HI Htest).
      destruct (loop_body st) as [st1|st1].
      * apply (IH st1); assumption.
      * injection Hrun as <-. assumption.
    + injection Hrun as <-. auto.
Qed.

Lemma expand_loop_more_fuel fuel fuel' st st' :
  (fuel <= fuel')%nat ->
  expand_loop fuel st = Some st' -> expand_loop fuel' st = Some st'.
Proof.
  revert fuel' st. induction fuel as [|fuel IH]; intros fuel' st Hle Hrun.
  - discriminate.
  - destruct fuel' as [|fuel']; [lia|]. rewrite expand_loop_S in *.
    destruct (loop_test st); [|assumption].
    destruct (loop_body st); [|assumption].
    apply IH; [lia | assumption].
Qed.

(** *** The loop: termination *)

(** An iteration that continues either leaves the pool alone and shortens
    the queue by one, or enlarges the pool. *)
Lemma loop_body_decreases st st' :
  loop_test st = true ->
  loop_body st = Next st' ->
  (all_keywords st' = all_keywords st
     /\ S (length (queue st')) = length (queue st))
  \/ (room st' < room st)%nat.
Proof.
  unfold loop_test, loop_body, room.
  destruct (queue st) as [|[cur seed] q'] eqn:Hq; [discriminate|].
  intros Htest.
  destruct (decide (cur ∈ processed_keywords st)).
  - intros [= <-]. left. simpl. auto.
  - destruct (oracle (total_processed st) cur) as [|kw rest] eqn:Hresp.
    + destruct (_ >=? max_empty_tolerance); [discriminate|].
      destruct (pause_interrupted interrupted q' _); [discriminate|].
      destruct (_ >=? max_keywords); [discriminate|].
      intros [= <-]. left. simpl. auto.
    + destruct (add_related_same_or_larger seed (kw :: rest)
                  (all_keywords st) q') as [Heq|Hlt].
      * rewrite Heq.
        destruct (pause_interrupted interrupted q' _); [discriminate|].
        destruct (_ >=? max_keywords); [discriminate|].
        intros [= <-]. left. simpl. auto.
      * destruct (add_related seed (kw :: rest) (all_keywords st) q')
          as [all' q''].
        simpl in Hlt.
        destruct (pause_interrupted interrupted q'' _); [discriminate|].
        destruct (_ >=? max_keywords); [discriminate|].
        intros [= <-]. right. simpl. lia.
Qed.

Lemma expand_loop_terminates_aux (r len : nat) :
  forall st, (room st <= r)%nat -> (length (queue st) <= len)%nat ->
    exists fuel st', expand_loop fuel st = Some st'.
Proof.
  revert len. induction r as [r IHr] using lt_wf_ind.
  induction len as [|len IHlen]; intros st Hroom Hlen.
  - exists 1%nat, st. rewrite expand_loop_S. unfold loop_test.
    destruct (queue st); [reflexivity | simpl in Hlen; lia].
  - destruct (loop_test st) eqn:Htest.
    + destruct (loop_body st) as [st1|st1] eqn:Hbody.
      * destruct (loop_body_decreases st st1 Htest Hbody)
          as [[Hall Hq]|Hlt].
        -- destruct (IHlen st1) as (fuel & st' & Hrun).
           ++ unfold room in *. rewrite Hall. assumption.
           ++ lia.
           ++ exists (S fuel), st'. rewrite expand_loop_S, Htest, Hbody. assumption.
        -- destruct (IHr (room st1) ltac:(lia) (length (queue st1)) st1)
             as (fuel & st' & Hrun); [lia | lia |].
           exists (S fuel), st'. rewrite expand_loop_S, Htest, Hbody. assumption.
      * exists 1%nat, st1. rewrite expand_loop_S, Htest, Hbody. reflexivity.
    + exists 1%nat, st. rewrite expand_loop_S, Htest. reflexivity.
Qed.

Lemma expand_loop_terminates st :
  exists fuel st', expand_loop fuel st = Some st'.
Proof. eapply expand_loop_terminates_aux; reflexivity. Qed.

(** *** The loop: what one iteration does *)

(** The iteration that starts in [st], summarised: the keyword at the head
    of the queue is either known and skipped, or it is marked, queried once
    and its answer merged into the pool. *)
Lemma loop_body_summary st :
  loop_test st = true ->
  exists current seed rest,
    queue st = (current, seed) :: rest
    /\ (Z.of_nat (size (all_keywords st)) < max_keywords)
    /\ let st' := state_of (loop_body st) in
       if decide (current ∈ processed_keywords st) then
         loop_body st = Next st'
         /\ processed_keywords st' = processed_keywords st
         /\ all_keywords st' = all_keywords st
         /\ total_processed st' = total_processed st
         /\ consecutive_empty_results st' = consecutive_empty_results st
         /\ oracle_log st' = oracle_log st
         /\ skipped st' = S (skipped st)
       else
         let answer := oracle (total_processed st) current in
         processed_keywords st' = {[current]} ∪ processed_keywords st
         /\ all_keywords st' = all_keywords st ∪ list_to_set answer
         /\ (size (all_keywords st')
               <= size (all_keywords st) + length answer)%nat
         /\ total_processed st' = S (total_processed st)
         /\ oracle_log st' = (current, answer) :: oracle_log st
         /\ skipped st' = skipped st
         /\ consecutive_empty_results st' =
              match answer with
              | [] => consecutive_empty_results st + 1
              | _ :: _ => 0
              end
         /\ (match answer with
             | [] => max_empty_tolerance <= consecutive_empty_results st + 1
             | _ :: _ => max_keywords <= Z.of_nat (size (all_keywords st'))
             end -> loop_body st = Stop st')
         /\ (loop_body st = Stop st' ->
             match answer with
             | [] => max_empty_tolerance <= consecutive_empty_results st + 1
             | _ :: _ => max_keywords <= Z.of_nat (size (all_keywords st'))
             end
             \/ (queue st' <> []
                 /\ interrupted (total_processed st) = true)).
Proof.
  unfold loop_test, loop_body.
  destruct (queue st) as [|[cur seed] q'] eqn:Hq; [discriminate|].
  intros Htest. apply Z.ltb_lt in Htest.
  exists cur, seed, q'. split; [reflexivity|]. split; [assumption|].
  destruct (decide (cur ∈ processed_keywords st)) as [Hseen|Hfresh].
  { simpl. repeat split. }
  destruct (oracle (total_processed st) cur) as [|kw answer] eqn:Hanswer.
  - destruct (consecutive_empty_results st + 1 >=? max_empty_tolerance) eqn:Hbrk.
    + simpl. repeat split; try set_solver; try lia.
    + destruct (pause_interrupted interrupted q' (total_processed st))
        eqn:Hpause.
      * assert (Hq' : q' <> [] /\ interrupted (total_processed st) = true).
        { unfold pause_interrupted in Hpause.
          destruct q'; [discriminate|]. split; [discriminate|exact Hpause]. }
        simpl. repeat split; try set_solver; try lia; try tauto.
      * destruct (Z.of_nat (size (all_keywords st)) >=? max_keywords)
          eqn:Hfull; [lia|].
        simpl. repeat split; try set_solver; try lia; try discriminate.
  - pose proof (add_related_pool seed (kw :: answer) (all_keywords st) q')
      as Hpool.
    pose proof (add_related_size seed (kw :: answer) (all_keywords st) q')
      as Hsize.
    destruct (add_related seed (kw :: answer) (all_keywords st) q')
      as [all' q''] eqn:Hadd.
    simpl in Hpool, Hsize.
    destruct (pause_interrupted interrupted q'' (total_processed st))
      eqn:Hpause.
    + assert (Hq' : q'' <> [] /\ interrupted (total_processed st) = true).
      { unfold pause_interrupted in Hpause.
        destruct q''; [discriminate|]. split; [discriminate|exact Hpause]. }
      simpl. repeat split; auto; try lia; try tauto.
    + destruct (Z.of_nat (size all') >=? max_keywords) eqn:Hfull;
        simpl; repeat split; auto; try lia; try discriminate.
Qed.

(** *** History of the oracle calls *)

Lemma log_invariant_step st :
  log_invariant st -> loop_test st = true ->
  log_invariant (state_of (loop_body st)).
Proof.
  intros (Hset & Hnodup & Hcount) Htest.
  destruct (loop_body_summary st Htest) as (cur & seed & q' & Hq & _ & Hsum).
  cbv zeta in Hsum.
  destruct (decide (cur ∈ processed_keywords st)) as [Hseen|Hfresh].
  - destruct Hsum as (_ & Hp & _ & Ht & _ & Hl & _).
    unfold log_invariant. rewrite Hp, Ht, Hl. auto.
  - destruct Hsum as (Hp & _ & _ & Ht & Hl & _).
    unfold log_invariant. rewrite Hp, Ht, Hl. simpl.
    repeat split.
    + rewrite Hset. reflexivity.
    + constructor; [|assumption].
      intros Hin. apply Hfresh. rewrite Hset. set_solver.
    + congruence.
Qed.

(** *** The circuit breaker *)

Lemma trailing_empty_nonneg log : 0 <= trailing_empty log.
Proof.
  induction log as [|[kw [|]] log IH]; simpl; lia.
Qed.

Lemma breaker_invariant_weaken st :
  breaker_invariant true st -> breaker_invariant false st.
Proof. intros (? & ? & ?). repeat split; auto. simpl in *. lia. Qed.

Lemma breaker_invariant_step st :
  breaker_invariant true st -> loop_test st = true ->
  match loop_body st with
  | Next st' => breaker_invariant true st'
  | Stop st' => breaker_invariant false st'
  end.
Proof.
  intros (Hcnt & Hlt & Hruns) Htest. simpl in Hlt.
  destruct (loop_body_summary st Htest) as (cur & seed & q' & Hq & _ & Hsum).
  cbv zeta in Hsum.
  destruct (decide (cur ∈ processed_keywords st)) as [Hseen|Hfresh].
  - destruct Hsum as (Hnext & _ & _ & _ & Hc & Hl & _).
    rewrite Hnext. unfold breaker_invariant. rewrite Hc, Hl. auto.
  - destruct Hsum as (_ & _ & _ & _ & Hl & _ & Hc & Hstop).
    assert (Hboth : breaker_invariant false (state_of (loop_body st))
                    /\ (loop_body st <> Stop (state_of (loop_body st)) ->
                        consecutive_empty_results (state_of (loop_body st))
                          < max_empty_tolerance)).
    { unfold breaker_invariant. rewrite Hc, Hl.
      destruct (oracle (total_processed st) cur) as [|kw answer]; simpl.
      - rewrite <- Hcnt. repeat split; auto; try lia.
        intros Hns. destruct (Z_lt_ge_dec (consecutive_empty_results st + 1)
                                max_empty_tolerance); [assumption|].
        exfalso. apply Hns, Hstop. lia.
      - unfold max_empty_tolerance. repeat split; auto; lia. }
    destruct Hboth as [Hweak Hstrict].
    destruct (loop_body st) as [st'|st'] eqn:Hbody; simpl in *; [|assumption].
    destruct Hweak as (Ha & Hb & Hd). split; [exact Ha|]. split; [|exact Hd].
    apply Hstrict. discriminate.
Qed.

(** *** Counting the iterations *)

Lemma expand_loop_iterations fuel st st' :
  expand_loop fuel st = Some st' ->
  (total_processed st' + skipped st'
     <= total_processed st + skipped st + fuel)%nat.
Proof.
  revert st. induction fuel as [|fuel IH]; intros st Hrun; [discriminate|].
  rewrite expand_loop_S in Hrun.
  destruct (loop_test st) eqn:Htest; [|injection Hrun as <-; lia].
  destruct (loop_body_summary st Htest) as (cur & seed & q' & Hq & _ & Hsum).
  cbv zeta in Hsum.
  assert (Hone : (total_processed (state_of (loop_body st))
                  + skipped (state_of (loop_body st))
                  = S (total_processed st + skipped st))%nat).
  { destruct (decide (cur ∈ processed_keywords st)).
    - destruct Hsum as (_ & _ & _ & Ht & _ & _ & Hs). lia.
    - destruct Hsum as (_ & _ & _ & Ht & _ & Hs & _). lia. }
  destruct (loop_body st) as [st1|st1]; simpl in Hone.
  - apply IH in Hrun. lia.
  - injection Hrun as <-. lia.
Qed.

(** *** The pool *)

Lemma pool_grows_step st :
  loop_test st = true ->
  all_keywords st ⊆ all_keywords (state_of (loop_body st))
  /\ processed_keywords st ⊆ processed_keywords (state_of (loop_body st)).
Proof.
  intros Htest.
  destruct (loop_body_summary st Htest) as (cur & seed & q' & Hq & _ & Hsum).
  cbv zeta in Hsum.
  destruct (decide (cur ∈ processed_keywords st)).
  - destruct Hsum as (_ & -> & -> & _). split; reflexivity.
  - destruct Hsum as (-> & -> & _). split; set_solver.
Qed.

(** With answers of at most [b] keywords, an iteration starts below
    [max_keywords] and so ends with at most [max_keywords - 1 + b]
    keywords. *)
Lemma pool_size_step (b : nat) (bound : Z) st :
  (forall n kw, (length (oracle n kw) <= b)%nat) ->
  max_keywords - 1 + Z.of_nat b <= bound ->
  loop_test st = true ->
  Z.of_nat (size (all_keywords (state_of (loop_body st)))) <= bound.
Proof.
  intros Hb Hbound Htest.
  destruct (loop_body_summary st Htest) as (cur & seed & q' & Hq & Hlt & Hsum).
  cbv zeta in Hsum.
  destruct (decide (cur ∈ processed_keywords st)).
  - destruct Hsum as (_ & _ & -> & _). lia.
  - destruct Hsum as (_ & _ & Hsize & _).
    specialize (Hb (total_processed st) cur). lia.
Qed.

(** *** The invariants hold of the final state *)

Lemma expand_loop_log_invariant fuel seeds final :
  expand_loop fuel (initial_state seeds) = Some final ->
  log_invariant final.
Proof.
  apply (expand_loop_invariant log_invariant log_invariant).
  - auto.
  - intros st Hinv Htest.
    pose proof (log_invariant_step st Hinv Htest) as Hstep.
    destruct (loop_body st); exact Hstep.
  - split; [|split]; simpl; [set_solver | constructor | reflexivity].
Qed.

Lemma expand_loop_breaker_invariant fuel seeds final :
  expand_loop fuel (initial_state seeds) = Some final ->
  breaker_invariant false final.
Proof.
  apply (expand_loop_invariant (breaker_invariant true)
           (breaker_invariant false)).
  - intros st Hinv _. apply breaker_invariant_weaken, Hinv.
  - apply breaker_invariant_step.
  - repeat split; simpl; unfold max_empty_tolerance; lia.
Qed.

End ExpansionProofs.

(** ** The claims about the expansion *)

(** The size of the pool.  The expansion returns a pool that contains every
    seed.  The limit is only tested before an iteration starts, and the
    keywords of an answer are all added: when no answer has more than [b]
    keywords the pool has at most
    [max (number of distinct seeds) (max_keywords - 1 + b)] elements. *)
Theorem expand_pool_seeds_and_size
    (oracle : nat -> string -> list string) (interrupted : nat -> bool)
    (max_keywords : Z)
    (seed_keywords : list string) (b : nat) :
  (forall n kw, (length (oracle n kw) <= b)%nat) ->
  exists fuel pool,
    expand_keywords_recursive oracle interrupted max_keywords fuel seed_keywords = Some pool
    /\ (forall seed, seed ∈ seed_keywords -> seed ∈ pool)
    /\ Z.of_nat (size pool)
         <= Z.max (Z.of_nat (size (list_to_set seed_keywords : gset string)))
                  (max_keywords - 1 + Z.of_nat b).
Proof.
  intros Hb.
  destruct (expand_loop_terminates oracle interrupted max_keywords
              (initial_state seed_keywords)) as (fuel & final & Hrun).
  exists fuel, (all_keywords final).
  unfold expand_keywords_recursive. rewrite Hrun. split; [reflexivity|].
  set (bound := Z.max (Z.of_nat (size (list_to_set seed_keywords : gset string)))
                      (max_keywords - 1 + Z.of_nat b)).
  set (P := fun st : expansion_state =>
              list_to_set seed_keywords ⊆ all_keywords st
              /\ Z.of_nat (size (all_keywords st)) <= bound).
  assert (HP : P final).
  { eapply (expand_loop_invariant oracle interrupted max_keywords P P); [ | | | exact Hrun].
    - intros st HP _. exact HP.
    - intros st [Hsub Hsize] Htest.
      assert (P (state_of (loop_body oracle interrupted max_keywords st))) as HP'.
      { split.
        - etransitivity; [exact Hsub|].
          apply (pool_grows_step oracle interrupted max_keywords st Htest).
        - apply (pool_size_step oracle interrupted max_keywords b); auto. subst bound. lia. }
      destruct (loop_body oracle interrupted max_keywords st); exact HP'.
    - split; simpl; [reflexivity | subst bound; lia]. }
  destruct HP as [Hsub Hsize]. split; [|exact Hsize].
  intros seed Hseed. apply Hsub. set_solver.
Qed.

(** C2.  The code at the failing input: with the single seed ["a"], the
    limit 2 and an oracle that relates ["a"] to three keywords, and without
    any interrupt, [expand_keywords_recursive] returns a pool of four
    keywords.  The pool exceeds [max_keywords], which the comment at its
    definition calls the maximum number of related keywords, although the
    seeds are fewer than the limit: the keywords of an answer are added to
    the pool by line 186 without a test, and the test of line 190 guards
    the queue only. *)
Lemma expand_pool_exceeds_limit :
  expand_keywords_recursive example_oracle never_interrupted 2 2 ["a"%string]
    = Some ({["a"; "b"; "c"; "d"]} : gset string)%string
  /\ ~ (Z.of_nat (size ({["a"; "b"; "c"; "d"]} : gset string)%string) <= 2).
Proof.
  split.
  - vm_compute. reflexivity.
  - vm_compute. intros H. apply H. reflexivity.
Qed.

Lemma expand_pool_seeds_and_size_witness :
  exists fuel pool,
    expand_keywords_recursive example_oracle never_interrupted 2 fuel ["a"%string] = Some pool
    /\ (forall seed, seed ∈ ["a"%string] -> seed ∈ pool)
    /\ Z.of_nat (size pool)
         <= Z.max (Z.of_nat (size (list_to_set ["a"%string] : gset string)))
                  (2 - 1 + Z.of_nat 3).
Proof.
  apply (expand_pool_seeds_and_size example_oracle never_interrupted 2 ["a"%string] 3).
  intros n kw. unfold example_oracle.
  destruct (bool_decide (kw = "a"%string)); simpl; lia.
Defined.

(** C4.  For every oracle (its answers are finite lists), every limit and
    every seed list the loop terminates: some number of iterations [fuel]
    yields the final state, and so does every larger number.  The oracle
    calls and the skips of the run together are at most [fuel].  In every
    iteration the processed set only grows, and the dequeued keyword is
    either already processed, and then skipped without a call, or not yet
    processed, and then marked and queried in that iteration; no keyword is
    marked twice. *)
Theorem expansion_terminates
    (oracle : nat -> string -> list string) (interrupted : nat -> bool)
    (max_keywords : Z)
    (seed_keywords : list string) :
  (exists fuel final,
     expand_loop oracle interrupted max_keywords fuel (initial_state seed_keywords)
       = Some final
     /\ (forall fuel', (fuel <= fuel')%nat ->
           expand_loop oracle interrupted max_keywords fuel' (initial_state seed_keywords)
             = Some final)
     /\ (total_processed final + skipped final <= fuel)%nat
     /\ total_processed final = length (oracle_log final)
     /\ processed_keywords final = list_to_set (oracle_log final).*1
     /\ NoDup (oracle_log final).*1)
  /\ (forall st, loop_test max_keywords st = true ->
        let st' := state_of (loop_body oracle interrupted max_keywords st) in
        processed_keywords st ⊆ processed_keywords st'
        /\ exists current seed rest,
             queue st = (current, seed) :: rest
             /\ ((current ∈ processed_keywords st
                  /\ processed_keywords st' = processed_keywords st
                  /\ oracle_log st' = oracle_log st
                  /\ skipped st' = S (skipped st))
                 \/ (current ∉ processed_keywords st
                     /\ processed_keywords st'
                          = {[current]} ∪ processed_keywords st
                     /\ oracle_log st'
                          = (current, oracle (total_processed st) current)
                              :: oracle_log st
                     /\ skipped st' = skipped st))).
Proof.
  split.
  - destruct (expand_loop_terminates oracle interrupted max_keywords
                (initial_state seed_keywords)) as (fuel & final & Hrun).
    exists fuel, final. split; [exact Hrun|].
    split; [intros fuel' Hle; eapply expand_loop_more_fuel; eassumption|].
    split; [apply expand_loop_iterations in Hrun; simpl in Hrun; lia|].
    destruct (expand_loop_log_invariant _ _ _ _ _ _ Hrun) as (Hset & Hnd & Hcnt).
    auto.
  - intros st Htest st'. subst st'.
    split; [apply pool_grows_step, Htest|].
    destruct (loop_body_summary oracle interrupted max_keywords st Htest)
      as (cur & seed & q' & Hq & _ & Hsum).
    cbv zeta in Hsum. exists cur, seed, q'. split; [exact Hq|].
    destruct (decide (cur ∈ processed_keywords st)) as [Hseen|Hfresh].
    + left. destruct Hsum as (_ & Hp & _ & _ & _ & Hl & Hs). auto.
    + right. destruct Hsum as (Hp & _ & _ & _ & Hl & Hs & _). auto.
Qed.

(** C5.  In a run of the expansion no keyword is passed to the oracle more
    than once: the history of the calls of the final state has no keyword
    twice and lists exactly the processed keywords.  A dequeued keyword that
    is already processed causes no call (the history is unchanged), whatever
    path enqueued it; a call is made only for a keyword that is not yet
    processed, and the keyword is in the processed set from that iteration
    on. *)
Theorem oracle_queried_at_most_once
    (oracle : nat -> string -> list string) (interrupted : nat -> bool)
    (max_keywords : Z)
    (seed_keywords : list string) :
  (exists fuel final,
     expand_loop oracle interrupted max_keywords fuel (initial_state seed_keywords)
       = Some final
     /\ NoDup (oracle_log final).*1
     /\ forall kw, kw ∈ (oracle_log final).*1 <-> kw ∈ processed_keywords final)
  /\ (forall st, loop_test max_keywords st = true ->
        let st' := state_of (loop_body oracle interrupted max_keywords st) in
        exists current seed rest,
          queue st = (current, seed) :: rest
          /\ (current ∈ processed_keywords st -> oracle_log st' = oracle_log st)
          /\ (current ∉ processed_keywords st ->
                oracle_log st'
                  = (current, oracle (total_processed st) current)
                      :: oracle_log st
                /\ current ∈ processed_keywords st')).
Proof.
  split.
  - destruct (expand_loop_terminates oracle interrupted max_keywords
                (initial_state seed_keywords)) as (fuel & final & Hrun).
    exists fuel, final. split; [exact Hrun|].
    destruct (expand_loop_log_invariant _ _ _ _ _ _ Hrun) as (Hset & Hnd & _).
    split; [exact Hnd|]. intros kw. rewrite Hset. set_solver.
  - intros st Htest st'. subst st'.
    destruct (loop_body_summary oracle interrupted max_keywords st Htest)
      as (cur & seed & q' & Hq & _ & Hsum).
    cbv zeta in Hsum. exists cur, seed, q'. split; [exact Hq|].
    destruct (decide (cur ∈ processed_keywords st)) as [Hseen|Hfresh].
    + destruct Hsum as (_ & _ & _ & _ & _ & Hl & _).
      split; [auto | contradiction].
    + destruct Hsum as (Hp & _ & _ & _ & Hl & _).
      split; [contradiction|]. intros _. split; [exact Hl|].
      rewrite Hp. set_solver.
Qed.

(** C6.  The loop never goes on past 50 empty answers in a row: at no point
    of the history of the final state are there more than 50 empty answers
    in a row, and the counter is the number of empty answers at the recent
    end of the history.  In an iteration that queries the oracle, an empty
    answer increments the counter, and the iteration breaks out of the loop
    when the counter has reached 50; a non-empty answer sets the counter
    to 0. *)
Theorem empty_answers_trip_breaker
    (oracle : nat -> string -> list string) (interrupted : nat -> bool)
    (max_keywords : Z)
    (seed_keywords : list string) :
  (exists fuel final,
     expand_loop oracle interrupted max_keywords fuel (initial_state seed_keywords)
       = Some final
     /\ consecutive_empty_results final = trailing_empty (oracle_log final)
     /\ consecutive_empty_results final <= 50
     /\ empty_runs_at_most 50 (oracle_log final))
  /\ (forall st, loop_test max_keywords st = true ->
        let st' := state_of (loop_body oracle interrupted max_keywords st) in
        exists current seed rest,
          queue st = (current, seed) :: rest
          /\ (current ∉ processed_keywords st ->
                match oracle (total_processed st) current with
                | [] =>
                    consecutive_empty_results st'
                      = consecutive_empty_results st + 1
                    /\ (50 <= consecutive_empty_results st + 1 ->
                          loop_body oracle interrupted max_keywords st = Stop st')
                | _ :: _ => consecutive_empty_results st' = 0
                end)).
Proof.
  split.
  - destruct (expand_loop_terminates oracle interrupted max_keywords
                (initial_state seed_keywords)) as (fuel & final & Hrun).
    exists fuel, final. split; [exact Hrun|].
    exact (expand_loop_breaker_invariant _ _ _ _ _ _ Hrun).
  - intros st Htest st'. subst st'.
    destruct (loop_body_summary oracle interrupted max_keywords st Htest)
      as (cur & seed & q' & Hq & _ & Hsum).
    cbv zeta in Hsum. exists cur, seed, q'. split; [exact Hq|].
    intros Hfresh.
    destruct (decide (cur ∈ processed_keywords st)) as [Hseen|_];
      [contradiction|].
    destruct Hsum as (_ & _ & _ & _ & _ & _ & Hc & Hstop).
    destruct (oracle (total_processed st) cur) as [|kw answer].
    + split; [exact Hc|]. intros Hge. apply Hstop. exact Hge.
    + exact Hc.
Qed.

(** ** The claims about the volume cells *)

Section AnalysisProofs.

Variable py_int : string -> option Z.

(** The result of [parse_volume] is always an [int] instance. *)
Lemma parse_volume_is_int v :
  (exists z, parse_volume py_int v = PyInt z)
  \/ (exists b, parse_volume py_int v = PyBool b).
Proof.
  destruct v as [| b | z | q | str |]; simpl; eauto.
  destruct (startswith_lt str); [eauto|].
  destruct (py_int str); eauto.
Qed.

Lemma keyword_metrics_fields pc_cell mobile_cell blog_count m :
  keyword_metrics py_int pc_cell mobile_cell blog_count = Some m ->
  let total := int_value (parse_volume py_int pc_cell)
               + int_value (parse_volume py_int mobile_cell) in
  m !! "pc_search_volume"%string = Some (parse_volume py_int pc_cell)
  /\ m !! "mobile_search_volume"%string = Some (parse_volume py_int mobile_cell)
  /\ m !! "total_search_volume"%string = Some (PyInt total)
  /\ m !! "blog_count"%string = Some (PyInt blog_count)
  /\ m !! "competition_ratio"%string = competition_ratio blog_count total.
Proof.
  unfold keyword_metrics. intros Hm. cbv zeta.
  destruct (competition_ratio blog_count _) as [ratio|]; [|discriminate].
  simpl in Hm. injection Hm as <-.
  repeat split; reflexivity.
Qed.

End AnalysisProofs.

(** C8.  A volume cell written in the less-than notation (a string that
    begins with ['<'], such as ["< 10"]) is normalised to the integer 5,
    whatever [int] would make of the string, and it is this 5 that is stored
    as the volume and that enters the total volume, from which the ratio is
    computed. *)
Theorem less_than_sentinel_is_five
    (py_int : string -> option Z) (rest : string)
    (other_cell : pyval) (blog_count : Z) (m : gmap string pyval) :
  keyword_metrics py_int (PyStr (String "<" rest)) other_cell blog_count
    = Some m ->
  let other := int_value (parse_volume py_int other_cell) in
  parse_volume py_int (PyStr (String "<" rest)) = PyInt 5
  /\ m !! "pc_search_volume"%string = Some (PyInt 5)
  /\ m !! "total_search_volume"%string = Some (PyInt (5 + other))
  /\ m !! "competition_ratio"%string = competition_ratio blog_count (5 + other).
Proof.
  intros Hm other.
  destruct (keyword_metrics_fields py_int _ _ _ _ Hm)
    as (Hpc & _ & Htotal & _ & Hratio).
  split; [reflexivity|]. auto.
Qed.

Lemma less_than_sentinel_is_five_witness :
  keyword_metrics py_int_ascii (PyStr "< 10") (PyStr "30") 7
    = Some example_sentinel_metrics
  /\ parse_volume py_int_ascii (PyStr "< 10") = PyInt 5
  /\ example_sentinel_metrics !! "pc_search_volume"%string = Some (PyInt 5)
  /\ example_sentinel_metrics !! "total_search_volume"%string
       = Some (PyInt 35)
  /\ example_sentinel_metrics !! "competition_ratio"%string
       = competition_ratio 7 35.
Proof.
  assert (Hratio : competition_ratio 7 35
                   = Some (PyFloat (3602879701896397 # 18014398509481984)))
    by (vm_compute; reflexivity).
  assert (Hm : keyword_metrics py_int_ascii (PyStr "< 10") (PyStr "30") 7
               = Some example_sentinel_metrics).
  { unfold keyword_metrics.
    change (parse_volume py_int_ascii (PyStr "< 10")) with (PyInt 5).
    change (parse_volume py_int_ascii (PyStr "30")) with (PyInt 30).
    change (int_value (PyInt 5) + int_value (PyInt 30)) with 35.
    rewrite Hratio. reflexivity. }
  split; [exact Hm|].
  exact (less_than_sentinel_is_five py_int_ascii " 10" (PyStr "30") 7
           example_sentinel_metrics Hm).
Defined.

(** ['<'] is the first character of a string exactly when the string is
    ['<'] followed by the rest. *)
Lemma startswith_lt_spec (str : string) :
  startswith_lt str = true <-> exists rest, str = String "<" rest.
Proof.
  destruct str as [|c rest]; simpl.
  - split; [discriminate|]. intros [? H]. discriminate.
  - rewrite bool_decide_eq_true. split.
    + intros ->. eauto.
    + intros [rest' H]. congruence.
Qed.

(** C10.  [parse_volume] never raises and is total: on every value it
    returns, although [int] may raise inside it, and what it returns is an
    [int] instance.  An [int] (a [bool] included, being an [int] instance)
    is returned unchanged; a string that is ['<'] followed by anything gives
    5; any other string gives the integer it parses to, or 0 when [int]
    raises; and a value of any other type gives 0.  The pure function
    [parse_volume] of the analysis is this result. *)
Theorem parse_volume_total (py_int : string -> option Z) (v : pyval) :
  exists r,
    parse_volume_steps py_int v = Returns r
    /\ parse_volume py_int v = r
    /\ ((exists z, r = PyInt z) \/ (exists b, r = PyBool b))
    /\ (forall z, v = PyInt z -> r = PyInt z)
    /\ (forall b, v = PyBool b -> r = PyBool b)
    /\ (forall rest, v = PyStr (String "<" rest) -> r = PyInt 5)
    /\ (forall str z, v = PyStr str -> (forall rest, str <> String "<" rest) ->
         py_int str = Some z -> r = PyInt z)
    /\ (forall str, v = PyStr str -> (forall rest, str <> String "<" rest) ->
         py_int str = None -> r = PyInt 0)
    /\ ((forall z, v <> PyInt z) -> (forall b, v <> PyBool b) ->
        (forall str, v <> PyStr str) -> r = PyInt 0).
Proof.
  exists (parse_volume py_int v).
  split.
  { destruct v as [| b | z | q | str |]; simpl; try reflexivity.
    destruct (startswith_lt str); [reflexivity|].
    unfold int_call. destruct (py_int str); reflexivity. }
  split; [reflexivity|]. split; [apply parse_volume_is_int|].
  split; [intros z ->; reflexivity|].
  split; [intros b ->; reflexivity|].
  split; [intros rest ->; reflexivity|].
  assert (Hother : forall str, (forall rest, str <> String "<" rest) ->
            startswith_lt str = false).
  { intros str Hne. destruct (startswith_lt str) eqn:Hlt; [|reflexivity].
    apply startswith_lt_spec in Hlt as [rest ->].
    exfalso. exact (Hne rest eq_refl). }
  split.
  { intros str z -> Hne Hint. simpl. rewrite (Hother str Hne), Hint.
    reflexivity. }
  split.
  { intros str -> Hne Hint. simpl. rewrite (Hother str Hne), Hint.
    reflexivity. }
  intros Hint Hbool Hstr.
  destruct v as [| b | z | q | str |]; try reflexivity.
  - exfalso. exact (Hbool b eq_refl).
  - exfalso. exact (Hint z eq_refl).
  - exfalso. exact (Hstr str eq_refl).
Qed.

(** ** The target-stage filters and the shared metrics objects *)

Section FilterProofs.

Variable config : blog_stages_config.
Variable target_stages : list Z.

Lemma dict_get_set_eq k v d : dict_get k (dict_set k v d) = Some v.
Proof.
  induction d as [|[k' v'] d IH]; simpl.
  - rewrite decide_True by reflexivity. reflexivity.
  - destruct (decide (k' = k)) as [->|Hne]; simpl.
    + rewrite decide_True by reflexivity. reflexivity.
    + rewrite decide_False by assumption. exact IH.
Qed.

Lemma dict_get_set_ne k k' v d :
  k <> k' -> dict_get k (dict_set k' v d) = dict_get k d.
Proof.
  intros Hne. induction d as [|[k0 v0] d IH]; simpl.
  - rewrite decide_False by congruence. reflexivity.
  - destruct (decide (k0 = k')) as [->|Hne']; simpl.
    + rewrite !decide_False by congruence. reflexivity.
    + destruct (decide (k0 = k)); [reflexivity | exact IH].
Qed.

Lemma dict_get_elem_of k v (d : keyword_dict) :
  NoDup d.*1 -> (k, v) ∈ d -> dict_get k d = Some v.
Proof.
  induction d as [|[k0 v0] d IH]; simpl; intros Hnd Hin.
  - inversion Hin.
  - apply NoDup_cons in Hnd as [Hfresh Hnd].
    apply elem_of_cons in Hin as [[= -> ->]|Hin].
    + rewrite decide_True by reflexivity. reflexivity.
    + destruct (decide (k0 = k)) as [->|Hne]; [|auto].
      exfalso. apply Hfresh. apply list_elem_of_fmap. exists (k, v). auto.
Qed.

(** Writing the stage does not change the stage that is computed. *)
Lemma metrics_stage_marked stage obj :
  metrics_stage config (<["stage"%string := stage]> obj)
    = metrics_stage config obj.
Proof.
  unfold metrics_stage. rewrite !lookup_insert_ne by discriminate. reflexivity.
Qed.

(** The two loops are the same function: the reference read back from
    [filtered_result[keyword]] is the one just stored. *)
Lemma target_stages_loop_auto items heap result :
  target_stages_loop config target_stages items heap result
    = auto_mode_loop config target_stages items heap result.
Proof.
  revert heap result. induction items as [|[kw r] items IH]; intros heap result;
    simpl; [reflexivity|].
  destruct (heap !! r) as [obj|] eqn:Hobj; simpl; [|reflexivity].
  destruct (metrics_stage config obj) as [st|]; simpl; [|reflexivity].
  destruct (bool_decide (st ∈ target_stages)); [|apply IH].
  rewrite dict_get_set_eq. simpl. rewrite Hobj. simpl. apply IH.
Qed.

(** Every object is either left as it was or has got its own stage. *)
Lemma auto_mode_loop_heap items heap result heap' result' :
  auto_mode_loop config target_stages items heap result = Some (heap', result') ->
  forall r,
    heap' !! r = heap !! r
    \/ exists obj st, heap !! r = Some obj
         /\ metrics_stage config obj = Some st
         /\ heap' !! r = Some (<["stage"%string := PyInt st]> obj).
Proof.
  revert heap result. induction items as [|[kw r0] items IH];
    intros heap result Hrun r; simpl in Hrun.
  - injection Hrun as <- <-. left. reflexivity.
  - destruct (heap !! r0) as [obj|] eqn:Hobj; simpl in Hrun; [|discriminate].
    destruct (metrics_stage config obj) as [st|] eqn:Hst; simpl in Hrun;
      [|discriminate].
    destruct (bool_decide (st ∈ target_stages)); [|eapply IH; eassumption].
    destruct (IH _ _ Hrun r) as [Hsame|(obj' & st' & Hobj' & Hst' & Hmark)].
    + destruct (decide (r = r0)) as [->|Hne].
      * right. exists obj, st. rewrite Hsame, lookup_insert_eq. auto.
      * left. rewrite Hsame, lookup_insert_ne by congruence. reflexivity.
    + destruct (decide (r = r0)) as [->|Hne].
      * rewrite lookup_insert_eq in Hobj'. injection Hobj' as <-.
        rewrite metrics_stage_marked in Hst'.
        assert (st' = st) as -> by congruence.
        right. exists obj, st. rewrite Hmark, insert_insert_eq. auto.
      * rewrite lookup_insert_ne in Hobj' by congruence.
        right. exists obj', st'. auto.
Qed.

(** An entry of the result is not touched by items with other keywords. *)
Lemma auto_mode_loop_keeps_entry items heap result heap' result' kw r :
  kw ∉ items.*1 ->
  dict_get kw result = Some r ->
  auto_mode_loop config target_stages items heap result = Some (heap', result') ->
  dict_get kw result' = Some r.
Proof.
  revert heap result. induction items as [|[kw1 r1] items IH];
    intros heap result Hfresh Hget Hrun; simpl in Hrun.
  - injection Hrun as <- <-. exact Hget.
  - destruct (heap !! r1) as [o1|]; simpl in Hrun; [|discriminate].
    destruct (metrics_stage config o1) as [s1|]; simpl in Hrun; [|discriminate].
    assert (kw <> kw1) by (intros ->; apply Hfresh; simpl; left).
    assert (kw ∉ items.*1) by (intros ?; apply Hfresh; simpl; right; auto).
    destruct (bool_decide (s1 ∈ target_stages)).
    + eapply IH; [assumption | | exact Hrun].
      rewrite dict_get_set_ne by assumption. exact Hget.
    + eapply IH; eassumption.
Qed.

(** A keyword of the input whose stage is a target stage ends up in the
    result under the very reference the input holds, and the object behind
    that reference has got the stage. *)
Lemma auto_mode_loop_marks items heap result heap' result' kw r obj st :
  NoDup items.*1 ->
  auto_mode_loop config target_stages items heap result = Some (heap', result') ->
  (kw, r) ∈ items ->
  heap !! r = Some obj ->
  metrics_stage config obj = Some st ->
  st ∈ target_stages ->
  dict_get kw result' = Some r
  /\ heap' !! r = Some (<["stage"%string := PyInt st]> obj).
Proof.
  revert heap result obj. induction items as [|[kw0 r0] items IH];
    intros heap result obj Hnd Hrun Hin Hobj Hst Htarget.
  - inversion Hin.
  - simpl in Hnd. apply NoDup_cons in Hnd as [Hfresh Hnd].
    simpl in Hrun.
    destruct (heap !! r0) as [obj0|] eqn:Hobj0; simpl in Hrun; [|discriminate].
    destruct (metrics_stage config obj0) as [st0|] eqn:Hst0; simpl in Hrun;
      [|discriminate].
    apply elem_of_cons in Hin as [[= -> ->]|Hin].
    + (* the item at hand *)
      assert (obj0 = obj) as -> by congruence.
      assert (st0 = st) as -> by congruence.
      rewrite bool_decide_eq_true_2 in Hrun by assumption.
      split.
      * eapply auto_mode_loop_keeps_entry; [exact Hfresh | | exact Hrun].
        apply dict_get_set_eq.
      * destruct (auto_mode_loop_heap _ _ _ _ _ Hrun r0)
          as [Hsame|(obj' & st' & Hobj' & Hst' & Hmark)].
        -- rewrite Hsame, lookup_insert_eq. reflexivity.
        -- rewrite lookup_insert_eq in Hobj'. injection Hobj' as <-.
           rewrite metrics_stage_marked in Hst'.
           assert (st' = st) as -> by congruence.
           rewrite Hmark, insert_insert_eq. reflexivity.
    + (* a later item *)
      destruct (bool_decide (st0 ∈ target_stages)).
      * destruct (decide (r = r0)) as [->|Hne].
        -- assert (obj0 = obj) as -> by congruence.
           assert (st0 = st) as -> by congruence.
           destruct (IH _ _ (<["stage"%string := PyInt st]> obj) Hnd Hrun Hin)
             as [Hget Hheap]; auto.
           ++ apply lookup_insert_eq.
           ++ rewrite metrics_stage_marked. assumption.
           ++ split; [exact Hget|]. rewrite Hheap, insert_insert_eq. reflexivity.
        -- eapply IH; eauto. rewrite lookup_insert_ne by congruence. assumption.
      * eapply IH; eauto.
Qed.

(** The loop returns when the classifier can read every object. *)
Lemma auto_mode_loop_returns items heap result :
  (forall kw r, (kw, r) ∈ items ->
     exists obj st, heap !! r = Some obj
       /\ metrics_stage config obj = Some st) ->
  exists heap' result',
    auto_mode_loop config target_stages items heap result
      = Some (heap', result').
Proof.
  revert heap result. induction items as [|[kw r] items IH];
    intros heap result Hall; simpl; [eauto|].
  destruct (Hall kw r) as (obj & st & Hobj & Hst);
    [apply elem_of_cons; left; reflexivity|].
  rewrite Hobj. simpl. rewrite Hst. simpl.
  destruct (bool_decide (st ∈ target_stages)).
  - apply IH. intros kw' r' Hin.
    destruct (Hall kw' r') as (obj' & st' & Hobj' & Hst');
      [apply elem_of_cons; right; exact Hin|].
    destruct (decide (r' = r)) as [->|Hne].
    + rewrite lookup_insert_eq.
      exists (<["stage"%string := PyInt st]> obj), st.
      split; [reflexivity|]. rewrite metrics_stage_marked. exact Hst.
    + rewrite lookup_insert_ne by congruence. eauto.
  - apply IH. intros kw' r' Hin. apply (Hall kw' r'). apply elem_of_cons.
    right. exact Hin.
Qed.

End FilterProofs.

(** C9, as the code has it.  With the stage table loaded, both
    [filter_keywords_by_target_stages] and [filter_keywords_auto_mode]
    return, and they mutate their input: for a keyword of the input mapping
    whose stage is one of the target stages, the mapping returned holds the
    same reference as the input mapping, and the object behind it has
    received the key ['stage']; so the input mapping, read after the call,
    shows the stage too, and it differs from what it showed before when the
    object had no ['stage'].  Without the stage table nothing is mutated:
    [filter_keywords_by_target_stages] returns the empty mapping and
    [filter_keywords_auto_mode] returns the input mapping itself.  The
    hypotheses say that the keys of the mapping are distinct, as those of a
    dict are, and that every metrics object has the two cells the classifier
    reads. *)
Theorem filter_marks_input_metrics
    (config : blog_stages_config) (heap : store)
    (analysis_result : keyword_dict) (target_stages : option (list Z)) :
  NoDup analysis_result.*1 ->
  (forall kw r, (kw, r) ∈ analysis_result ->
     exists obj st, heap !! r = Some obj
       /\ metrics_stage config obj = Some st) ->
  (is_Some (config !! "blog_stages"%string) ->
     exists heap' result,
       filter_keywords_by_target_stages config heap analysis_result
         target_stages = Some (heap', result)
       /\ filter_keywords_auto_mode config heap analysis_result target_stages
            = Some (heap', result)
       /\ forall keyword r obj st,
            (keyword, r) ∈ analysis_result ->
            heap !! r = Some obj ->
            metrics_stage config obj = Some st ->
            st ∈ default TARGET_STAGES target_stages ->
            dict_get keyword analysis_result = Some r
            /\ dict_get keyword result = Some r
            /\ heap' !! r = Some (<["stage"%string := PyInt st]> obj)
            /\ read_metrics heap' analysis_result keyword
                 ≫= (.!! "stage"%string) = Some (PyInt st)
            /\ (obj !! "stage"%string = None ->
                  read_metrics heap' analysis_result keyword
                    <> read_metrics heap analysis_result keyword))
  /\ (config !! "blog_stages"%string = None ->
        filter_keywords_by_target_stages config heap analysis_result
          target_stages = Some (heap, [])
        /\ filter_keywords_auto_mode config heap analysis_result target_stages
             = Some (heap, analysis_result)).
Proof.
  intros Hnd Hall. split.
  - intros [stages Hcfg].
    destruct (auto_mode_loop_returns config
                (default TARGET_STAGES target_stages) analysis_result heap []
                Hall) as (heap' & result & Hloop).
    exists heap', result.
    split.
    { unfold filter_keywords_by_target_stages. rewrite Hcfg.
      rewrite target_stages_loop_auto. exact Hloop. }
    split.
    { unfold filter_keywords_auto_mode. rewrite Hcfg. exact Hloop. }
    intros keyword r obj st Hin Hobj Hst Htarget.
    destruct (auto_mode_loop_marks _ _ _ _ _ _ _ _ _ _ _ Hnd Hloop Hin Hobj
                Hst Htarget) as [Hget Hheap].
    pose proof (dict_get_elem_of _ _ _ Hnd Hin) as Hinput.
    split; [exact Hinput|]. split; [exact Hget|]. split; [exact Hheap|].
    unfold read_metrics. rewrite Hinput. simpl. rewrite Hheap, Hobj. simpl.
    split; [apply lookup_insert_eq|].
    intros Hnone Heq. injection Heq as Heq.
    assert (Hl : (<["stage"%string := PyInt st]> obj) !! "stage"%string
                 = obj !! "stage"%string) by (rewrite Heq; reflexivity).
    rewrite lookup_insert_eq, Hnone in Hl. discriminate.
  - intros Hcfg.
    unfold filter_keywords_by_target_stages, filter_keywords_auto_mode.
    rewrite Hcfg. split; reflexivity.
Qed.

(** C9, refuted as stated.  Without the stage table
    [filter_keywords_auto_mode] returns every keyword of its input, under
    the references of the input, and adds no ['stage']: the keyword ["game"]
    is in the mapping returned, and its metrics carry no stage after the
    call. *)
Lemma auto_mode_without_table_adds_no_stage :
  filter_keywords_auto_mode ∅ example_heap example_analysis_result None
    = Some (example_heap, example_analysis_result)
  /\ dict_get "game" example_analysis_result = Some 1%positive
  /\ read_metrics example_heap example_analysis_result "game"
       ≫= (.!! "stage"%string) = None.
Proof.
  split; [reflexivity|]. split; [reflexivity|].
  unfold read_metrics.
  change (dict_get "game" example_analysis_result) with (Some 1%positive).
  cbn [mbind option_bind]. unfold example_heap.
  rewrite lookup_insert_eq. cbn [mbind option_bind].
  unfold example_metrics.
  rewrite !lookup_insert_ne by discriminate. apply lookup_empty.
Qed.

Lemma example_target_filter_run :
  filter_keywords_by_target_stages example_config example_heap
    example_analysis_result None
  = Some (example_heap_after, example_filtered).
Proof.
  assert (Hgame : metrics_stage example_config (example_metrics 5 50) = Some 1)
    by (vm_compute; reflexivity).
  assert (Hrpg : metrics_stage example_config (example_metrics 5000 40)
                 = Some 0)
    by (vm_compute; reflexivity).
  unfold filter_keywords_by_target_stages.
  change (example_config !! "blog_stages"%string)
    with (Some example_blog_stages).
  unfold example_analysis_result, target_stages_loop.
  change (example_heap !! 1%positive) with (Some (example_metrics 5 50)).
  cbn [mbind option_bind]. rewrite Hgame. cbn [mbind option_bind].
  rewrite bool_decide_eq_true_2
    by (apply elem_of_cons; left; reflexivity).
  change (dict_get "game" (dict_set "game" 1%positive []))
    with (Some 1%positive).
  cbn [mbind option_bind].
  change (example_heap !! 1%positive) with (Some (example_metrics 5 50)).
  cbn [mbind option_bind].
  change ((<[1%positive := <["stage"%string := PyInt 1]>
              (example_metrics 5 50)]> example_heap) !! 2%positive)
    with (Some (example_metrics 5000 40)).
  cbn [mbind option_bind]. rewrite Hrpg. cbn [mbind option_bind].
  rewrite bool_decide_eq_false_2; [reflexivity|].
  unfold TARGET_STAGES. simpl.
  intros Hin. repeat (apply elem_of_cons in Hin as [Hin|Hin]; [discriminate|]).
  inversion Hin.
Qed.

Lemma filter_marks_input_metrics_witness :
  filter_keywords_by_target_stages example_config example_heap
    example_analysis_result None
    = Some (example_heap_after, example_filtered)
  /\ filter_keywords_auto_mode example_config example_heap
       example_analysis_result None
       = Some (example_heap_after, example_filtered)
  /\ dict_get "game" example_analysis_result = Some 1%positive
  /\ dict_get "game" example_filtered = Some 1%positive
  /\ example_heap_after !! 1%positive
       = Some (<["stage"%string := PyInt 1]> (example_metrics 5 50))
  /\ read_metrics example_heap_after example_analysis_result "game"
       ≫= (.!! "stage"%string) = Some (PyInt 1)
  /\ (example_metrics 5 50 !! "stage"%string = None ->
        read_metrics example_heap_after example_analysis_result "game"
          <> read_metrics example_heap example_analysis_result "game").
Proof.
  assert (Hgame : metrics_stage example_config (example_metrics 5 50) = Some 1)
    by (vm_compute; reflexivity).
  assert (Hrpg : metrics_stage example_config (example_metrics 5000 40)
                 = Some 0)
    by (vm_compute; reflexivity).
  assert (Hnd : NoDup example_analysis_result.*1).
  { apply (NoDup_cons_2 "game"%string ["rpg"%string]).
    - intros [Heq|Hin]%elem_of_cons; [discriminate | inversion Hin].
    - apply NoDup_singleton. }
  assert (Hall : forall kw r, (kw, r) ∈ example_analysis_result ->
            exists obj st, example_heap !! r = Some obj
              /\ metrics_stage example_config obj = Some st).
  { intros kw r Hin. apply elem_of_cons in Hin as [[= -> ->]|Hin].
    - exists (example_metrics 5 50), 1. split; [reflexivity|exact Hgame].
    - apply list_elem_of_singleton in Hin as [= -> ->].
      exists (example_metrics 5000 40), 0. split; [reflexivity|exact Hrpg]. }
  destruct (filter_marks_input_metrics example_config example_heap
              example_analysis_result None Hnd Hall) as [Hloaded _].
  destruct Hloaded as (heap' & result & Htarget & Hauto & Hmarks).
  { exists example_blog_stages. reflexivity. }
  rewrite example_target_filter_run in Htarget.
  injection Htarget as <- <-.
  split; [exact example_target_filter_run|]. split; [exact Hauto|].
  apply (Hmarks "game"%string 1%positive (example_metrics 5 50) 1).
  - apply elem_of_cons. left. reflexivity.
  - reflexivity.
  - exact Hgame.
  - apply elem_of_cons. left. reflexivity.
Defined.

(** ** The merge into the result table *)

Section MergeProofs.

Lemma insert_row_perm r rows : insert_row r rows ≡ₚ r :: rows.
Proof.
  induction rows as [|r' rows IH]; simpl; [reflexivity|].
  destruct (ratio_leb (row_ratio r) (row_ratio r')); [reflexivity|].
  etransitivity; [apply perm_skip, IH | apply perm_swap].
Qed.

Lemma sort_values_perm rows : sort_values rows ≡ₚ rows.
Proof.
  induction rows as [|r rows IH]; simpl; [reflexivity|].
  etransitivity; [apply insert_row_perm | apply perm_skip, IH].
Qed.

Lemma ratio_leb_total a b : ratio_leb a b = false -> ratio_leb b a = true.
Proof.
  destruct a as [x|], b as [y|]; simpl; try discriminate; try reflexivity.
  intros Hxy. apply Qle_bool_iff.
  destruct (Qlt_le_dec y x) as [Hlt|Hle].
  - apply Qlt_le_weak, Hlt.
  - apply Qle_bool_iff in Hle. congruence.
Qed.

Lemma insert_row_sorted r rows :
  Sorted ratio_le rows -> Sorted ratio_le (insert_row r rows).
Proof.
  induction 1 as [|r' rows Hsorted IH Hhd]; simpl.
  - repeat constructor.
  - destruct (ratio_leb (row_ratio r) (row_ratio r')) eqn:Hle.
    + constructor; [constructor; assumption|]. constructor. exact Hle.
    + constructor; [exact IH|].
      apply ratio_leb_total in Hle.
      destruct Hhd as [|r'' rows' Hle']; simpl.
      * constructor. exact Hle.
      * destruct (ratio_leb (row_ratio r) (row_ratio r''));
          constructor; assumption.
Qed.

Lemma sort_values_sorted rows : Sorted ratio_le (sort_values rows).
Proof.
  induction rows as [|r rows IH]; simpl; [constructor|].
  apply insert_row_sorted, IH.
Qed.

(** What [drop_duplicates] keeps of a table followed by rows with distinct
    keywords. *)
Lemma drop_duplicates_last_elem_of r older newer :
  r ∈ drop_duplicates_last (older ++ newer) ->
  r ∈ drop_duplicates_last newer
  \/ (r ∈ older /\ row_keyword r ∉ row_keyword <$> newer).
Proof.
  induction older as [|a older IH]; simpl; [auto|].
  destruct (bool_decide _) eqn:Hdup.
  - intros Hin. destruct (IH Hin) as [?|[? ?]]; [auto|].
    right. split; [apply elem_of_cons|]; auto.
  - apply bool_decide_eq_false in Hdup.
    intros [->|Hin]%elem_of_cons.
    + right. split; [apply elem_of_cons; auto|].
      intros Hin. apply Hdup. rewrite fmap_app. apply elem_of_app. auto.
    + destruct (IH Hin) as [?|[? ?]]; [auto|].
      right. split; [apply elem_of_cons|]; auto.
Qed.

Lemma drop_duplicates_last_subset r rows :
  r ∈ drop_duplicates_last rows -> r ∈ rows.
Proof.
  induction rows as [|a rows IH]; simpl; [auto|].
  destruct (bool_decide _).
  - intros Hin. apply elem_of_cons. auto.
  - intros [->|Hin]%elem_of_cons; apply elem_of_cons; auto.
Qed.

Lemma drop_duplicates_last_nodup rows :
  NoDup (row_keyword <$> drop_duplicates_last rows).
Proof.
  induction rows as [|a rows IH]; simpl; [constructor|].
  destruct (bool_decide _) eqn:Hdup; [exact IH|].
  apply bool_decide_eq_false in Hdup. simpl. constructor; [|exact IH].
  intros Hin. apply Hdup.
  apply list_elem_of_fmap in Hin as (r & Hkey & Hin).
  apply list_elem_of_fmap. exists r. split; [exact Hkey|].
  apply drop_duplicates_last_subset, Hin.
Qed.

Lemma drop_duplicates_last_id rows :
  NoDup (row_keyword <$> rows) -> drop_duplicates_last rows = rows.
Proof.
  induction rows as [|a rows IH]; simpl; [reflexivity|].
  intros [Hfresh Hnd]%NoDup_cons.
  rewrite bool_decide_eq_false_2 by assumption. rewrite IH by assumption.
  reflexivity.
Qed.

Lemma drop_duplicates_last_newer r older newer :
  NoDup (row_keyword <$> newer) ->
  r ∈ newer -> r ∈ drop_duplicates_last (older ++ newer).
Proof.
  intros Hnd Hin. induction older as [|a older IH]; simpl.
  - rewrite drop_duplicates_last_id by assumption. exact Hin.
  - destruct (bool_decide _); [exact IH|]. apply elem_of_cons. auto.
Qed.

Lemma drop_duplicates_last_older r older newer :
  NoDup (row_keyword <$> older) ->
  r ∈ older -> row_keyword r ∉ row_keyword <$> newer ->
  r ∈ drop_duplicates_last (older ++ newer).
Proof.
  intros Hnd Hin Hfresh. induction older as [|a older IH]; simpl.
  - inversion Hin.
  - simpl in Hnd. apply NoDup_cons in Hnd as [Ha Hnd].
    apply elem_of_cons in Hin as [->|Hin].
    + rewrite bool_decide_eq_false_2; [apply elem_of_cons; auto|].
      rewrite fmap_app. intros [?|?]%elem_of_app; contradiction.
    + specialize (IH Hnd Hin).
      destruct (bool_decide _); [exact IH|]. apply elem_of_cons. auto.
Qed.

(** The rows made of the incoming mapping carry its keywords, in order. *)
Lemma new_row_keyword item r : new_row item = Some r -> row_keyword r = item.1.
Proof.
  destruct item as [keyword stats]. unfold new_row. intros Hrow.
  repeat match type of Hrow with
         | context [?o ≫= _] => destruct o; simpl in Hrow; [|discriminate]
         end.
  injection Hrow as <-. reflexivity.
Qed.

Lemma new_data_keywords analysis_result new_data :
  mapM new_row analysis_result = Some new_data ->
  row_keyword <$> new_data = analysis_result.*1.
Proof.
  rewrite mapM_Some. induction 1 as [|item r items rows Hrow _ IH].
  - reflexivity.
  - rewrite !fmap_cons, IH. f_equal. apply new_row_keyword, Hrow.
Qed.

Lemma new_data_rows analysis_result new_data :
  mapM new_row analysis_result = Some new_data ->
  (forall item, item ∈ analysis_result ->
     exists r, new_row item = Some r /\ r ∈ new_data)
  /\ (forall r, r ∈ new_data ->
        exists item, item ∈ analysis_result /\ new_row item = Some r).
Proof.
  rewrite mapM_Some. induction 1 as [|item r items rows Hrow _ [IH1 IH2]].
  - split; intros ? Hin; inversion Hin.
  - split.
    + intros item' [->|Hin]%elem_of_cons.
      * exists r. split; [exact Hrow | apply elem_of_cons; auto].
      * destruct (IH1 _ Hin) as (r' & ? & ?). exists r'.
        split; [assumption | apply elem_of_cons; auto].
    + intros r' [->|Hin]%elem_of_cons.
      * exists item. split; [apply elem_of_cons; auto | exact Hrow].
      * destruct (IH2 _ Hin) as (item' & ? & ?). exists item'.
        split; [apply elem_of_cons; auto | assumption].
Qed.

(** In a table with distinct keywords a keyword names one row. *)
Lemma distinct_keywords_same_row (rows : list row) r1 r2 :
  NoDup (row_keyword <$> rows) ->
  r1 ∈ rows -> r2 ∈ rows -> row_keyword r1 = row_keyword r2 -> r1 = r2.
Proof.
  induction rows as [|a rows IH]; intros Hnd H1 H2 Hkey.
  - inversion H1.
  - rewrite fmap_cons in Hnd. apply NoDup_cons in Hnd as [Hfresh Hnd].
    apply elem_of_cons in H1 as [->|H1]; apply elem_of_cons in H2 as [->|H2].
    + reflexivity.
    + exfalso. apply Hfresh. rewrite Hkey. apply list_elem_of_fmap. eauto.
    + exfalso. apply Hfresh. rewrite <- Hkey. apply list_elem_of_fmap. eauto.
    + auto.
Qed.

(** Of the rows of one keyword one survives, and a row that is the only
    one of its keyword survives itself. *)
Lemma drop_duplicates_last_keys k rows :
  k ∈ row_keyword <$> rows -> k ∈ row_keyword <$> drop_duplicates_last rows.
Proof.
  induction rows as [|a rows IH]; simpl; [auto|].
  intros Hin. apply elem_of_cons in Hin as [->|Hin].
  - destruct (bool_decide _) eqn:Hdup.
    + apply bool_decide_eq_true in Hdup. auto.
    + rewrite fmap_cons. apply elem_of_cons. auto.
  - destruct (bool_decide _); [auto|].
    rewrite fmap_cons. apply elem_of_cons. auto.
Qed.

Lemma drop_duplicates_last_only r older newer :
  r ∈ older -> row_keyword r ∉ row_keyword <$> newer ->
  (forall r', r' ∈ older -> row_keyword r' = row_keyword r -> r' = r) ->
  r ∈ drop_duplicates_last (older ++ newer).
Proof.
  intros Hin Hfresh. induction older as [|a older IH]; intros Honly; simpl.
  - inversion Hin.
  - assert (Hrest : r ∈ older -> r ∈ drop_duplicates_last (older ++ newer)).
    { intros Hr. apply IH; [exact Hr|].
      intros r' Hr' Hkey. apply Honly; [|exact Hkey].
      apply elem_of_cons. auto. }
    destruct (bool_decide _) eqn:Hdup.
    + apply bool_decide_eq_true in Hdup.
      apply elem_of_cons in Hin as [->|Hin]; [|auto].
      rewrite fmap_app in Hdup. apply elem_of_app in Hdup as [Hdup|Hdup];
        [|contradiction].
      apply list_elem_of_fmap in Hdup as (r' & Hkey & Hr').
      assert (r' = a) as ->.
      { apply Honly; [apply elem_of_cons; auto|]. symmetry. exact Hkey. }
      auto.
    + apply elem_of_cons in Hin as [->|Hin]; apply elem_of_cons; auto.
Qed.

(** The rows that the code lets take part are those of [takes_part]. *)
Lemma existing_rows_takes_part MODE existing_df r :
  r ∈ existing_rows MODE existing_df <-> takes_part MODE existing_df r.
Proof.
  unfold existing_rows, takes_part.
  destruct MODE; try (split; [intros H; split; [exact H|discriminate]|tauto]).
  destruct (has_stage_column existing_df).
  - rewrite list_elem_of_filter. unfold staged.
    destruct (row_stage r) as [z|].
    + rewrite Z.ltb_lt. split.
      * intros [Hz Hin]. split; [exact Hin|]. intros _ _. eauto.
      * intros [Hin Hz]. destruct (Hz eq_refl eq_refl) as (z' & [= <-] & Hpos).
        auto.
    + split; [intros [H _]; discriminate|].
      intros [_ Hz]. destruct (Hz eq_refl eq_refl) as (z' & H & _).
      discriminate.
  - split; [intros H; split; [exact H|discriminate]|tauto].
Qed.

End MergeProofs.

(** C7, as the code has it.  Merging the incoming mapping into an existing
    table writes a table with one row per keyword in which every incoming
    keyword has exactly its incoming row (a stored row of the same keyword
    is replaced), and which besides the incoming rows holds only existing
    rows that take part in the merge and whose keyword is not incoming: of
    the rows of such a keyword one is kept, and a row that is the only one
    of its keyword is kept itself.  The table written is the whole table,
    sorted by ascending ratio (empty ratio cells last).  Every existing row
    takes part in the merge, except that in [AUTO] mode, when the table has
    a stage column, a row takes part only when its stage is a number above
    0: a row whose stage is 0 or empty is dropped before the merge.  The
    keys of the incoming mapping are distinct, as those of a dict are. *)
Theorem merge_last_write_wins
    (MODE : mode) (existing_df : dataframe)
    (analysis_result : list (string * gmap string pyval)) (table : list row) :
  NoDup analysis_result.*1 ->
  save_to_excel MODE (Some existing_df) analysis_result = Some table ->
  NoDup (row_keyword <$> table)
  /\ (forall item, item ∈ analysis_result ->
        exists r, new_row item = Some r /\ r ∈ table
          /\ forall r', r' ∈ table -> row_keyword r' = item.1 -> r' = r)
  /\ (forall r, takes_part MODE existing_df r ->
        row_keyword r ∉ analysis_result.*1 ->
        (exists r', r' ∈ table /\ row_keyword r' = row_keyword r
           /\ takes_part MODE existing_df r')
        /\ ((forall r', takes_part MODE existing_df r' ->
               row_keyword r' = row_keyword r -> r' = r) ->
            r ∈ table))
  /\ (forall r, r ∈ table ->
        (exists item, item ∈ analysis_result /\ new_row item = Some r)
        \/ (takes_part MODE existing_df r
            /\ row_keyword r ∉ analysis_result.*1))
  /\ Sorted ratio_le table.
Proof.
  intros Hnd_new Hsave.
  unfold save_to_excel in Hsave.
  destruct (mapM new_row analysis_result) as [new_data|] eqn:Hnew;
    simpl in Hsave; [|discriminate].
  injection Hsave as <-.
  pose proof (new_data_keywords _ _ Hnew) as Hkeys.
  destruct (new_data_rows _ _ Hnew) as [Hrows1 Hrows2].
  set (kept := existing_rows MODE existing_df).
  assert (Hkept : forall r, r ∈ kept <-> takes_part MODE existing_df r)
    by (intros r; apply existing_rows_takes_part).
  assert (Hnd_data : NoDup (row_keyword <$> new_data)) by (rewrite Hkeys; auto).
  assert (Hmem : forall r,
            r ∈ sort_values (drop_duplicates_last (kept ++ new_data))
            <-> r ∈ drop_duplicates_last (kept ++ new_data)).
  { intros r. rewrite (sort_values_perm _). reflexivity. }
  assert (Hnd_table : NoDup (row_keyword <$>
            sort_values (drop_duplicates_last (kept ++ new_data)))).
  { rewrite (sort_values_perm _). apply drop_duplicates_last_nodup. }
  assert (Hfrom : forall r,
            r ∈ drop_duplicates_last (kept ++ new_data) ->
            (exists item, item ∈ analysis_result /\ new_row item = Some r)
            \/ (takes_part MODE existing_df r
                /\ row_keyword r ∉ analysis_result.*1)).
  { intros r Hr.
    destruct (drop_duplicates_last_elem_of _ _ _ Hr) as [Hin|[Hin Hfresh]].
    - left. apply Hrows2. apply drop_duplicates_last_subset, Hin.
    - right. split; [apply Hkept, Hin|]. rewrite <- Hkeys. exact Hfresh. }
  split; [exact Hnd_table|].
  split; [|split; [|split]].
  - intros item Hitem. destruct (Hrows1 _ Hitem) as (r & Hrow & Hin).
    assert (Hr : r ∈ sort_values (drop_duplicates_last (kept ++ new_data))).
    { apply Hmem, drop_duplicates_last_newer; assumption. }
    exists r. split; [exact Hrow|]. split; [exact Hr|].
    intros r' Hr' Hkey.
    apply (distinct_keywords_same_row _ _ _ Hnd_table Hr' Hr).
    rewrite Hkey. symmetry. apply (new_row_keyword _ _ Hrow).
  - intros r Hr Hfresh. apply Hkept in Hr. split.
    + assert (Hk : row_keyword r
                     ∈ row_keyword <$> drop_duplicates_last (kept ++ new_data)).
      { apply drop_duplicates_last_keys. rewrite fmap_app. apply elem_of_app.
        left. apply list_elem_of_fmap. eauto. }
      apply list_elem_of_fmap in Hk as (r' & Hkey & Hr').
      exists r'. split; [apply Hmem, Hr'|]. split; [auto|].
      destruct (Hfrom r' Hr') as [(item & Hitem & Hrow)|[Hpart _]];
        [|exact Hpart].
      exfalso. apply Hfresh. rewrite Hkey, (new_row_keyword _ _ Hrow).
      apply list_elem_of_fmap. eauto.
    + intros Honly. apply Hmem.
      apply drop_duplicates_last_only; [exact Hr| |].
      * rewrite Hkeys. exact Hfresh.
      * intros r' Hr' Hkey. apply Honly; [apply Hkept, Hr'|exact Hkey].
  - intros r Hr. apply Hfrom, Hmem, Hr.
  - apply sort_values_sorted.
Qed.

(** C7, refuted as stated.  In [AUTO] mode the stored row of ["b"], whose
    keyword is not incoming, is not kept: its stage is 0 and it is dropped
    before the merge; so is the stored row of ["c"], whose stage is empty.
    And of two stored rows of the keyword ["b"], which is not incoming, the
    first is not kept, whatever the mode. *)
Lemma merge_auto_drops_unstaged_row :
  (save_to_excel AUTO (Some example_existing)
       [("a"%string, example_stats (1 # 2) 3)]
     = Some [example_row "a" (1 # 2) 3]
   /\ example_row "b" (3 # 10) 0 ∈ df_rows example_existing
   /\ "b"%string ∉ [("a"%string, example_stats (1 # 2) 3)].*1
   /\ example_row "b" (3 # 10) 0 ∉ [example_row "a" (1 # 2) 3])
  /\ (save_to_excel AUTO (Some example_empty_stage)
         [("a"%string, example_stats (1 # 2) 3)]
       = Some [example_row "a" (1 # 2) 3]
     /\ example_unstaged_row "c" (3 # 10) ∈ df_rows example_empty_stage
     /\ example_unstaged_row "c" (3 # 10) ∉ [example_row "a" (1 # 2) 3])
  /\ (save_to_excel BASIC (Some example_repeated)
         [("a"%string, example_stats (1 # 2) 3)]
       = Some [example_row "b" (4 # 10) 1; example_row "a" (1 # 2) 3]
     /\ example_row "b" (3 # 10) 1 ∈ df_rows example_repeated
     /\ example_row "b" (3 # 10) 1
          ∉ [example_row "b" (4 # 10) 1; example_row "a" (1 # 2) 3]).
Proof.
  split; [|split].
  - split; [vm_compute; reflexivity|].
    split; [simpl; set_solver|].
    split; [simpl; set_solver|].
    intros [Heq|Hin]%elem_of_cons; [discriminate | inversion Hin].
  - split; [vm_compute; reflexivity|].
    split; [simpl; set_solver|].
    intros [Heq|Hin]%elem_of_cons; [discriminate | inversion Hin].
  - split; [vm_compute; reflexivity|].
    split; [simpl; set_solver|].
    intros [Heq|Hin]%elem_of_cons; [discriminate|].
    apply elem_of_cons in Hin as [Heq|Hin]; [discriminate | inversion Hin].
Qed.

Lemma example_merge_run :
  save_to_excel BASIC (Some example_existing)
    [("a"%string, example_stats (1 # 2) 3)]
  = Some [example_row "b" (3 # 10) 0; example_row "a" (1 # 2) 3].
Proof. vm_compute. reflexivity. Qed.

Lemma merge_last_write_wins_witness :
  save_to_excel BASIC (Some example_existing)
    [("a"%string, example_stats (1 # 2) 3)]
  = Some [example_row "b" (3 # 10) 0; example_row "a" (1 # 2) 3]
  /\ NoDup (row_keyword
              <$> [example_row "b" (3 # 10) 0; example_row "a" (1 # 2) 3])
  /\ (forall item, item ∈ [("a"%string, example_stats (1 # 2) 3)] ->
        exists r, new_row item = Some r
          /\ r ∈ [example_row "b" (3 # 10) 0; example_row "a" (1 # 2) 3]
          /\ forall r',
               r' ∈ [example_row "b" (3 # 10) 0; example_row "a" (1 # 2) 3] ->
               row_keyword r' = item.1 -> r' = r)
  /\ (forall r, takes_part BASIC example_existing r ->
        row_keyword r ∉ [("a"%string, example_stats (1 # 2) 3)].*1 ->
        (exists r',
           r' ∈ [example_row "b" (3 # 10) 0; example_row "a" (1 # 2) 3]
           /\ row_keyword r' = row_keyword r
           /\ takes_part BASIC example_existing r')
        /\ ((forall r', takes_part BASIC example_existing r' ->
               row_keyword r' = row_keyword r -> r' = r) ->
            r ∈ [example_row "b" (3 # 10) 0; example_row "a" (1 # 2) 3]))
  /\ (forall r,
        r ∈ [example_row "b" (3 # 10) 0; example_row "a" (1 # 2) 3] ->
        (exists item, item ∈ [("a"%string, example_stats (1 # 2) 3)]
           /\ new_row item = Some r)
        \/ (takes_part BASIC example_existing r
            /\ row_keyword r ∉ [("a"%string, example_stats (1 # 2) 3)].*1))
  /\ Sorted ratio_le
       [example_row "b" (3 # 10) 0; example_row "a" (1 # 2) 3].
Proof.
  split; [exact example_merge_run|].
  apply (merge_last_write_wins BASIC example_existing
           [("a"%string, example_stats (1 # 2) 3)]).
  - apply NoDup_singleton.
  - exact example_merge_run.
Defined.

(** ** Rounding to binary64 and to three decimals *)

Section FloatProofs.

Local Open Scope Q_scope.

Lemma round_half_even_error q :
  Qabs (inject_Z (round_half_even q) - q) <= 1 # 2.
Proof.
  unfold round_half_even.
  pose proof (Qfloor_le q) as Hlo. pose proof (Qlt_floor q) as Hhi.
  rewrite inject_Z_plus in Hhi. change (inject_Z 1) with 1 in Hhi.
  apply Qabs_diff_Qle_condition.
  destruct (q - inject_Z (Qfloor q) ?= 1 # 2) eqn:Hcmp.
  - apply Qeq_alt in Hcmp.
    destruct (Z.even (Qfloor q));
      [|rewrite inject_Z_plus; change (inject_Z 1) with 1]; split; lra.
  - apply Qlt_alt in Hcmp. split; lra.
  - apply Qgt_alt in Hcmp. rewrite inject_Z_plus. change (inject_Z 1) with 1.
    split; lra.
Qed.

Lemma round_half_even_nonneg q : 0 <= q -> (0 <= round_half_even q)%Z.
Proof.
  intros Hq. unfold round_half_even.
  assert (0 <= Qfloor q)%Z as Hf.
  { change 0%Z with (Qfloor 0). apply Qfloor_resp_le, Hq. }
  destruct (_ ?= _); [destruct (Z.even _)| |]; lia.
Qed.

Lemma two_power_pos z : 0 < 2 ^ z.
Proof. apply Qpower_0_lt. reflexivity. Qed.

Lemma floor_log2_le q : 0 < q -> 2 ^ floor_log2 q <= q.
Proof.
  intros Hq. unfold floor_log2.
  destruct (Qle_bool _ q) eqn:Htest; [apply Qle_bool_iff, Htest|].
  clear Htest. destruct q as [n d].
  assert (0 < n)%Z as Hn by (unfold Qlt in Hq; simpl in Hq; lia).
  cbn [Qnum Qden].
  replace (Z.log2 n - Z.log2 (Z.pos d) - 1)%Z
    with (Z.log2 n - (Z.log2 (Z.pos d) + 1))%Z by lia.
  rewrite Qpower_minus by discriminate.
  destruct (Z.log2_spec n Hn) as [Hn_lo _].
  destruct (Z.log2_spec (Z.pos d) eq_refl) as [_ Hd_hi].
  pose proof (Z.log2_nonneg n) as Ha. pose proof (Z.log2_nonneg (Z.pos d)) as Hb.
  change 2 with (inject_Z 2).
  rewrite <- !Zpower_Qpower by lia.
  rewrite (Qmake_Qdiv n d).
  apply Qle_shift_div_l; [reflexivity|].
  unfold Qdiv. rewrite <- Qmult_assoc, (Qmult_comm (/ _)), Qmult_assoc.
  apply Qle_shift_div_r.
  - rewrite <- (Zlt_Qlt 0). lia.
  - rewrite <- !inject_Z_mult, <- Zle_Qle.
    replace (Z.succ (Z.log2 (Z.pos d))) with (Z.log2 (Z.pos d) + 1)%Z in Hd_hi by lia.
    nia.
Qed.

Lemma ulp_half_bounds : 0 < ulp_half /\ ulp_half <= 1 # 4.
Proof. split; [reflexivity | discriminate]. Qed.

Lemma tiny_bounds : 0 < tiny /\ tiny <= ulp_half * (1 # 4).
Proof. split; [reflexivity | vm_compute; discriminate]. Qed.

Lemma binary64_range_fits : 2 * binary64_range + 1 < overflow_threshold.
Proof. vm_compute. reflexivity. Qed.

Lemma scaled_rounding_error a e :
  Qabs (inject_Z (round_half_even (a / 2 ^ e)) * 2 ^ e - a) <= 2 ^ e * (1 # 2).
Proof.
  pose proof (two_power_pos e) as Hpe.
  assert (Heq : inject_Z (round_half_even (a / 2 ^ e)) * 2 ^ e - a
                == (inject_Z (round_half_even (a / 2 ^ e)) - a / 2 ^ e) * 2 ^ e).
  { field. intros H0. rewrite H0 in Hpe. apply (Qlt_irrefl 0), Hpe. }
  rewrite Heq, Qabs_Qmult, (Qabs_pos (2 ^ e)) by (apply Qlt_le_weak, Hpe).
  rewrite (Qmult_comm (2 ^ e)).
  apply Qmult_le_compat_r; [apply round_half_even_error | apply Qlt_le_weak, Hpe].
Qed.

Lemma last_place_bound a :
  0 < a ->
  2 ^ Z.max (floor_log2 a - 52) (-1074) * (1 # 2) <= a * ulp_half + tiny.
Proof.
  intros Ha. pose proof (floor_log2_le a Ha) as Hlog.
  destruct ulp_half_bounds as [Hu _]. destruct tiny_bounds as [Ht _].
  assert (0 <= a * ulp_half) as Hau.
  { apply Qmult_le_0_compat; apply Qlt_le_weak; assumption. }
  destruct (Z.max_spec (floor_log2 a - 52) (-1074)) as [[_ ->]|[_ ->]].
  - assert (2 ^ (-1074) * (1 # 2) == tiny) as -> by reflexivity. lra.
  - assert (2 ^ (floor_log2 a - 52) * (1 # 2) == 2 ^ floor_log2 a * ulp_half)
      as ->.
    { rewrite Qpower_minus by discriminate. unfold ulp_half. field. }
    assert (2 ^ floor_log2 a * ulp_half <= a * ulp_half)
      by (apply Qmult_le_compat_r; [assumption | lra]).
    lra.
Qed.

Lemma binary64_pos_spec a :
  0 < a -> a <= binary64_range ->
  exists r, binary64_pos a = Some r
    /\ 0 <= r
    /\ Qabs (r - a) <= a * ulp_half + tiny.
Proof.
  intros Ha Hrange. unfold binary64_pos.
  set (e := Z.max (floor_log2 a - 52) (-1074)).
  set (m := round_half_even (a / 2 ^ e)).
  pose proof (two_power_pos e) as Hpe.
  assert (Herr : Qabs (inject_Z m * 2 ^ e - a) <= a * ulp_half + tiny).
  { eapply Qle_trans; [apply scaled_rounding_error | apply last_place_bound, Ha]. }
  assert (Hm : 0 <= inject_Z m * 2 ^ e).
  { apply Qmult_le_0_compat; [|lra].
    rewrite <- (Zle_Qle 0). apply round_half_even_nonneg.
    apply Qle_shift_div_l; lra. }
  destruct (Qle_bool overflow_threshold (inject_Z m * 2 ^ e)) eqn:Hover.
  - exfalso. apply Qle_bool_iff in Hover.
    apply Qabs_diff_Qle_condition in Herr.
    destruct ulp_half_bounds as [Hu Hu4]. destruct tiny_bounds as [Ht Ht4].
    pose proof binary64_range_fits as Hfits.
    assert (a * ulp_half <= a * (1 # 4))
      by (rewrite !(Qmult_comm a); apply Qmult_le_compat_r; lra).
    assert (tiny <= 1) by nra.
    generalize dependent overflow_threshold. generalize dependent binary64_range.
    intros. lra.
  - exists (inject_Z m * 2 ^ e). auto.
Qed.

Lemma binary64_nonneg q :
  0 <= q -> q <= binary64_range ->
  exists r, binary64 q = Some r
    /\ 0 <= r
    /\ Qabs (r - q) <= q * ulp_half + tiny.
Proof.
  intros Hq Hrange. unfold binary64.
  destruct ulp_half_bounds as [Hu _]. destruct tiny_bounds as [Ht _].
  destruct (Qeq_bool q 0) eqn:Hzero.
  - apply Qeq_bool_iff in Hzero. exists 0. split; [reflexivity|].
    split; [lra|]. apply Qabs_diff_Qle_condition. nra.
  - apply Qeq_bool_neq in Hzero.
    assert (Hpos : 0 < q).
    { apply Qle_lteq in Hq as [Hlt|Heq]; [exact Hlt|].
      exfalso. apply Hzero. symmetry. exact Heq. }
    assert (Qle_bool 0 q = true) as -> by (apply Qle_bool_iff, Hq).
    destruct (binary64_pos_spec q Hpos Hrange) as (r & -> & Hr & Herr).
    exists (Qred r). split; [reflexivity|].
    rewrite (Qred_correct r). auto.
Qed.

Lemma quotient_bounds d s :
  (0 <= d)%Z -> (0 < s)%Z ->
  0 <= inject_Z d / inject_Z s /\ inject_Z d / inject_Z s <= inject_Z d.
Proof.
  intros Hd Hs.
  assert (0 < inject_Z s) by (rewrite <- (Zlt_Qlt 0); exact Hs).
  split.
  - apply Qle_shift_div_l; [assumption|]. rewrite Qmult_0_l, <- (Zle_Qle 0).
    exact Hd.
  - apply Qle_shift_div_r; [assumption|].
    rewrite <- inject_Z_mult, <- Zle_Qle. nia.
Qed.

Lemma document_count_fits :
  inject_Z (2 ^ 1000) * (5 # 4) + 1 <= binary64_range.
Proof. vm_compute. discriminate. Qed.

Lemma ulp_51 : / 2 ^ 51 == 4 * ulp_half.
Proof. reflexivity. Qed.

(** C3, as the code has it.  The ratio is the integer 0 when the total
    search volume is 0 (or negative).  When it is positive the ratio is a
    float: the quotient [document_count / total_search_volume] is rounded to
    binary64, that float is rounded to three decimals (ties to even) and the
    decimal is rounded to binary64 again.  The result is therefore not the
    exact quotient; it differs from it by at most 0.0005 plus the rounding
    error of the two conversions to binary64.  Stated for document counts
    below [2 ^ 1000], for which no conversion overflows. *)
Theorem competition_ratio_rounded (d s : Z) :
  (0 <= d < 2 ^ 1000)%Z ->
  ((s <= 0)%Z -> competition_ratio d s = Some (PyInt 0))
  /\ ((0 < s)%Z ->
       exists x r,
         py_truediv d s = Some x
         /\ py_round3 x = Some r
         /\ competition_ratio d s = Some (PyFloat r)
         /\ Qabs (x - inject_Z d / inject_Z s)
              <= (inject_Z d / inject_Z s) * / 2 ^ 53 + 2 ^ (-1075)
         /\ Qabs (inject_Z (round_half_even (x * 1000)) / 1000 - x)
              <= 1 # 2000
         /\ Qabs (r - inject_Z d / inject_Z s)
              <= (1 # 2000) + (inject_Z d / inject_Z s + 1) * / 2 ^ 51).
Proof.
  intros [Hd Hdmax]. unfold competition_ratio. split.
  - intros Hs. assert (s >? 0 = false)%Z as -> by lia. reflexivity.
  - intros Hs. assert (s >? 0 = true)%Z as -> by lia.
    destruct (quotient_bounds d s Hd Hs) as [Hq0 Hqd].
    set (q := inject_Z d / inject_Z s) in *.
    destruct ulp_half_bounds as [Hu Hu4]. destruct tiny_bounds as [Ht Ht4].
    pose proof document_count_fits as Hfits.
    assert (Hdq : inject_Z d <= inject_Z (2 ^ 1000))
      by (rewrite <- Zle_Qle; lia).
    set (D := inject_Z (2 ^ 1000)) in *.
    assert (Hqu : q * ulp_half <= q * (1 # 4))
      by (rewrite !(Qmult_comm q); apply Qmult_le_compat_r; lra).
    assert (Hqu0 : 0 <= q * ulp_half)
      by (apply Qmult_le_0_compat; lra).
    (* the division *)
    destruct (binary64_nonneg q) as (x & Hx & Hx0 & Hxerr);
      [exact Hq0 | generalize dependent binary64_range; intros; lra |].
    unfold py_truediv. assert (s =? 0 = false)%Z as -> by lia.
    fold q. rewrite Hx. cbn [mbind option_bind].
    (* the rounding to three decimals *)
    pose proof (round_half_even_error (x * 1000)) as Hk.
    pose proof (round_half_even_nonneg (x * 1000)) as Hk0.
    set (K := round_half_even (x * 1000)) in *.
    assert (HK0 : 0 <= inject_Z K).
    { rewrite <- (Zle_Qle 0). apply Hk0. lra. }
    assert (HKt : inject_Z K == inject_Z K / 1000 * 1000) by field.
    assert (Hkerr : Qabs (inject_Z K / 1000 - x) <= 1 # 2000).
    { apply Qabs_diff_Qle_condition in Hk. apply Qabs_diff_Qle_condition.
      revert Hk HKt. generalize (inject_Z K / 1000) (inject_Z K).
      intros t k Hk HKt. split; lra. }
    pose proof Hxerr as Hxerr'. pose proof Hkerr as Hkerr'.
    apply Qabs_diff_Qle_condition in Hxerr'.
    apply Qabs_diff_Qle_condition in Hkerr'.
    assert (HKq0 : 0 <= inject_Z K / 1000)
      by (apply Qle_shift_div_l; lra).
    clear HKt.
    destruct (binary64_nonneg (inject_Z K / 1000)) as (r & Hr & Hr0 & Hrerr);
      [exact HKq0 | generalize dependent binary64_range; intros; lra |].
    unfold py_round3. fold K. rewrite Hr. cbn [mbind option_bind].
    exists x, r.
    split; [reflexivity|]. split; [exact Hr|]. split; [reflexivity|].
    split; [exact Hxerr|]. split; [exact Hkerr|].
    rewrite ulp_51.
    apply Qabs_diff_Qle_condition in Hrerr.
    assert (Hku : (inject_Z K / 1000) * ulp_half
                  <= (q + q * (1 # 4) + tiny + (1 # 2000)) * ulp_half)
      by (apply Qmult_le_compat_r; lra).
    assert (Hquu : q * (1 # 4) * ulp_half <= q * ulp_half) by nra.
    assert (Htu : tiny * ulp_half <= ulp_half * (1 # 4)) by nra.
    apply Qabs_diff_Qle_condition.
    split; lra.
Qed.

Lemma competition_ratio_rounded_witness :
  ((16 <= 0)%Z -> competition_ratio 1 16 = Some (PyInt 0))
  /\ ((0 < 16)%Z ->
       exists x r,
         py_truediv 1 16 = Some x
         /\ py_round3 x = Some r
         /\ competition_ratio 1 16 = Some (PyFloat r)
         /\ (Qabs (x - inject_Z 1 / inject_Z 16)
              <= (inject_Z 1 / inject_Z 16) * / 2 ^ 53 + 2 ^ (-1075))%Q
         /\ (Qabs (inject_Z (round_half_even (x * 1000)) / 1000 - x)
              <= 1 # 2000)%Q
         /\ (Qabs (r - inject_Z 1 / inject_Z 16)
              <= (1 # 2000) + (inject_Z 1 / inject_Z 16 + 1) * / 2 ^ 51)%Q).
Proof.
  apply (competition_ratio_rounded 1 16).
  split; [lia | reflexivity].
Defined.

(** C3, refuted as stated.  For one document and a total volume of 16 the
    exact quotient is 1/16 = 0.0625, a binary64 number; the ratio computed is
    the binary64 number nearest to 0.062. *)
Lemma competition_ratio_not_exact :
  competition_ratio 1 16
    = Some (PyFloat (1116892707587883 # 18014398509481984))
  /\ ~ (1116892707587883 # 18014398509481984 == 1 # 16)%Q.
Proof.
  split; [vm_compute; reflexivity | vm_compute; discriminate].
Qed.

End FloatProofs.

(* ===================================================================== *)
(** * Part III: further properties of the code                            *)
(* ===================================================================== *)

(** ** More about the expansion *)

Section ExpansionMore.

Variable oracle : nat -> string -> list string.
Variable interrupted : nat -> bool.
Variable max_keywords : Z.

Local Abbreviation add_related := (add_related max_keywords).
Local Abbreviation loop_test := (loop_test max_keywords).
Local Abbreviation loop_body := (loop_body oracle interrupted max_keywords).
Local Abbreviation expand_loop := (expand_loop oracle interrupted max_keywords).

(** The queue after the inner loop: the old queue, followed by keywords of
    the answer that were new, each with the seed at hand. *)
Lemma add_related_queue seed related all q :
  exists added,
    (add_related seed related all q).2 = q ++ added
    /\ (forall kw s, (kw, s) ∈ added -> s = seed /\ kw ∈ related /\ kw ∉ all)
    /\ (Z.of_nat (size (add_related seed related all q).1) < max_keywords ->
        forall kw, kw ∈ related -> kw ∉ all -> (kw, seed) ∈ added).
Proof.
  revert all q. induction related as [|kw rest IH]; intros all q; simpl.
  - exists []. rewrite app_nil_r. split; [reflexivity|].
    split; [intros ? ? Hin; inversion Hin | intros _ ? Hin; inversion Hin].
  - destruct (decide (kw ∈ all)) as [Hin|Hout].
    + destruct (IH all q) as (added & Hq & Hsub & Hall).
      exists added. split; [exact Hq|]. split.
      * intros kw' s Hadded. destruct (Hsub _ _ Hadded) as (? & ? & ?).
        repeat split; auto. apply elem_of_cons. auto.
      * intros Hsize kw' [->|Hrest]%elem_of_cons Hnew; [contradiction|].
        apply Hall; assumption.
    + set (all' := {[kw]} ∪ all).
      pose proof (add_related_grows max_keywords seed rest all' q) as Hgrow.
      destruct (Z.of_nat (size all') <? max_keywords) eqn:Hroom.
      * destruct (IH all' (q ++ [(kw, seed)])) as (added & Hq & Hsub & Hall).
        exists ((kw, seed) :: added).
        split; [rewrite Hq, <- app_assoc; reflexivity|]. split.
        -- intros kw' s [[= -> ->]|Hadded]%elem_of_cons.
           ++ repeat split; auto. apply elem_of_cons. auto.
           ++ destruct (Hsub _ _ Hadded) as (? & ? & Hnot).
              repeat split; auto; [apply elem_of_cons; auto|].
              intros ?. apply Hnot. subst all'. set_solver.
        -- intros Hsize kw' [->|Hrest]%elem_of_cons Hnew;
             [apply elem_of_cons; auto|].
           destruct (decide (kw' = kw)) as [->|Hne];
             [apply elem_of_cons; auto|].
           apply elem_of_cons. right. apply Hall; auto.
           subst all'. set_solver.
      * apply Z.ltb_ge in Hroom.
        destruct (IH all' q) as (added & Hq & Hsub & Hall).
        exists added. split; [exact Hq|]. split.
        -- intros kw' s Hadded. destruct (Hsub _ _ Hadded) as (? & ? & Hnot).
           repeat split; auto; [apply elem_of_cons; auto|].
           intros ?. apply Hnot. subst all'. set_solver.
        -- intros Hsize. exfalso. lia.
Qed.

(** The queue after one iteration. *)
Lemma loop_body_queue st :
  loop_test st = true ->
  exists current seed rest added,
    queue st = (current, seed) :: rest
    /\ queue (state_of (loop_body st)) = rest ++ added
    /\ (forall kw s, (kw, s) ∈ added ->
          s = seed /\ kw ∈ all_keywords (state_of (loop_body st))
          /\ kw ∉ all_keywords st)
    /\ (forall st', loop_body st = Next st' ->
          forall kw, kw ∈ all_keywords st' -> kw ∉ all_keywords st ->
            (kw, seed) ∈ added).
Proof.
  unfold loop_test, loop_body.
  destruct (queue st) as [|[cur seed] q'] eqn:Hq; [discriminate|].
  intros Htest. exists cur, seed, q'.
  destruct (decide (cur ∈ processed_keywords st)) as [Hseen|Hfresh].
  { exists []. simpl. rewrite app_nil_r. repeat split; auto.
    - inversion H.
    - inversion H.
    - inversion H.
    - intros st' [= <-] kw Hin Hout. contradiction. }
  destruct (oracle (total_processed st) cur) as [|kw answer] eqn:Hanswer.
  - exists []. rewrite app_nil_r.
    destruct (_ >=? max_empty_tolerance);
      [|destruct (pause_interrupted interrupted q' _);
        [|destruct (_ >=? max_keywords)]];
      simpl; (split; [reflexivity|]); (split; [reflexivity|]);
      (split; [intros ? ? Hin; inversion Hin|]);
      intros st' Hst' kw' Hin Hout; try discriminate;
      injection Hst' as <-; simpl in Hin; contradiction.
  - destruct (add_related_queue seed (kw :: answer) (all_keywords st) q')
      as (added & Hqueue & Hsub & Hall).
    pose proof (add_related_pool max_keywords seed (kw :: answer)
                  (all_keywords st) q') as Hpool.
    destruct (add_related seed (kw :: answer) (all_keywords st) q')
      as [all' q''] eqn:Hadd.
    simpl in Hqueue, Hpool, Hall. exists added.
    assert (Hadded : forall kw' s, (kw', s) ∈ added ->
              s = seed /\ kw' ∈ all' /\ kw' ∉ all_keywords st).
    { intros kw' s Hadded. destruct (Hsub _ _ Hadded) as (? & ? & ?).
      repeat split; auto. rewrite Hpool. set_solver. }
    destruct (pause_interrupted interrupted q'' (total_processed st));
      [|destruct (Z.of_nat (size all') >=? max_keywords) eqn:Hfull]; simpl;
      (split; [reflexivity|]); (split; [exact Hqueue|]);
      (split; [exact Hadded|]).
    + intros st' Hst'. discriminate.
    + intros st' Hst'. discriminate.
    + intros st' [= <-] kw' Hin Hout. simpl in Hin.
      apply Hall; [lia | | exact Hout].
      rewrite Hpool in Hin. set_solver.
Qed.

(** *** The pool is the seeds and the answers *)

Lemma answered_cons kw answer log :
  answered ((kw, answer) :: log) = list_to_set answer ∪ answered log.
Proof. reflexivity. Qed.

Lemma pool_answers_step seeds st :
  all_keywords st = list_to_set seeds ∪ answered (oracle_log st) ->
  loop_test st = true ->
  all_keywords (state_of (loop_body st))
    = list_to_set seeds ∪ answered (oracle_log (state_of (loop_body st))).
Proof.
  intros Hinv Htest.
  destruct (loop_body_summary oracle interrupted max_keywords st Htest)
    as (cur & seed & q' & Hq & _ & Hsum).
  cbv zeta in Hsum.
  destruct (decide (cur ∈ processed_keywords st)).
  - destruct Hsum as (_ & _ & -> & _ & _ & -> & _). exact Hinv.
  - destruct Hsum as (_ & -> & _ & _ & -> & _).
    rewrite answered_cons, Hinv. set_solver.
Qed.

(** *** Processed and queued keywords are in the pool *)

Lemma pool_covers_step seeds st :
  pool_covers seeds st -> loop_test st = true ->
  pool_covers seeds (state_of (loop_body st)).
Proof.
  intros [Hproc Hqueue] Htest.
  destruct (loop_body_summary oracle interrupted max_keywords st Htest)
    as (cur & seed & q' & Hq & _ & Hsum).
  destruct (loop_body_queue st Htest)
    as (cur' & seed' & q'' & added & Hq' & Hqueue' & Hadded & _).
  rewrite Hq in Hq'. injection Hq' as <- <- <-.
  destruct (pool_grows_step oracle interrupted max_keywords st Htest) as [Hgrow _].
  assert (Hcur : cur ∈ all_keywords st /\ seed ∈ seeds).
  { apply Hqueue. rewrite Hq. apply elem_of_cons. auto. }
  cbv zeta in Hsum. split.
  - destruct (decide (cur ∈ processed_keywords st)).
    + destruct Hsum as (_ & -> & -> & _). exact Hproc.
    + destruct Hsum as (-> & _). set_solver.
  - rewrite Hqueue'. intros kw s [Hold|Hnew]%elem_of_app.
    + destruct (Hqueue kw s) as [? ?]; [rewrite Hq; apply elem_of_cons; auto|].
      split; [set_solver | assumption].
    + destruct (Hadded _ _ Hnew) as (-> & ? & _). tauto.
Qed.

(** *** Every keyword of the pool is processed or waits in the queue *)

Lemma pool_pending_step st st' :
  pool_pending st -> loop_test st = true -> loop_body st = Next st' ->
  pool_pending st'.
Proof.
  unfold pool_pending. intros Hinv Htest Hnext.
  destruct (loop_body_summary oracle interrupted max_keywords st Htest)
    as (cur & seed & q' & Hq & _ & Hsum).
  destruct (loop_body_queue st Htest)
    as (cur' & seed' & q'' & added & Hq' & Hqueue' & _ & Hall).
  rewrite Hq in Hq'. injection Hq' as <- <- <-.
  specialize (Hall st' Hnext). rewrite Hnext in Hsum, Hqueue'.
  simpl in Hsum, Hqueue'. rewrite Hq in Hinv.
  rewrite Hqueue', fmap_app, list_to_set_app_L.
  rewrite fmap_cons, list_to_set_cons in Hinv. simpl in Hinv.
  intros kw Hkw.
  destruct (decide (kw ∈ all_keywords st)) as [Hold|Hnew].
  - specialize (Hinv kw Hold).
    destruct (decide (cur ∈ processed_keywords st)).
    + destruct Hsum as (_ & -> & _). set_solver.
    + destruct Hsum as (-> & _). set_solver.
  - specialize (Hall kw Hkw Hnew).
    apply elem_of_union. right. apply elem_of_union. right.
    apply elem_of_list_to_set, list_elem_of_fmap. exists (kw, seed). auto.
Qed.

End ExpansionMore.

(** X1.  The pool returned by the expansion is exactly the seeds together
    with every keyword the oracle answered during the run: nothing else gets
    in, and no answered keyword is left out, whatever the limit is. *)
Theorem expand_pool_is_seeds_and_answers
    (oracle : nat -> string -> list string) (interrupted : nat -> bool)
    (max_keywords : Z)
    (seed_keywords : list string) :
  exists fuel final,
    expand_loop oracle interrupted max_keywords fuel (initial_state seed_keywords)
      = Some final
    /\ expand_keywords_recursive oracle interrupted max_keywords fuel seed_keywords
         = Some (all_keywords final)
    /\ all_keywords final
         = list_to_set seed_keywords ∪ answered (oracle_log final).
Proof.
  destruct (expand_loop_terminates oracle interrupted max_keywords
              (initial_state seed_keywords)) as (fuel & final & Hrun).
  exists fuel, final. split; [exact Hrun|].
  split; [unfold expand_keywords_recursive; rewrite Hrun; reflexivity|].
  set (P := fun st : expansion_state =>
              all_keywords st
                = list_to_set seed_keywords ∪ answered (oracle_log st)).
  eapply (expand_loop_invariant oracle interrupted max_keywords P P); [ | | | exact Hrun].
  - intros st HP _. exact HP.
  - intros st HP Htest.
    pose proof (pool_answers_step oracle interrupted max_keywords seed_keywords st HP Htest)
      as Hstep.
    destruct (loop_body oracle interrupted max_keywords st); exact Hstep.
  - unfold P, answered. simpl. set_solver.
Qed.

(** X2.  The processed keywords are part of the returned pool, so the number
    of oracle calls of a run is at most the size of the pool it returns; and
    whatever is still queued at the end is in the pool and carries one of
    the seeds as its origin. *)
Theorem expand_calls_bounded_by_pool
    (oracle : nat -> string -> list string) (interrupted : nat -> bool)
    (max_keywords : Z)
    (seed_keywords : list string) :
  exists fuel final,
    expand_loop oracle interrupted max_keywords fuel (initial_state seed_keywords)
      = Some final
    /\ processed_keywords final ⊆ all_keywords final
    /\ (length (oracle_log final) <= size (all_keywords final))%nat
    /\ (total_processed final <= size (all_keywords final))%nat
    /\ forall kw s, (kw, s) ∈ queue final ->
         kw ∈ all_keywords final /\ s ∈ seed_keywords.
Proof.
  destruct (expand_loop_terminates oracle interrupted max_keywords
              (initial_state seed_keywords)) as (fuel & final & Hrun).
  exists fuel, final. split; [exact Hrun|].
  assert (Hcov : pool_covers seed_keywords final).
  { eapply (expand_loop_invariant oracle interrupted max_keywords
              (pool_covers seed_keywords) (pool_covers seed_keywords));
      [ | | | exact Hrun].
    - intros st HP _. exact HP.
    - intros st HP Htest.
      pose proof (pool_covers_step oracle interrupted max_keywords seed_keywords st HP
                    Htest) as Hstep.
      destruct (loop_body oracle interrupted max_keywords st); exact Hstep.
    - split; simpl; [set_solver|].
      intros kw s (seed & [= -> ->] & Hin)%list_elem_of_fmap.
      split; [apply elem_of_list_to_set|]; exact Hin. }
  destruct Hcov as [Hproc Hqueue].
  destruct (expand_loop_log_invariant oracle interrupted max_keywords _ _ _ Hrun)
    as (Hset & Hnd & Hcount).
  assert (Hlen : (length (oracle_log final) <= size (all_keywords final))%nat).
  { rewrite <- (length_fmap fst), <- (size_list_to_set (C := gset string))
      by exact Hnd.
    rewrite <- Hset. apply subseteq_size, Hproc. }
  repeat split; auto; try lia; apply Hqueue with (1 := H).
Qed.

(** X3.  In a run whose pauses are not interrupted, when the loop ends with
    the pool below the limit and without the breaker having tripped, the
    expansion is exhaustive: the queue is empty, every keyword of the pool
    has been passed to the oracle, and every keyword of each answer is in
    the pool. *)
Theorem expand_exhaustive_below_limit
    (oracle : nat -> string -> list string) (interrupted : nat -> bool)
    (max_keywords : Z)
    (seed_keywords : list string) :
  (forall n, interrupted n = false) ->
  exists fuel final,
    expand_loop oracle interrupted max_keywords fuel
      (initial_state seed_keywords)
      = Some final
    /\ (Z.of_nat (size (all_keywords final)) < max_keywords ->
        consecutive_empty_results final < max_empty_tolerance ->
        queue final = []
        /\ processed_keywords final = all_keywords final
        /\ forall kw, kw ∈ all_keywords final ->
             exists answer, (kw, answer) ∈ oracle_log final
               /\ forall related, related ∈ answer ->
                    related ∈ all_keywords final).
Proof.
  intros Hquietly.
  destruct (expand_loop_terminates oracle interrupted max_keywords
              (initial_state seed_keywords)) as (fuel & final & Hrun).
  exists fuel, final. split; [exact Hrun|].
  intros Hroom Hquiet.
  set (F := fun st : expansion_state =>
              Z.of_nat (size (all_keywords st)) < max_keywords ->
              consecutive_empty_results st < max_empty_tolerance ->
              queue st = [] /\ all_keywords st ⊆ processed_keywords st).
  assert (HF : F final).
  { eapply (expand_loop_invariant oracle interrupted max_keywords pool_pending F);
      [ | | | exact Hrun].
    - intros st Hpend Htest Hlt _. unfold loop_test in Htest.
      unfold pool_pending in Hpend.
      destruct (queue st) as [|item rest]; [|lia].
      split; [reflexivity|]. set_solver.
    - intros st Hpend Htest.
      destruct (loop_body oracle interrupted max_keywords st) as [st'|st'] eqn:Hbody.
      + eapply pool_pending_step; eassumption.
      + intros Hlt Hcnt. exfalso.
        destruct (loop_body_summary oracle interrupted max_keywords st Htest)
          as (cur & seed & q' & Hq & _ & Hsum).
        rewrite Hbody in Hsum. cbv zeta in Hsum. simpl in Hsum.
        destruct (decide (cur ∈ processed_keywords st));
          [destruct Hsum as [Hnext _]; discriminate|].
        destruct Hsum as (_ & _ & _ & _ & _ & _ & Hc & _ & Hstop).
        destruct (Hstop eq_refl) as [Hwhy|[_ Hint]];
          [|rewrite Hquietly in Hint; discriminate].
        destruct (oracle (total_processed st) cur); lia.
    - unfold pool_pending. simpl.
      rewrite <- list_fmap_compose. simpl.
      intros kw Hkw. apply elem_of_union. right.
      apply elem_of_list_to_set. apply elem_of_list_to_set in Hkw.
      rewrite list_fmap_id. exact Hkw. }
  destruct (HF Hroom Hquiet) as [Hempty Hall].
  destruct (expand_loop_log_invariant oracle interrupted max_keywords _ _ _ Hrun)
    as (Hset & _ & _).
  assert (Hcov : processed_keywords final ⊆ all_keywords final).
  { eapply (expand_loop_invariant oracle interrupted max_keywords
              (pool_covers seed_keywords)
              (fun st => processed_keywords st ⊆ all_keywords st));
      [ | | | exact Hrun].
    - intros st [HP _] _. exact HP.
    - intros st HP Htest.
      destruct (pool_covers_step oracle interrupted max_keywords seed_keywords st HP Htest)
        as [Hstep1 Hstep2].
      destruct (loop_body oracle interrupted max_keywords st); [split|]; assumption.
    - split; simpl; [set_solver|].
      intros kw s (seed & [= -> ->] & Hin)%list_elem_of_fmap.
      split; [apply elem_of_list_to_set|]; exact Hin. }
  assert (Hpool : all_keywords final
                  = list_to_set seed_keywords ∪ answered (oracle_log final)).
  { set (P := fun st : expansion_state =>
                all_keywords st
                  = list_to_set seed_keywords ∪ answered (oracle_log st)).
    eapply (expand_loop_invariant oracle interrupted max_keywords P P); [ | | | exact Hrun].
    - intros st HP _. exact HP.
    - intros st HP Htest.
      pose proof (pool_answers_step oracle interrupted max_keywords seed_keywords st HP
                    Htest) as Hstep.
      destruct (loop_body oracle interrupted max_keywords st); exact Hstep.
    - unfold P, answered. simpl. set_solver. }
  split; [exact Hempty|]. split; [set_solver|].
  intros kw Hkw. apply Hall in Hkw. rewrite Hset in Hkw.
  apply elem_of_list_to_set, list_elem_of_fmap in Hkw
    as ([kw' answer] & -> & Hin).
  exists answer. split; [exact Hin|].
  intros related Hrel. rewrite Hpool. apply elem_of_union. right.
  unfold answered. apply elem_of_union_list.
  exists (list_to_set answer). split; [|apply elem_of_list_to_set, Hrel].
  apply list_elem_of_fmap. exists answer. split; [reflexivity|].
  apply list_elem_of_fmap. exists (kw', answer). auto.
Qed.

Lemma expand_exhaustive_below_limit_witness :
  exists fuel final,
    expand_loop example_oracle never_interrupted 10 fuel
      (initial_state ["a"%string])
      = Some final
    /\ (Z.of_nat (size (all_keywords final)) < 10 ->
        consecutive_empty_results final < max_empty_tolerance ->
        queue final = []
        /\ processed_keywords final = all_keywords final
        /\ forall kw, kw ∈ all_keywords final ->
             exists answer, (kw, answer) ∈ oracle_log final
               /\ forall related, related ∈ answer ->
                    related ∈ all_keywords final).
Proof.
  apply (expand_exhaustive_below_limit example_oracle never_interrupted 10
           ["a"%string]).
  intros n. reflexivity.
Defined.

(** An interrupted pause ends the run with keywords still queued, the pool
    below the limit and the breaker not tripped. *)
Example interrupted_run_leaves_queue :
  exists final,
    expand_loop example_oracle (fun n => true) 10 1
      (initial_state ["a"%string]) = Some final
    /\ queue final = [("b", "a"); ("c", "a"); ("d", "a")]%string
    /\ size (all_keywords final) = 4%nat
    /\ consecutive_empty_results final = 0.
Proof.
  eexists. split; [vm_compute; reflexivity|].
  split; [reflexivity|]. split; [vm_compute; reflexivity|reflexivity].
Qed.

(** X4.  When the distinct seeds already reach the limit, or there is no
    seed at all, the loop does not run: the seeds are returned as they are
    and the oracle is never called. *)
Theorem expand_without_iteration
    (oracle : nat -> string -> list string) (interrupted : nat -> bool)
    (max_keywords : Z)
    (seed_keywords : list string) (fuel : nat) :
  max_keywords <= Z.of_nat (size (list_to_set seed_keywords : gset string))
  \/ seed_keywords = [] ->
  expand_loop oracle interrupted max_keywords (S fuel) (initial_state seed_keywords)
    = Some (initial_state seed_keywords)
  /\ expand_keywords_recursive oracle interrupted max_keywords (S fuel) seed_keywords
       = Some (list_to_set seed_keywords)
  /\ oracle_log (initial_state seed_keywords) = [].
Proof.
  intros Hcase.
  assert (Htest : loop_test max_keywords (initial_state seed_keywords) = false).
  { unfold loop_test. simpl.
    destruct Hcase as [Hfull| ->]; [|reflexivity].
    destruct (_ <$> seed_keywords); [reflexivity|].
    apply Z.ltb_ge. exact Hfull. }
  assert (Hrun : expand_loop oracle interrupted max_keywords (S fuel)
                   (initial_state seed_keywords)
                 = Some (initial_state seed_keywords)).
  { rewrite expand_loop_S, Htest. reflexivity. }
  split; [exact Hrun|]. split; [|reflexivity].
  unfold expand_keywords_recursive. rewrite Hrun. reflexivity.
Qed.

Lemma expand_without_iteration_witness :
  expand_loop example_oracle never_interrupted 1 (S 0) (initial_state ["a"; "b"]%string)
    = Some (initial_state ["a"; "b"]%string)
  /\ expand_keywords_recursive example_oracle never_interrupted 1 (S 0) ["a"; "b"]%string
       = Some (list_to_set ["a"; "b"]%string)
  /\ oracle_log (initial_state ["a"; "b"]%string) = [].
Proof.
  apply (expand_without_iteration example_oracle never_interrupted 1 ["a"; "b"]%string 0).
  left. vm_compute. discriminate.
Defined.

(** ** More about the stage classifier *)

Section ClassifierMore.

Variable blog_stages : gmap string stage_config.
Variables d s : Z.

(** The scan of the five tiers gives 0 or a tier of 1..5 that matches. *)
Lemma stage_scan_five_range :
  let r := stage_scan blog_stages d s (seqZ 1 5) in
  r = 0 \/ (1 <= r <= 5 /\ tier_matches blog_stages r d s).
Proof.
  destruct (stage_scan_first blog_stages d s (seqZ 1 5))
    as [[H0 _]|(i & k & Hi & Hr & Hm & _)]; [left; exact H0|].
  right. cbv zeta. rewrite Hr. apply lookup_seqZ in Hi as [-> Hi].
  split; [lia | exact Hm].
Qed.

(** A tier that matches bounds the result from above. *)
Lemma stage_scan_five_at_most k :
  1 <= k <= 5 -> tier_matches blog_stages k d s ->
  1 <= stage_scan blog_stages d s (seqZ 1 5) <= k.
Proof.
  intros Hk Hmatch.
  destruct (stage_scan_first blog_stages d s (seqZ 1 5))
    as [[_ Hall]|(i & r & Hi & Hr & _ & Hbefore)].
  - exfalso. apply (Hall k); [|exact Hmatch]. apply elem_of_seqZ. lia.
  - rewrite Hr. apply lookup_seqZ in Hi as [-> Hi].
    split; [lia|].
    destruct (Z_le_gt_dec (1 + Z.of_nat i) k) as [Hle|Hgt]; [exact Hle|].
    exfalso. apply (Hbefore (Z.to_nat (k - 1)) k); [|lia|exact Hmatch].
    apply lookup_seqZ. lia.
Qed.

End ClassifierMore.

(** X5.  The classifier returns a tier between 0 and 5, and 0 whenever the
    stage table is missing.  A keyword with more documents than searches is
    never put in a tier of 2..5: it gets tier 1 or none, since every tier
    above the first asks for [s >= d]. *)
Theorem get_keyword_stage_range (config : blog_stages_config) (d s : Z) :
  let r := get_keyword_stage config d s in
  0 <= r <= 5
  /\ (s < d -> r = 0 \/ r = 1)
  /\ (2 <= r -> d <= s)
  /\ (r <> 0 ->
        exists blog_stages, config !! "blog_stages"%string = Some blog_stages
          /\ tier_matches blog_stages r d s).
Proof.
  unfold get_keyword_stage.
  destruct (config !! "blog_stages"%string) as [blog_stages|];
    [|cbv zeta; repeat split; try lia; try contradiction].
  destruct (stage_scan_five_range blog_stages d s) as [H0|[Hr Hm]];
    cbv zeta in *.
  - rewrite H0. repeat split; try lia; try contradiction.
  - split; [lia|].
    destruct Hm as (rule & Hrule & Hbase & Hextra).
    split; [intros; lia|]. split; [intros; lia|].
    intros _. exists blog_stages. split; [reflexivity|].
    exists rule. auto.
Qed.

(** ** More about the filters *)

Section StampLoop.

Variable verdict : gmap string pyval -> option (option Z).

(** The verdict does not look at the stage that is written. *)
Hypothesis verdict_stable :
  forall stage metrics,
    verdict (<["stage"%string := stage]> metrics) = verdict metrics.

Lemma dict_set_fresh k v (d : keyword_dict) :
  k ∉ d.*1 -> dict_set k v d = d ++ [(k, v)].
Proof.
  induction d as [|[k' v'] d IH]; simpl; intros Hfresh; [reflexivity|].
  rewrite decide_False by (intros ->; apply Hfresh; apply elem_of_cons; auto).
  rewrite IH; [reflexivity|].
  intros Hin. apply Hfresh. apply elem_of_cons. auto.
Qed.

Lemma kept_stage_stamped heap r r0 obj stage :
  heap !! r0 = Some obj ->
  kept_stage verdict (<[r0 := <["stage"%string := stage]> obj]> heap) r
    = kept_stage verdict heap r.
Proof.
  intros Hobj. unfold kept_stage.
  destruct (decide (r = r0)) as [->|Hne].
  - rewrite lookup_insert_eq, Hobj. simpl. rewrite verdict_stable. reflexivity.
  - rewrite lookup_insert_ne by congruence. reflexivity.
Qed.

Lemma kept_item_stamped heap item r0 obj stage :
  heap !! r0 = Some obj ->
  kept_item verdict (<[r0 := <["stage"%string := stage]> obj]> heap) item
    = kept_item verdict heap item.
Proof.
  intros Hobj. unfold kept_item. erewrite kept_stage_stamped; eauto.
Qed.

(** The result of the loop: the kept items, in the order of the input,
    after what was there. *)
Lemma stamp_loop_result items heap result heap' result' :
  NoDup (result.*1 ++ items.*1) ->
  stamp_loop verdict items heap result = Some (heap', result') ->
  result' = result ++ filter (fun item => kept_item verdict heap item = true) items.
Proof.
  revert heap result. induction items as [|[kw r] items IH];
    intros heap result Hnd Hrun; simpl in Hrun.
  - injection Hrun as <- <-. rewrite filter_nil, app_nil_r. reflexivity.
  - simpl in Hnd. apply NoDup_app in Hnd as (Hnd1 & Hdisj & Hnd2).
    apply NoDup_cons in Hnd2 as [Hfresh Hnd2].
    assert (Hkw : kw ∉ result.*1).
    { intros Hin. apply (Hdisj kw Hin). apply elem_of_cons. auto. }
    destruct (heap !! r) as [obj|] eqn:Hobj; simpl in Hrun; [|discriminate].
    destruct (verdict obj) as [[stage|]|] eqn:Hv; simpl in Hrun;
      [| |discriminate].
    + assert (Hkept : kept_item verdict heap (kw, r) = true).
      { unfold kept_item, kept_stage. simpl. rewrite Hobj. simpl. rewrite Hv.
        apply bool_decide_eq_true. eauto. }
      rewrite filter_cons_True by exact Hkept.
      apply IH in Hrun.
      * rewrite Hrun, dict_set_fresh, <- app_assoc by exact Hkw. simpl.
        f_equal. f_equal. apply list_filter_iff. intros item.
        rewrite kept_item_stamped by exact Hobj. reflexivity.
      * rewrite dict_set_fresh, fmap_app by exact Hkw. simpl.
        rewrite <- app_assoc. simpl.
        apply NoDup_app. split; [exact Hnd1|]. split.
        -- intros x Hx [->|Hin]%elem_of_cons; [contradiction|].
           apply (Hdisj x Hx). apply elem_of_cons. auto.
        -- apply NoDup_cons. auto.
    + assert (Hkept : kept_item verdict heap (kw, r) <> true).
      { unfold kept_item, kept_stage. simpl. rewrite Hobj. simpl. rewrite Hv.
        intros Hk%bool_decide_eq_true. destruct Hk. discriminate. }
      rewrite filter_cons_False by exact Hkept.
      apply IH in Hrun; [exact Hrun|].
      apply NoDup_app. split; [exact Hnd1|]. split; [|exact Hnd2].
      intros x Hx Hin. apply (Hdisj x Hx). apply elem_of_cons. auto.
Qed.

(** The heap after the loop: the objects behind kept items have got their
    stage, every other object is untouched. *)
Lemma stamp_loop_heap items heap result heap' result' :
  stamp_loop verdict items heap result = Some (heap', result') ->
  forall r,
    ((exists item, item ∈ items /\ item.2 = r
        /\ kept_item verdict heap item = true) ->
     exists obj stage,
       heap !! r = Some obj
       /\ kept_stage verdict heap r = Some stage
       /\ heap' !! r = Some (<["stage"%string := PyInt stage]> obj))
    /\ ((forall item, item ∈ items -> item.2 = r ->
           kept_item verdict heap item <> true) ->
        heap' !! r = heap !! r).
Proof.
  revert heap result. induction items as [|[kw r0] items IH];
    intros heap result Hrun r; simpl in Hrun.
  - injection Hrun as <- <-. split; [|reflexivity].
    intros (item & Hin & _). inversion Hin.
  - destruct (heap !! r0) as [obj|] eqn:Hobj; simpl in Hrun; [|discriminate].
    destruct (verdict obj) as [[stage|]|] eqn:Hv; simpl in Hrun;
      [| |discriminate].
    + (* kept *)
      assert (Hk0 : kept_stage verdict heap r0 = Some stage).
      { unfold kept_stage. rewrite Hobj. simpl. rewrite Hv. reflexivity. }
      destruct (IH _ _ Hrun r) as [IHa IHb].
      destruct (decide (r = r0)) as [->|Hne].
      * split.
        -- intros _. exists obj, stage. split; [exact Hobj|].
           split; [exact Hk0|].
           destruct (decide (Exists (fun item : string * ref => item.2 = r0
                       /\ kept_item verdict heap item = true) items))
             as [Hex|Hno].
           ++ apply Exists_exists in Hex as (item & Hin & Hr & Hkept).
              destruct IHa as (obj1 & stage1 & Hobj1 & Hk1 & Hheap).
              { exists item. rewrite kept_item_stamped by exact Hobj. auto. }
              rewrite lookup_insert_eq in Hobj1. injection Hobj1 as <-.
              rewrite kept_stage_stamped in Hk1 by exact Hobj.
              assert (stage1 = stage) as -> by congruence.
              rewrite Hheap, insert_insert_eq. reflexivity.
           ++ rewrite IHb; [apply lookup_insert_eq|].
              intros item Hin Hr Hkept. apply Hno. apply Exists_exists.
              exists item. rewrite kept_item_stamped in Hkept by exact Hobj.
              auto.
        -- intros Hnone. exfalso. apply (Hnone (kw, r0));
             [apply elem_of_cons; auto | reflexivity |].
           unfold kept_item. simpl. rewrite Hk0.
           apply bool_decide_eq_true. eauto.
      * rewrite lookup_insert_ne in IHa, IHb by congruence.
        rewrite kept_stage_stamped in IHa by exact Hobj.
        split.
        -- intros (item & [->|Hin]%elem_of_cons & Hr & Hkept);
             [simpl in Hr; congruence|].
           apply IHa. exists item.
           rewrite kept_item_stamped by exact Hobj. auto.
        -- intros Hnone. apply IHb. intros item Hin Hr.
           rewrite kept_item_stamped by exact Hobj.
           apply Hnone; [apply elem_of_cons; auto | exact Hr].
    + (* dropped *)
      destruct (IH _ _ Hrun r) as [IHa IHb]. split.
      * intros (item & [->|Hin]%elem_of_cons & Hr & Hkept).
        -- exfalso. unfold kept_item, kept_stage in Hkept. simpl in Hkept.
           rewrite Hobj in Hkept. simpl in Hkept. rewrite Hv in Hkept.
           apply bool_decide_eq_true in Hkept. destruct Hkept. discriminate.
        -- apply IHa. exists item. auto.
      * intros Hnone. apply IHb. intros item Hin.
        apply Hnone. apply elem_of_cons. auto.
Qed.

(** The loop raises only on an item whose reference dangles or whose
    verdict raises. *)
Lemma stamp_loop_succeeds items heap result :
  (forall item, item ∈ items ->
     exists obj decision, heap !! item.2 = Some obj
       /\ verdict obj = Some decision) ->
  exists heap' result', stamp_loop verdict items heap result
                          = Some (heap', result').
Proof.
  revert heap result. induction items as [|[kw r] items IH];
    intros heap result Hok; simpl; [eauto|].
  destruct (Hok (kw, r)) as (obj & decision & Hobj & Hv);
    [apply elem_of_cons; auto|].
  simpl in Hobj. rewrite Hobj. simpl. rewrite Hv. simpl.
  destruct decision as [stage|]; apply IH.
  - intros item Hin.
    destruct (Hok item) as (obj' & dec' & Hobj' & Hv');
      [apply elem_of_cons; auto|].
    destruct (decide (item.2 = r)) as [->|Hne].
    + rewrite lookup_insert_eq. eexists _, _. split; [reflexivity|].
      rewrite verdict_stable. exact Hv.
    + rewrite lookup_insert_ne by congruence. eauto.
  - intros item Hin. apply Hok. apply elem_of_cons. auto.
Qed.

End StampLoop.

Lemma target_verdict_stable config target_stages stage metrics :
  target_verdict config target_stages (<["stage"%string := stage]> metrics)
    = target_verdict config target_stages metrics.
Proof.
  unfold target_verdict. rewrite metrics_stage_marked. reflexivity.
Qed.

Lemma stage_verdict_stable config stage_config stage metrics :
  stage_verdict config stage_config (<["stage"%string := stage]> metrics)
    = stage_verdict config stage_config metrics.
Proof.
  unfold stage_verdict. rewrite !lookup_insert_ne by discriminate. reflexivity.
Qed.

(** The loops of the three filters are instances of the common shape. *)
Lemma auto_mode_loop_stamp config target_stages items heap result :
  auto_mode_loop config target_stages items heap result
    = stamp_loop (target_verdict config target_stages) items heap result.
Proof.
  revert heap result. induction items as [|[kw r] items IH];
    intros heap result; simpl; [reflexivity|].
  destruct (heap !! r) as [obj|]; simpl; [|reflexivity].
  unfold target_verdict.
  destruct (metrics_stage config obj) as [st|]; simpl; [|reflexivity].
  destruct (bool_decide (st ∈ target_stages)); apply IH.
Qed.

Lemma by_stage_loop_stamp config stage_config items heap result :
  by_stage_loop config stage_config items heap result
    = stamp_loop (stage_verdict config stage_config) items heap result.
Proof.
  revert heap result. induction items as [|[kw r] items IH];
    intros heap result; simpl; [reflexivity|].
  destruct (heap !! r) as [obj|]; simpl; [|reflexivity].
  unfold stage_verdict.
  destruct (obj !! "blog_count"%string ≫= as_int) as [d|]; simpl;
    [|reflexivity].
  destruct (obj !! "total_search_volume"%string ≫= as_int) as [s|]; simpl;
    [|reflexivity].
  destruct (base_condition stage_config d s); apply IH.
Qed.

Lemma filter_keeps_all {A} (P : A -> Prop) `{forall x, Decision (P x)}
    (l : list A) :
  (forall x, x ∈ l -> P x) -> filter P l = l.
Proof.
  induction l as [|a l IH]; intros Hall; [reflexivity|].
  rewrite filter_cons_True by (apply Hall, elem_of_cons; auto).
  rewrite IH; [reflexivity|].
  intros x Hx. apply Hall, elem_of_cons. auto.
Qed.

Section StampLoopMore.

Variable verdict : gmap string pyval -> option (option Z).
Hypothesis verdict_stable :
  forall stage metrics,
    verdict (<["stage"%string := stage]> metrics) = verdict metrics.

(** The loop does not change what the verdict says of any object. *)
Lemma stamp_loop_kept_stage items heap result heap' result' :
  stamp_loop verdict items heap result = Some (heap', result') ->
  forall r, kept_stage verdict heap' r = kept_stage verdict heap r.
Proof.
  intros Hrun r.
  destruct (stamp_loop_heap verdict verdict_stable _ _ _ _ _ Hrun r)
    as [Ha Hb].
  destruct (decide (Exists (fun item : string * ref => item.2 = r
              /\ kept_item verdict heap item = true) items)) as [Hex|Hno].
  - apply Exists_exists in Hex as (item & Hin & Hr & Hkept).
    destruct Ha as (obj & stage & Hobj & Hk & Hheap); [eauto|].
    unfold kept_stage. rewrite Hheap, Hobj. simpl.
    rewrite verdict_stable. reflexivity.
  - unfold kept_stage. rewrite Hb; [reflexivity|].
    intros item Hin Hr Hkept. apply Hno, Exists_exists. eauto.
Qed.

(** Running the loop on its own result changes nothing. *)
Lemma stamp_loop_idempotent items heap heap' result :
  NoDup items.*1 ->
  stamp_loop verdict items heap [] = Some (heap', result) ->
  stamp_loop verdict result heap' [] = Some (heap', result).
Proof.
  intros Hnd Hrun.
  pose proof (stamp_loop_result verdict verdict_stable items heap [] heap'
                result Hnd Hrun) as Hres. simpl in Hres.
  pose proof (stamp_loop_kept_stage _ _ _ _ _ Hrun) as Hsame.
  assert (Hkept : forall item, item ∈ result ->
            kept_item verdict heap' item = true).
  { intros item Hin. rewrite Hres in Hin.
    apply list_elem_of_filter in Hin as [Hk _].
    unfold kept_item in *. rewrite Hsame. exact Hk. }
  assert (Hnd' : NoDup result.*1).
  { rewrite Hres. clear -Hnd. induction items as [|[k r] items IH]; simpl.
    - constructor.
    - apply NoDup_cons in Hnd as [Hfresh Hnd].
      rewrite filter_cons. destruct (decide _); [|auto].
      rewrite fmap_cons. apply NoDup_cons. split; [|auto].
      intros (item & Hk & Hin%list_elem_of_filter)%list_elem_of_fmap.
      apply Hfresh. apply list_elem_of_fmap. exists item. tauto. }
  destruct (stamp_loop_succeeds verdict verdict_stable result heap' [])
    as (heap2 & result2 & Hrun2).
  { intros item Hin. specialize (Hkept item Hin).
    unfold kept_item, kept_stage in Hkept.
    apply bool_decide_eq_true in Hkept as [stage Hstage].
    destruct (heap' !! item.2) as [obj|]; simpl in Hstage; [|discriminate].
    destruct (verdict obj) as [dec|] eqn:Hv; [|discriminate].
    exists obj, dec. auto. }
  rewrite Hrun2. f_equal. f_equal.
  - apply map_eq. intros r.
    destruct (stamp_loop_heap verdict verdict_stable _ _ _ _ _ Hrun2 r)
      as [Ha Hb].
    destruct (decide (Exists (fun item : string * ref => item.2 = r
                /\ kept_item verdict heap' item = true) result)) as [Hex|Hno].
    + apply Exists_exists in Hex as (item & Hin & Hr & Hk).
      destruct Ha as (obj2 & stage2 & Hobj2 & Hk2 & Hheap2); [eauto|].
      rewrite Hheap2.
      destruct (stamp_loop_heap verdict verdict_stable _ _ _ _ _ Hrun r)
        as [Ha1 _].
      destruct Ha1 as (obj1 & stage1 & Hobj1 & Hk1 & Hheap1).
      { exists item. rewrite Hres in Hin.
        apply list_elem_of_filter in Hin as [Hk' Hin]. auto. }
      rewrite Hheap1 in Hobj2. injection Hobj2 as <-.
      rewrite Hsame in Hk2. assert (stage2 = stage1) as -> by congruence.
      rewrite insert_insert_eq. symmetry. exact Hheap1.
    + apply Hb. intros item Hin Hr Hk. apply Hno, Exists_exists. eauto.
  - rewrite (stamp_loop_result verdict verdict_stable result heap' [] heap2
               result2 Hnd' Hrun2). simpl.
    apply filter_keeps_all. exact Hkept.
Qed.

End StampLoopMore.

(** The run of the target-stage filter on the example mapping. *)
Lemma example_filter_run :
  filter_keywords_by_target_stages example_config example_heap
    example_analysis_result None
    = Some (example_heap_after, example_filtered).
Proof.
  assert (Hgame : metrics_stage example_config (example_metrics 5 50) = Some 1)
    by (vm_compute; reflexivity).
  assert (Hrpg : metrics_stage example_config (example_metrics 5000 40) = Some 0)
    by (vm_compute; reflexivity).
  unfold filter_keywords_by_target_stages.
  change (example_config !! "blog_stages"%string)
    with (Some example_blog_stages).
  unfold example_analysis_result, target_stages_loop.
  change (example_heap !! 1%positive) with (Some (example_metrics 5 50)).
  cbn [mbind option_bind]. rewrite Hgame. cbn [mbind option_bind].
  rewrite bool_decide_eq_true_2
    by (apply elem_of_cons; left; reflexivity).
  change (dict_get "game" (dict_set "game" 1%positive []))
    with (Some 1%positive).
  cbn [mbind option_bind].
  change (example_heap !! 1%positive) with (Some (example_metrics 5 50)).
  cbn [mbind option_bind].
  change ((<[1%positive := <["stage"%string := PyInt 1]>
              (example_metrics 5 50)]> example_heap) !! 2%positive)
    with (Some (example_metrics 5000 40)).
  cbn [mbind option_bind]. rewrite Hrpg. cbn [mbind option_bind].
  rewrite bool_decide_eq_false_2; [reflexivity|].
  unfold TARGET_STAGES. simpl.
  intros Hin. repeat (apply elem_of_cons in Hin as [Hin|Hin]; [discriminate|]).
  inversion Hin.
Qed.

Lemma example_analysis_result_nodup : NoDup example_analysis_result.*1.
Proof.
  apply (NoDup_cons_2 "game"%string ["rpg"%string]).
  - intros [Heq|Hin]%elem_of_cons; [discriminate | inversion Hin].
  - apply NoDup_singleton.
Qed.

(** X6.  With the stage table loaded, the target-stage filter returns the
    keywords whose stage is one of the target stages, in the order of the
    input and under the references of the input; the object of each of them
    has received that stage, and every object that no returned keyword
    refers to is left as it was. *)
Theorem filter_by_target_stages_exact
    (config : blog_stages_config) (heap heap' : store)
    (analysis_result result : keyword_dict) (target_stages : option (list Z)) :
  is_Some (config !! "blog_stages"%string) ->
  NoDup analysis_result.*1 ->
  filter_keywords_by_target_stages config heap analysis_result target_stages
    = Some (heap', result) ->
  let targets := default TARGET_STAGES target_stages in
  result = filter (fun item => kept_item (target_verdict config targets)
                                 heap item = true) analysis_result
  /\ (forall kw r, (kw, r) ∈ result ->
        exists obj stage,
          heap !! r = Some obj
          /\ metrics_stage config obj = Some stage
          /\ stage ∈ targets
          /\ heap' !! r = Some (<["stage"%string := PyInt stage]> obj))
  /\ (forall r, (forall kw, (kw, r) ∉ result) -> heap' !! r = heap !! r).
Proof.
  intros [stages Hcfg] Hnd Hrun targets.
  unfold filter_keywords_by_target_stages in Hrun. rewrite Hcfg in Hrun.
  rewrite target_stages_loop_auto, auto_mode_loop_stamp in Hrun.
  fold targets in Hrun.
  pose proof (target_verdict_stable config targets) as Hstable.
  pose proof (stamp_loop_result _ Hstable analysis_result heap [] heap' result
                Hnd Hrun) as Hres. simpl in Hres.
  split; [exact Hres|]. split.
  - intros kw r Hin. rewrite Hres in Hin.
    apply list_elem_of_filter in Hin as [Hk Hin].
    destruct (stamp_loop_heap _ Hstable _ _ _ _ _ Hrun r) as [Ha _].
    destruct Ha as (obj & stage & Hobj & Hks & Hheap);
      [exists (kw, r); auto|].
    exists obj, stage. split; [exact Hobj|].
    unfold kept_stage, target_verdict in Hks. rewrite Hobj in Hks.
    simpl in Hks.
    destruct (metrics_stage config obj) as [st|]; simpl in Hks;
      [|discriminate].
    destruct (bool_decide (st ∈ targets)) eqn:Hdec; [|discriminate].
    injection Hks as ->. apply bool_decide_eq_true in Hdec. auto.
  - intros r Hnone.
    destruct (stamp_loop_heap _ Hstable _ _ _ _ _ Hrun r) as [_ Hb].
    apply Hb. intros [kw r'] Hin Hr Hk. simpl in Hr. subst r'.
    apply (Hnone kw). rewrite Hres. apply list_elem_of_filter. auto.
Qed.

Lemma filter_by_target_stages_exact_witness :
  let targets := default TARGET_STAGES None in
  example_filtered
    = filter (fun item => kept_item (target_verdict example_config targets)
                            example_heap item = true) example_analysis_result
  /\ (forall kw r, (kw, r) ∈ example_filtered ->
        exists obj stage,
          example_heap !! r = Some obj
          /\ metrics_stage example_config obj = Some stage
          /\ stage ∈ targets
          /\ example_heap_after !! r
               = Some (<["stage"%string := PyInt stage]> obj))
  /\ (forall r, (forall kw, (kw, r) ∉ example_filtered) ->
        example_heap_after !! r = example_heap !! r).
Proof.
  apply (filter_by_target_stages_exact example_config example_heap
           example_heap_after example_analysis_result example_filtered None).
  - exists example_blog_stages. reflexivity.
  - exact example_analysis_result_nodup.
  - exact example_filter_run.
Defined.

(** X7.  Filtering is idempotent: applying the target-stage filter to its
    own result, on the heap it left, returns the same mapping and changes no
    object. *)
Theorem filter_by_target_stages_idempotent
    (config : blog_stages_config) (heap heap' : store)
    (analysis_result result : keyword_dict) (target_stages : option (list Z)) :
  is_Some (config !! "blog_stages"%string) ->
  NoDup analysis_result.*1 ->
  filter_keywords_by_target_stages config heap analysis_result target_stages
    = Some (heap', result) ->
  filter_keywords_by_target_stages config heap' result target_stages
    = Some (heap', result).
Proof.
  intros [stages Hcfg] Hnd Hrun.
  unfold filter_keywords_by_target_stages in *. rewrite Hcfg in *.
  rewrite target_stages_loop_auto, auto_mode_loop_stamp in *.
  apply (stamp_loop_idempotent _ (target_verdict_stable config _)
           analysis_result heap heap' result Hnd Hrun).
Qed.

Lemma filter_by_target_stages_idempotent_witness :
  filter_keywords_by_target_stages example_config example_heap_after
    example_filtered None
    = Some (example_heap_after, example_filtered).
Proof.
  apply (filter_by_target_stages_idempotent example_config example_heap
           example_heap_after example_analysis_result example_filtered None).
  - exists example_blog_stages. reflexivity.
  - exact example_analysis_result_nodup.
  - exact example_filter_run.
Defined.

(** X8.  With the stage table loaded, [filter_keywords_auto_mode] and
    [filter_keywords_by_target_stages] return the same mapping and leave the
    same heap.  Without the table they differ: the target-stage filter
    returns the empty mapping, while the auto-mode filter and
    [filter_keywords_by_stage] with a stage return the input unfiltered; no
    object is touched.  [filter_keywords_by_stage] also returns its input
    when the table lacks the requested stage, and without a stage it is the
    target-stage filter with the default targets. *)
Theorem filters_with_and_without_stage_table
    (config : blog_stages_config) (heap : store)
    (analysis_result : keyword_dict) (target_stages : option (list Z))
    (stage : Z) :
  (is_Some (config !! "blog_stages"%string) ->
     filter_keywords_auto_mode config heap analysis_result target_stages
       = filter_keywords_by_target_stages config heap analysis_result
           target_stages)
  /\ (config !! "blog_stages"%string = None ->
        filter_keywords_by_target_stages config heap analysis_result
          target_stages = Some (heap, [])
        /\ filter_keywords_auto_mode config heap analysis_result target_stages
             = Some (heap, analysis_result)
        /\ filter_keywords_by_stage config heap analysis_result (Some stage)
             = Some (heap, analysis_result))
  /\ (forall blog_stages,
        config !! "blog_stages"%string = Some blog_stages ->
        blog_stages !! pretty stage = None ->
        filter_keywords_by_stage config heap analysis_result (Some stage)
          = Some (heap, analysis_result))
  /\ filter_keywords_by_stage config heap analysis_result None
       = filter_keywords_by_target_stages config heap analysis_result None.
Proof.
  unfold filter_keywords_auto_mode, filter_keywords_by_target_stages,
    filter_keywords_by_stage.
  split; [|split; [|split]].
  - intros [stages ->]. rewrite target_stages_loop_auto. reflexivity.
  - intros ->. auto.
  - intros blog_stages -> ->. reflexivity.
  - reflexivity.
Qed.

(** X9.  [filter_keywords_by_stage] with a stage [k] of 1..5 keeps the
    keywords that meet the bounds of stage [k], but the stage it writes is
    the classifier's: it is never above [k], it is at least 1 when the
    searches are at least the documents, and it is 1 or 0 (no stage)
    otherwise. *)
Theorem filter_by_stage_writes_classifier_stage
    (config : blog_stages_config) (blog_stages : gmap string stage_config)
    (rule : stage_config) (k : Z) (heap heap' : store)
    (analysis_result result : keyword_dict) :
  config !! "blog_stages"%string = Some blog_stages ->
  blog_stages !! pretty k = Some rule ->
  1 <= k <= 5 ->
  NoDup analysis_result.*1 ->
  filter_keywords_by_stage config heap analysis_result (Some k)
    = Some (heap', result) ->
  result = filter (fun item => kept_item (stage_verdict config rule)
                                 heap item = true) analysis_result
  /\ forall kw r, (kw, r) ∈ result ->
       exists obj d s,
         heap !! r = Some obj
         /\ obj !! "blog_count"%string ≫= as_int = Some d
         /\ obj !! "total_search_volume"%string ≫= as_int = Some s
         /\ base_condition rule d s = true
         /\ heap' !! r
              = Some (<["stage"%string := PyInt (get_keyword_stage config d s)]>
                        obj)
         /\ 0 <= get_keyword_stage config d s <= k
         /\ (d <= s -> 1 <= get_keyword_stage config d s)
         /\ (s < d -> get_keyword_stage config d s <= 1).
Proof.
  intros Hcfg Hrule Hk Hnd Hrun.
  unfold filter_keywords_by_stage in Hrun. rewrite Hcfg, Hrule in Hrun.
  rewrite by_stage_loop_stamp in Hrun.
  pose proof (stage_verdict_stable config rule) as Hstable.
  pose proof (stamp_loop_result _ Hstable analysis_result heap [] heap' result
                Hnd Hrun) as Hres. simpl in Hres.
  split; [exact Hres|].
  intros kw r Hin. rewrite Hres in Hin.
  apply list_elem_of_filter in Hin as [Hkept Hin].
  destruct (stamp_loop_heap _ Hstable _ _ _ _ _ Hrun r) as [Ha _].
  destruct Ha as (obj & stage & Hobj & Hks & Hheap); [exists (kw, r); auto|].
  unfold kept_stage, stage_verdict in Hks. rewrite Hobj in Hks. simpl in Hks.
  destruct (obj !! "blog_count"%string ≫= as_int) as [d|] eqn:Hd;
    simpl in Hks; [|discriminate].
  destruct (obj !! "total_search_volume"%string ≫= as_int) as [s|] eqn:Hs;
    simpl in Hks; [|discriminate].
  destruct (base_condition rule d s) eqn:Hbase; [|discriminate].
  injection Hks as <-.
  exists obj, d, s. repeat (split; [auto; fail|]).
  unfold get_keyword_stage. rewrite Hcfg.
  destruct (stage_scan_five_range blog_stages d s) as [H0|[Hr Hm]];
    cbv zeta in *.
  - rewrite H0. split; [lia|]. split; [|lia].
    intros Hle. exfalso.
    assert (Hmatch : tier_matches blog_stages k d s)
      by (exists rule; auto).
    pose proof (stage_scan_five_at_most blog_stages d s k Hk Hmatch). lia.
  - destruct (Z_le_gt_dec d s) as [Hle|Hgt].
    + assert (Hmatch : tier_matches blog_stages k d s)
        by (exists rule; auto).
      pose proof (stage_scan_five_at_most blog_stages d s k Hk Hmatch).
      repeat split; lia.
    + destruct Hm as (rule' & _ & _ & [H1|Hle]); [|lia].
      rewrite H1. repeat split; lia.
Qed.

(** The run of the single-stage filter on the example mapping, for
    stage 2: ["game"] meets the bounds of stage 2 and is written as stage 1. *)
Lemma example_by_stage_run :
  filter_keywords_by_stage example_config example_heap
    example_analysis_result (Some 2)
    = Some (example_heap_after, example_filtered).
Proof.
  assert (Hgame : get_keyword_stage example_config 5 50 = 1)
    by (vm_compute; reflexivity).
  assert (Hbase1 : base_condition (example_stage 50 0 500) 5 50 = true)
    by (vm_compute; reflexivity).
  assert (Hbase2 : base_condition (example_stage 50 0 500) 5000 40 = false)
    by (vm_compute; reflexivity).
  unfold filter_keywords_by_stage.
  change (example_config !! "blog_stages"%string)
    with (Some example_blog_stages).
  assert (Hrule : example_blog_stages !! pretty 2
                  = Some (example_stage 50 0 500)) by reflexivity.
  cbv beta iota. rewrite Hrule.
  unfold example_analysis_result, by_stage_loop.
  change (example_heap !! 1%positive) with (Some (example_metrics 5 50)).
  cbn [mbind option_bind].
  change (example_metrics 5 50 !! "blog_count"%string ≫= as_int)
    with (Some 5).
  change (example_metrics 5 50 !! "total_search_volume"%string ≫= as_int)
    with (Some 50).
  cbn [mbind option_bind]. rewrite Hbase1, Hgame.
  change ((<[1%positive := <["stage"%string := PyInt 1]>
              (example_metrics 5 50)]> example_heap) !! 2%positive)
    with (Some (example_metrics 5000 40)).
  cbn [mbind option_bind].
  change (example_metrics 5000 40 !! "blog_count"%string ≫= as_int)
    with (Some 5000).
  change (example_metrics 5000 40 !! "total_search_volume"%string ≫= as_int)
    with (Some 40).
  cbn [mbind option_bind]. rewrite Hbase2. reflexivity.
Qed.

Lemma filter_by_stage_writes_classifier_stage_witness :
  example_filtered
    = filter (fun item => kept_item (stage_verdict example_config
                                       (example_stage 50 0 500))
                            example_heap item = true) example_analysis_result
  /\ forall kw r, (kw, r) ∈ example_filtered ->
       exists obj d s,
         example_heap !! r = Some obj
         /\ obj !! "blog_count"%string ≫= as_int = Some d
         /\ obj !! "total_search_volume"%string ≫= as_int = Some s
         /\ base_condition (example_stage 50 0 500) d s = true
         /\ example_heap_after !! r
              = Some (<["stage"%string
                          := PyInt (get_keyword_stage example_config d s)]> obj)
         /\ 0 <= get_keyword_stage example_config d s <= 2
         /\ (d <= s -> 1 <= get_keyword_stage example_config d s)
         /\ (s < d -> get_keyword_stage example_config d s <= 1).
Proof.
  apply (filter_by_stage_writes_classifier_stage example_config
           example_blog_stages (example_stage 50 0 500) 2 example_heap
           example_heap_after example_analysis_result example_filtered).
  - reflexivity.
  - reflexivity.
  - lia.
  - exact example_analysis_result_nodup.
  - exact example_by_stage_run.
Defined.

(** ** More about the result table *)

Section MergeMore.

Lemma filter_keys_nodup (P : row -> Prop) `{forall r, Decision (P r)}
    (rows : list row) :
  NoDup (row_keyword <$> rows) -> NoDup (row_keyword <$> filter P rows).
Proof.
  induction rows as [|a rows IH]; [auto|].
  rewrite fmap_cons. intros [Hfresh Hnd]%NoDup_cons.
  rewrite filter_cons. destruct (decide (P a)); [|auto].
  rewrite fmap_cons. apply NoDup_cons. split; [|auto].
  intros (r & Hkey & Hin%list_elem_of_filter)%list_elem_of_fmap.
  apply Hfresh. apply list_elem_of_fmap. exists r. tauto.
Qed.

Lemma existing_rows_subset MODE df r :
  r ∈ existing_rows MODE df -> r ∈ df_rows df.
Proof.
  unfold existing_rows. destruct MODE; auto.
  destruct (has_stage_column df); auto.
  intros Hin%list_elem_of_filter. tauto.
Qed.

(** The table that is written, before sorting. *)
Lemma save_to_excel_combined MODE existing_df analysis_result table :
  save_to_excel MODE existing_df analysis_result = Some table ->
  exists new_data combined,
    mapM new_row analysis_result = Some new_data
    /\ table = sort_values combined
    /\ match existing_df with
       | Some df =>
           combined = drop_duplicates_last (existing_rows MODE df ++ new_data)
       | None => combined = new_data /\ new_data <> []
       end.
Proof.
  unfold save_to_excel. intros Hsave.
  destruct (mapM new_row analysis_result) as [new_data|]; simpl in Hsave;
    [|discriminate].
  exists new_data.
  destruct existing_df as [df|]; simpl in Hsave.
  - injection Hsave as <-. eauto.
  - destruct new_data as [|r new_data]; simpl in Hsave; [discriminate|].
    injection Hsave as <-. exists (r :: new_data).
    split; [reflexivity|]. split; [reflexivity|].
    split; [reflexivity | discriminate].
Qed.

Lemma saved_table_keywords_nodup MODE existing_df analysis_result table :
  NoDup analysis_result.*1 ->
  save_to_excel MODE existing_df analysis_result = Some table ->
  NoDup (row_keyword <$> table).
Proof.
  intros Hnd Hsave.
  destruct (save_to_excel_combined _ _ _ _ Hsave)
    as (new_data & combined & Hnew & -> & Hcomb).
  rewrite (sort_values_perm combined).
  destruct existing_df as [df|].
  - rewrite Hcomb. apply drop_duplicates_last_nodup.
  - destruct Hcomb as [-> _]. rewrite (new_data_keywords _ _ Hnew). exact Hnd.
Qed.

End MergeMore.

(** X10.  Whatever the existing table holds, even several rows with the same
    keyword, and also when there is no existing table, the table that
    [save_to_excel] writes has at most one row per keyword and is sorted by
    ascending ratio. *)
Theorem saved_table_distinct_and_sorted
    (MODE : mode) (existing_df : option dataframe)
    (analysis_result : list (string * gmap string pyval)) (table : list row) :
  NoDup analysis_result.*1 ->
  save_to_excel MODE existing_df analysis_result = Some table ->
  NoDup (row_keyword <$> table) /\ Sorted ratio_le table.
Proof.
  intros Hnd Hsave. split.
  - eapply saved_table_keywords_nodup; eassumption.
  - destruct (save_to_excel_combined _ _ _ _ Hsave)
      as (new_data & combined & _ & -> & _).
    apply sort_values_sorted.
Qed.

(** X11.  Without an existing table, [save_to_excel] raises when the
    incoming mapping is empty; otherwise the table written is the incoming
    rows, rearranged into ascending order of the ratio, whatever [MODE]
    is. *)
Theorem save_without_existing_table
    (MODE : mode) (analysis_result : list (string * gmap string pyval)) :
  (analysis_result = [] -> save_to_excel MODE None analysis_result = None)
  /\ (forall new_data,
        analysis_result <> [] ->
        mapM new_row analysis_result = Some new_data ->
        exists table,
          save_to_excel MODE None analysis_result = Some table
          /\ table ≡ₚ new_data
          /\ Sorted ratio_le table
          /\ row_keyword <$> new_data = analysis_result.*1).
Proof.
  split.
  - intros ->. reflexivity.
  - intros new_data Hne Hnew. unfold save_to_excel. rewrite Hnew. simpl.
    pose proof (new_data_keywords _ _ Hnew) as Hkeys.
    destruct new_data as [|r new_data].
    + destruct analysis_result; [contradiction | discriminate].
    + exists (sort_values (r :: new_data)). split; [reflexivity|].
      split; [apply sort_values_perm|].
      split; [apply sort_values_sorted | exact Hkeys].
Qed.

(** X12.  Saving is idempotent when the file reads back as it was
    written: if [pd.read_excel] returns for the file just written the frame
    that was handed to [to_excel], then saving the same mapping again writes
    the same rows again, up to the order among rows.  In [AUTO] mode this
    needs the first existing table, if any, to have had a stage column. *)
Theorem save_to_excel_twice
    (MODE : mode) (existing_df : option dataframe)
    (analysis_result : list (string * gmap string pyval)) (table : list row)
    (read_back : dataframe) :
  NoDup analysis_result.*1 ->
  (MODE = AUTO ->
     forall df, existing_df = Some df -> has_stage_column df = true) ->
  save_to_excel MODE existing_df analysis_result = Some table ->
  read_back = written_frame existing_df analysis_result table ->
  exists table',
    save_to_excel MODE (Some read_back) analysis_result = Some table'
    /\ table' ≡ₚ table.
Proof.
  intros Hnd Hauto Hsave ->.
  pose proof (saved_table_keywords_nodup _ _ _ _ Hnd Hsave) as Hnd_table.
  destruct (save_to_excel_combined _ _ _ _ Hsave)
    as (new_data & combined & Hnew & Htable & Hcomb).
  pose proof (new_data_keywords _ _ Hnew) as Hkeys.
  assert (Hnd_new : NoDup (row_keyword <$> new_data))
    by (rewrite Hkeys; exact Hnd).
  set (frame := written_frame existing_df analysis_result table).
  set (kept := existing_rows MODE frame).
  assert (Hsave' : save_to_excel MODE (Some frame) analysis_result
                   = Some (sort_values (drop_duplicates_last (kept ++ new_data)))).
  { unfold save_to_excel. rewrite Hnew. reflexivity. }
  eexists. split; [exact Hsave'|].
  assert (Hnd_kept : NoDup (row_keyword <$> kept)).
  { subst kept. unfold existing_rows.
    destruct MODE; try exact Hnd_table.
    destruct (has_stage_column frame); [|exact Hnd_table].
    apply filter_keys_nodup. exact Hnd_table. }
  (* membership in the first table *)
  assert (Hin1 : forall r, r ∈ table <-> r ∈ combined).
  { intros r. rewrite Htable, (sort_values_perm combined). reflexivity. }
  apply NoDup_Permutation.
  - apply (NoDup_fmap_1 row_keyword).
    rewrite (sort_values_perm _). apply drop_duplicates_last_nodup.
  - apply (NoDup_fmap_1 row_keyword). exact Hnd_table.
  - intros r. rewrite (sort_values_perm _). split.
    + intros Hr.
      destruct (drop_duplicates_last_elem_of _ _ _ Hr) as [Hnewr|[Hold _]].
      * apply drop_duplicates_last_subset in Hnewr. apply Hin1.
        destruct existing_df as [df|].
        -- rewrite Hcomb. apply drop_duplicates_last_newer; assumption.
        -- destruct Hcomb as [-> _]. exact Hnewr.
      * apply (existing_rows_subset MODE frame). exact Hold.
    + intros Hr.
      assert (Hcases : r ∈ new_data
                       \/ (r ∈ kept /\ row_keyword r ∉ row_keyword <$> new_data)).
      { apply Hin1 in Hr as Hc.
        destruct existing_df as [df|]; [|destruct Hcomb as [-> _]; auto].
        rewrite Hcomb in Hc.
        destruct (drop_duplicates_last_elem_of _ _ _ Hc) as [Hn|[Hold Hfresh]].
        - left. apply drop_duplicates_last_subset in Hn. exact Hn.
        - right. split; [|exact Hfresh].
          subst kept. unfold existing_rows.
          destruct MODE; try exact Hr.
          destruct (has_stage_column frame); [|exact Hr].
          apply list_elem_of_filter. split; [|exact Hr].
          unfold existing_rows in Hold.
          rewrite (Hauto eq_refl df eq_refl) in Hold.
          apply list_elem_of_filter in Hold. tauto. }
      destruct Hcases as [Hn|[Hold Hfresh]].
      * apply drop_duplicates_last_newer; assumption.
      * apply drop_duplicates_last_older; assumption.
Qed.

Lemma example_save_run :
  save_to_excel BASIC (Some example_existing) example_incoming
    = Some example_merged.
Proof. vm_compute. reflexivity. Qed.

Lemma example_incoming_nodup : NoDup example_incoming.*1.
Proof. apply NoDup_singleton. Qed.

Lemma saved_table_distinct_and_sorted_witness :
  NoDup (row_keyword <$> example_merged) /\ Sorted ratio_le example_merged.
Proof.
  apply (saved_table_distinct_and_sorted BASIC (Some example_existing)
           example_incoming example_merged).
  - exact example_incoming_nodup.
  - exact example_save_run.
Defined.

Lemma save_to_excel_twice_witness :
  exists table',
    save_to_excel BASIC
      (Some (written_frame (Some example_existing) example_incoming
               example_merged))
      example_incoming = Some table'
    /\ table' ≡ₚ example_merged.
Proof.
  apply (save_to_excel_twice BASIC (Some example_existing) example_incoming
           example_merged).
  - exact example_incoming_nodup.
  - discriminate.
  - exact example_save_run.
  - reflexivity.
Defined.

(** ** From the filter to the table *)

(** Each keyword returned by the target-stage filter refers to an object
    that holds a target stage under ['stage']. *)
Lemma target_filter_result_stamped config heap heap' analysis_result result
    target_stages kw r :
  is_Some (config !! "blog_stages"%string) ->
  NoDup analysis_result.*1 ->
  filter_keywords_by_target_stages config heap analysis_result target_stages
    = Some (heap', result) ->
  (kw, r) ∈ result ->
  exists obj stage,
    heap' !! r = Some (<["stage"%string := PyInt stage]> obj)
    /\ stage ∈ default TARGET_STAGES target_stages.
Proof.
  intros [stages Hcfg] Hnd Hrun Hin.
  unfold filter_keywords_by_target_stages in Hrun. rewrite Hcfg in Hrun.
  rewrite target_stages_loop_auto, auto_mode_loop_stamp in Hrun.
  set (targets := default TARGET_STAGES target_stages) in *.
  pose proof (target_verdict_stable config targets) as Hstable.
  pose proof (stamp_loop_result _ Hstable analysis_result heap [] heap' result
                Hnd Hrun) as Hres. simpl in Hres.
  rewrite Hres in Hin. apply list_elem_of_filter in Hin as [Hk Hin].
  destruct (stamp_loop_heap _ Hstable _ _ _ _ _ Hrun r) as [Ha _].
  destruct Ha as (obj & stage & Hobj & Hks & Hheap); [exists (kw, r); auto|].
  exists obj, stage. split; [exact Hheap|].
  unfold kept_stage, target_verdict in Hks. rewrite Hobj in Hks. simpl in Hks.
  destruct (metrics_stage config obj) as [st|]; simpl in Hks; [|discriminate].
  destruct (bool_decide (st ∈ targets)) eqn:Hdec; [|discriminate].
  injection Hks as <-. apply bool_decide_eq_true in Hdec. exact Hdec.
Qed.

Lemma resolve_items heap d items :
  resolve heap d = Some items ->
  items.*1 = d.*1
  /\ forall item, item ∈ items ->
       exists r, (item.1, r) ∈ d /\ heap !! r = Some item.2.
Proof.
  unfold resolve. rewrite mapM_Some.
  induction 1 as [|[kw r] item d items Hitem _ [IH1 IH2]].
  - split; [reflexivity|]. intros ? Hin. inversion Hin.
  - simpl in Hitem. destruct (heap !! r) as [obj|] eqn:Hobj; [|discriminate].
    injection Hitem as <-. split.
    + rewrite !fmap_cons, IH1. reflexivity.
    + intros item' [->|Hin]%elem_of_cons.
      * exists r. split; [apply elem_of_cons; auto | exact Hobj].
      * destruct (IH2 _ Hin) as (r' & ? & ?). exists r'.
        split; [apply elem_of_cons; auto | assumption].
Qed.

(** X13.  The filter and the table compose: the rows that [save_to_excel]
    makes of a mapping returned by the target-stage filter are one per
    returned keyword, and each carries the stage the filter wrote, one of
    the target stages, never the default 0 of a mapping without stage.  With
    target stages that are all positive, as the default 1..5, these rows
    survive the purge of unstaged rows of the [AUTO] mode. *)
Theorem filtered_rows_carry_target_stage
    (config : blog_stages_config) (heap heap' : store)
    (analysis_result result : keyword_dict) (target_stages : option (list Z))
    (items : list (string * gmap string pyval)) (rows : list row) :
  is_Some (config !! "blog_stages"%string) ->
  NoDup analysis_result.*1 ->
  filter_keywords_by_target_stages config heap analysis_result target_stages
    = Some (heap', result) ->
  resolve heap' result = Some items ->
  mapM new_row items = Some rows ->
  row_keyword <$> rows = result.*1
  /\ forall r, r ∈ rows ->
       exists stage,
         row_stage r = Some stage
         /\ stage ∈ default TARGET_STAGES target_stages
         /\ (Forall (fun t => 0 < t) (default TARGET_STAGES target_stages) ->
             staged r = true).
Proof.
  intros Hcfg Hnd Hrun Hres Hrows.
  destruct (resolve_items _ _ _ Hres) as [Hkeys Hitems].
  split; [rewrite (new_data_keywords _ _ Hrows); exact Hkeys|].
  intros r Hr.
  destruct (new_data_rows _ _ Hrows) as [_ Hback].
  destruct (Hback r Hr) as ([kw stats] & Hitem & Hrow).
  destruct (Hitems _ Hitem) as (ref0 & Hin & Hobj). simpl in Hin, Hobj.
  destruct (target_filter_result_stamped _ _ _ _ _ _ _ _ Hcfg Hnd Hrun Hin)
    as (obj & stage & Hheap & Htarget).
  rewrite Hheap in Hobj. injection Hobj as <-.
  unfold new_row in Hrow.
  repeat match type of Hrow with
         | context [?o ≫= _] =>
             match o with
             | context [as_int] => fail 1
             | _ => destruct o; simpl in Hrow; [|discriminate]
             end
         end.
  rewrite lookup_insert_eq in Hrow. simpl in Hrow.
  injection Hrow as <-. simpl.
  exists stage. split; [reflexivity|]. split; [exact Htarget|].
  intros Hpos. rewrite Forall_forall in Hpos. unfold staged. simpl.
  apply Z.ltb_lt. apply Hpos. exact Htarget.
Qed.

Lemma example_full_filter_run :
  filter_keywords_by_target_stages example_config example_full_heap
    example_full_result None
    = Some (example_full_heap_after, example_full_result).
Proof.
  assert (Hstage : metrics_stage example_config (example_stats (1 # 10) 0)
                   = Some 1) by (vm_compute; reflexivity).
  unfold filter_keywords_by_target_stages.
  change (example_config !! "blog_stages"%string)
    with (Some example_blog_stages).
  cbv beta iota.
  unfold example_full_result, target_stages_loop.
  change (example_full_heap !! 1%positive)
    with (Some (example_stats (1 # 10) 0)).
  cbn [mbind option_bind]. rewrite Hstage. cbn [mbind option_bind].
  rewrite bool_decide_eq_true_2
    by (apply elem_of_cons; left; reflexivity).
  change (dict_get "a" (dict_set "a" 1%positive [])) with (Some 1%positive).
  cbn [mbind option_bind].
  change (example_full_heap !! 1%positive)
    with (Some (example_stats (1 # 10) 0)).
  reflexivity.
Qed.

Lemma filtered_rows_carry_target_stage_witness :
  row_keyword <$> [example_row "a" (1 # 10) 1] = example_full_result.*1
  /\ forall r, r ∈ [example_row "a" (1 # 10) 1] ->
       exists stage,
         row_stage r = Some stage
         /\ stage ∈ default TARGET_STAGES None
         /\ (Forall (fun t => 0 < t) (default TARGET_STAGES None) ->
             staged r = true).
Proof.
  apply (filtered_rows_carry_target_stage example_config example_full_heap
           example_full_heap_after example_full_result example_full_result
           None
           [("a"%string,
             <["stage"%string := PyInt 1]> (example_stats (1 # 10) 0))]
           [example_row "a" (1 # 10) 1]).
  - exists example_blog_stages. reflexivity.
  - apply NoDup_singleton.
  - exact example_full_filter_run.
  - unfold resolve, example_full_result, example_full_heap_after.
    cbn [mapM fmap list_fmap fst snd].
    rewrite lookup_insert_eq. reflexivity.
  - vm_compute. reflexivity.
Defined.

(** ** The volume lookup *)

Section ChunkProofs.

Context {A : Type}.

Lemma chunks_concat_aux (step : nat) (m : nat) (l : list A) :
  (length l <= step * m)%nat ->
  concat ((fun i => take step (drop i l))
            <$> ((fun k => step * k)%nat <$> seq 0 m)) = l.
Proof.
  revert l. induction m as [|m IH]; intros l Hlen.
  - rewrite Nat.mul_0_r in Hlen. destruct l; [reflexivity | simpl in Hlen; lia].
  - rewrite <- cons_seq, !fmap_cons, Nat.mul_0_r, <- fmap_S_seq. simpl.
    rewrite <- !list_fmap_compose.
    change (drop 0 l) with l.
    transitivity (take step l ++ drop step l); [|apply take_drop].
    f_equal.
    rewrite <- (IH (drop step l)) at 1 by (rewrite length_drop; lia).
    rewrite <- list_fmap_compose.
    f_equal. apply list_fmap_ext. intros _ k _. simpl.
    rewrite drop_drop. f_equal. f_equal. lia.
Qed.

Lemma range_step_covers (stop step : nat) :
  (0 < step)%nat -> (stop <= step * ((stop + step - 1) / step))%nat.
Proof.
  intros Hstep.
  pose proof (Nat.div_mod (stop + step - 1) step ltac:(lia)) as Hdiv.
  pose proof (Nat.mod_upper_bound (stop + step - 1) step ltac:(lia)) as Hmod.
  lia.
Qed.

Lemma range_step_below (stop step i : nat) :
  (0 < step)%nat -> i ∈ range_step stop step -> (i < stop)%nat.
Proof.
  intros Hstep (k & -> & Hk)%list_elem_of_fmap.
  apply elem_of_seq in Hk.
  pose proof (Nat.div_mod (stop + step - 1) step ltac:(lia)) as Hdiv.
  pose proof (Nat.mod_upper_bound (stop + step - 1) step ltac:(lia)) as Hmod.
  nia.
Qed.

Lemma chunks_concat (step : nat) (l : list A) :
  (0 < step)%nat -> concat (chunks step l) = l.
Proof.
  intros Hstep. unfold chunks, range_step.
  apply chunks_concat_aux, range_step_covers, Hstep.
Qed.

Lemma chunks_length (step : nat) (l chunk : list A) :
  (0 < step)%nat -> chunk ∈ chunks step l ->
  (1 <= length chunk <= step)%nat.
Proof.
  intros Hstep (i & -> & Hi)%list_elem_of_fmap.
  apply range_step_below in Hi; [|exact Hstep].
  rewrite length_take, length_drop. lia.
Qed.

End ChunkProofs.

Section VolumeProofs.

Variable py_strip : string -> string.
Variable keywordstool : nat -> list string -> keywordstool_answer.

Local Abbreviation batch_call := (_get_search_volume_batch py_strip keywordstool).
Local Abbreviation volume_loop := (volume_loop py_strip keywordstool).

(** Every entry of the lookup comes from the answer of a batch, and the
    loop loses no keyword. *)
Lemma volume_loop_sound n batches acc kw entry :
  volume_loop n batches acc !! kw = Some entry ->
  acc !! kw = Some entry
  \/ exists j batch answer,
       batches !! j = Some batch
       /\ batch_call (n + j) batch = Some answer
       /\ answer !! kw = Some entry.
Proof.
  revert n acc. induction batches as [|batch rest IH]; intros n acc Hloop;
    simpl in Hloop; [auto|].
  destruct (batch_call n batch) as [answer|] eqn:Hcall.
  - destruct (IH _ _ Hloop) as [Hacc|(j & b & a & Hj & Hc & Ha)].
    + apply lookup_union_Some_raw in Hacc as [Hin|[_ Hacc]]; [|auto].
      right. exists 0%nat, batch, answer. rewrite Nat.add_0_r. auto.
    + right. exists (S j), b, a.
      replace (n + S j)%nat with (S n + j)%nat by lia. auto.
  - destruct (IH _ _ Hloop) as [Hacc|(j & b & a & Hj & Hc & Ha)]; [auto|].
    right. exists (S j), b, a.
    replace (n + S j)%nat with (S n + j)%nat by lia. auto.
Qed.

Lemma volume_loop_keeps n batches acc :
  dom acc ⊆ dom (volume_loop n batches acc).
Proof.
  revert n acc. induction batches as [|batch rest IH]; intros n acc; simpl;
    [reflexivity|].
  destruct (batch_call n batch) as [answer|]; [|apply IH].
  etransitivity; [|apply IH]. rewrite dom_union. set_solver.
Qed.

Lemma volume_loop_complete n batches acc j batch answer :
  batches !! j = Some batch ->
  batch_call (n + j) batch = Some answer ->
  dom answer ⊆ dom (volume_loop n batches acc).
Proof.
  revert n acc j. induction batches as [|b rest IH]; intros n acc j Hj Hcall;
    [discriminate|].
  destruct j as [|j]; simpl in Hj |- *.
  - injection Hj as ->. rewrite Nat.add_0_r in Hcall. rewrite Hcall.
    etransitivity; [|apply volume_loop_keeps]. rewrite dom_union. set_solver.
  - replace (n + S j)%nat with (S n + j)%nat in Hcall by lia.
    destruct (batch_call n b); eapply IH; eassumption.
Qed.

Lemma volume_loop_all_failed n batches acc :
  (forall j batch, batches !! j = Some batch ->
     batch_call (n + j) batch = None) ->
  volume_loop n batches acc = acc.
Proof.
  revert n acc. induction batches as [|b rest IH]; intros n acc Hfail; simpl;
    [reflexivity|].
  pose proof (Hfail 0%nat b eq_refl) as H0. rewrite Nat.add_0_r in H0.
  rewrite H0. apply IH. intros j batch Hj.
  replace (S n + j)%nat with (n + S j)%nat by lia. apply Hfail. exact Hj.
Qed.

(** Well-formedness of the entries. *)
Lemma extract_keyword_stats_well_formed items stats :
  well_formed_stats stats ->
  well_formed_stats (extract_keyword_stats items stats).
Proof.
  revert stats. induction items as [|[item|] items IH]; intros stats Hwf;
    simpl; auto.
  destruct (bool_decide _) eqn:Hkey; [|auto].
  apply bool_decide_eq_true in Hkey. apply IH.
  intros kw entry Hlook.
  destruct (decide (kw = default ""%string (relKeyword item))) as [->|Hne].
  - rewrite lookup_insert_eq in Hlook. injection Hlook as <-.
    split; [exact Hkey|]. unfold volume_entry.
    split; eexists; [apply lookup_insert_eq|].
    rewrite lookup_insert_ne by discriminate. apply lookup_insert_eq.
  - rewrite lookup_insert_ne in Hlook by congruence. eapply Hwf, Hlook.
Qed.

Lemma well_formed_stats_empty : well_formed_stats ∅.
Proof. intros kw entry Hlook. rewrite lookup_empty in Hlook. discriminate. Qed.

Lemma batch_call_well_formed n batch answer :
  batch_call n batch = Some answer -> well_formed_stats answer.
Proof.
  unfold _get_search_volume_batch.
  destruct (_ <? _)%nat; [discriminate|].
  destruct (keywordstool n _) as [|items|items|]; intros [= <-];
    auto using extract_keyword_stats_well_formed, well_formed_stats_empty.
Qed.

End VolumeProofs.

(** The batch number [n], when there is one, is the slice
    [keywords[5n:5n+5]]. *)
Lemma chunks_lookup {A} (step : nat) (l : list A) (n : nat) :
  (0 < step)%nat -> (step * n < length l)%nat ->
  chunks step l !! n = Some (take step (drop (step * n) l)).
Proof.
  intros Hstep Hn. unfold chunks, range_step.
  rewrite !list_lookup_fmap, lookup_seq_lt; [reflexivity|].
  pose proof (range_step_covers (length l) step Hstep). nia.
Qed.

Lemma chunks_lookup_Some {A} (step : nat) (l : list A) (n : nat)
    (batch : list A) :
  (0 < step)%nat -> chunks step l !! n = Some batch ->
  (step * n < length l)%nat /\ batch = take step (drop (step * n) l).
Proof.
  intros Hstep Hlook.
  assert (Hin : (step * n)%nat ∈ range_step (length l) step
                /\ batch = take step (drop (step * n) l)).
  { unfold chunks in Hlook. rewrite list_lookup_fmap in Hlook.
    destruct (range_step (length l) step !! n) as [i|] eqn:Hi;
      [|discriminate].
    injection Hlook as <-.
    assert (i = (step * n)%nat) as ->.
    { unfold range_step in Hi. rewrite list_lookup_fmap in Hi.
      destruct (seq 0 ((length l + step - 1) / step) !! n) as [k|] eqn:Hk;
        [|discriminate].
      apply lookup_seq in Hk as [-> _]. injection Hi as <-. reflexivity. }
    split; [|reflexivity]. apply list_elem_of_lookup. eauto. }
  destruct Hin as [Hin ->]. split; [|reflexivity].
  apply (range_step_below _ _ _ Hstep Hin).
Qed.

(** X14.  [get_search_volume] asks for the keywords in consecutive groups
    of five: its result is made of the answers for the slices
    [keywords[5n:5n+5]], each of one to five keywords, and of nothing else.
    So the guard of [_get_search_volume_batch] against more than five
    keywords never fires there: the batch function raises on such a slice
    only when its request fails, and whatever it returns for the slice is
    in the result. *)
Theorem get_search_volume_batches_of_five
    (py_strip : string -> string)
    (keywordstool : nat -> list string -> keywordstool_answer)
    (keywords : list string) :
  (forall n, (5 * n < length keywords)%nat ->
     (1 <= length (take 5 (drop (5 * n) keywords)) <= 5)%nat
     /\ (_get_search_volume_batch py_strip keywordstool n
           (take 5 (drop (5 * n) keywords)) = None <->
         keywordstool n
           (clean_keyword py_strip <$> take 5 (drop (5 * n) keywords))
           = AnswerFailed)
     /\ forall answer,
          _get_search_volume_batch py_strip keywordstool n
            (take 5 (drop (5 * n) keywords)) = Some answer ->
          dom answer ⊆ dom (get_search_volume py_strip keywordstool keywords))
  /\ (forall kw,
        kw ∈ dom (get_search_volume py_strip keywordstool keywords) ->
        exists n answer,
          (5 * n < length keywords)%nat
          /\ _get_search_volume_batch py_strip keywordstool n
               (take 5 (drop (5 * n) keywords)) = Some answer
          /\ kw ∈ dom answer).
Proof.
  split.
  - intros n Hn.
    assert (Hlen : (1 <= length (take 5 (drop (5 * n) keywords)) <= 5)%nat).
    { rewrite length_take, length_drop. lia. }
    split; [exact Hlen|]. split.
    + unfold _get_search_volume_batch.
      assert ((5 <? length (take 5 (drop (5 * n) keywords)))%nat = false)
        as -> by (apply Nat.ltb_ge; lia).
      destruct (keywordstool n _); split; intros; congruence.
    + intros answer Hanswer. unfold get_search_volume.
      apply (volume_loop_complete py_strip keywordstool 0 _ ∅ n
               (take 5 (drop (5 * n) keywords)) answer);
        [|exact Hanswer].
      apply chunks_lookup; [lia|exact Hn].
  - intros kw Hkw. apply elem_of_dom in Hkw as [entry Hentry].
    unfold get_search_volume in Hentry.
    destruct (volume_loop_sound _ _ _ _ _ _ _ Hentry)
      as [Hempty|(n & batch & answer & Hbatch & Hcall & Hlook)].
    { rewrite lookup_empty in Hempty. discriminate. }
    apply chunks_lookup_Some in Hbatch as [Hn ->]; [|lia].
    exists n, answer. split; [exact Hn|]. split; [exact Hcall|].
    apply elem_of_dom. eauto.
Qed.

(** X15.  The lookup table survives failing batches: every entry of the
    result comes from the answer of a batch that succeeded, no keyword that a
    successful batch reported is missing from the result, and when every
    batch fails the result is empty rather than an error. *)
Theorem get_search_volume_resilient
    (py_strip : string -> string)
    (keywordstool : nat -> list string -> keywordstool_answer)
    (keywords : list string) :
  (forall kw entry,
     get_search_volume py_strip keywordstool keywords !! kw = Some entry ->
     exists n batch answer,
       chunks 5 keywords !! n = Some batch
       /\ _get_search_volume_batch py_strip keywordstool n batch = Some answer
       /\ answer !! kw = Some entry)
  /\ (forall n batch answer,
        chunks 5 keywords !! n = Some batch ->
        _get_search_volume_batch py_strip keywordstool n batch = Some answer ->
        dom answer ⊆ dom (get_search_volume py_strip keywordstool keywords))
  /\ ((forall n batch, chunks 5 keywords !! n = Some batch ->
         _get_search_volume_batch py_strip keywordstool n batch = None) ->
      get_search_volume py_strip keywordstool keywords = ∅).
Proof.
  unfold get_search_volume. split; [|split].
  - intros kw entry Hlook.
    destruct (volume_loop_sound _ _ _ _ _ _ _ Hlook) as [Hempty|Hfound].
    + rewrite lookup_empty in Hempty. discriminate.
    + exact Hfound.
  - intros n batch answer Hn Hcall.
    apply (volume_loop_complete py_strip keywordstool 0 _ ∅ n batch answer Hn
             Hcall).
  - intros Hfail. apply volume_loop_all_failed. exact Hfail.
Qed.

(** X16.  Every entry of the lookup table that [get_search_volume] returns
    has a non-empty keyword and both volume cells, so the analysis of a
    keyword found in the table never fails on a missing cell: it is the
    analysis of the two cells. *)
Theorem get_search_volume_entries_complete
    (py_strip : string -> string)
    (keywordstool : nat -> list string -> keywordstool_answer)
    (py_int : string -> option Z)
    (keywords : list string) (kw : string) (entry : gmap string pyval) :
  get_search_volume py_strip keywordstool keywords !! kw = Some entry ->
  kw <> ""%string
  /\ exists pc_cell mobile_cell,
       entry !! "pc_search_volume"%string = Some pc_cell
       /\ entry !! "mobile_search_volume"%string = Some mobile_cell
       /\ forall blog_count,
            keyword_metrics_with_save py_int (Some entry) blog_count
              = keyword_metrics py_int pc_cell mobile_cell blog_count.
Proof.
  intros Hlook. unfold get_search_volume in Hlook.
  destruct (volume_loop_sound _ _ _ _ _ _ _ Hlook)
    as [Hempty|(j & batch & answer & _ & Hcall & Hentry)].
  { rewrite lookup_empty in Hempty. discriminate. }
  destruct (batch_call_well_formed _ _ _ _ _ Hcall kw entry Hentry)
    as (Hkw & [pc Hpc] & [mobile Hmobile]).
  split; [exact Hkw|]. exists pc, mobile.
  split; [exact Hpc|]. split; [exact Hmobile|].
  intros blog_count. unfold keyword_metrics_with_save.
  rewrite Hpc, Hmobile. reflexivity.
Qed.

Lemma example_volume_lookup :
  get_search_volume (fun str => str) example_keywordstool
    ["game"%string; "chess"%string] !! "game"%string
  = Some (volume_entry example_volume_item).
Proof.
  unfold get_search_volume.
  assert (Hc : chunks 5 ["game"%string; "chess"%string]
               = [["game"%string; "chess"%string]]) by (vm_compute; reflexivity).
  rewrite Hc.
  cbn [volume_loop _get_search_volume_batch length Nat.ltb Nat.leb
       example_keywordstool extract_keyword_stats relKeyword
       example_volume_item default].
  rewrite bool_decide_eq_true_2 by discriminate.
  rewrite lookup_union_l by apply lookup_empty.
  apply lookup_insert_eq.
Qed.

Lemma get_search_volume_entries_complete_witness :
  "game"%string <> ""%string
  /\ exists pc_cell mobile_cell,
       volume_entry example_volume_item !! "pc_search_volume"%string
         = Some pc_cell
       /\ volume_entry example_volume_item !! "mobile_search_volume"%string
            = Some mobile_cell
       /\ forall blog_count,
            keyword_metrics_with_save py_int_ascii
              (Some (volume_entry example_volume_item)) blog_count
              = keyword_metrics py_int_ascii pc_cell mobile_cell blog_count.
Proof.
  apply (get_search_volume_entries_complete (fun str => str)
           example_keywordstool py_int_ascii ["game"%string; "chess"%string]).
  exact example_volume_lookup.
Defined.

(** ** Suggestions *)

Section AutocompleteProofs.

Variable keyword : string.

Lemma offered_cons sub sub_items s :
  offered keyword (sub :: sub_items) s <->
  (s <> ""%string /\ s <> keyword /\ exists others, sub = Some (s :: others))
  \/ offered keyword sub_items s.
Proof.
  unfold offered. split.
  - intros (H1 & H2 & others & Hin). apply elem_of_cons in Hin as [Heq|Hin].
    + left. eauto.
    + right. eauto.
  - intros [(H1 & H2 & others & ->)|(H1 & H2 & others & Hin)].
    + split; [exact H1|]. split; [exact H2|]. exists others. left.
    + split; [exact H1|]. split; [exact H2|]. exists others. right. exact Hin.
Qed.

Lemma sub_items_loop_spec sub_items suggestions :
  NoDup suggestions ->
  NoDup (sub_items_loop keyword sub_items suggestions)
  /\ forall s, s ∈ sub_items_loop keyword sub_items suggestions <->
       s ∈ suggestions \/ offered keyword sub_items s.
Proof.
  revert suggestions.
  induction sub_items as [|sub rest IH]; intros suggestions Hnodup.
  - simpl. split; [exact Hnodup|]. intros s. split; [auto|].
    intros [H|(_ & _ & others & H)]; [exact H|]. inversion H.
  - assert (Hskip : (forall s others, sub <> Some (s :: others)) ->
      NoDup (sub_items_loop keyword rest suggestions)
      /\ forall s, s ∈ sub_items_loop keyword rest suggestions <->
           s ∈ suggestions \/ offered keyword (sub :: rest) s).
    { intros Hsub. destruct (IH suggestions Hnodup) as [Hn Hmem].
      split; [exact Hn|]. intros s. rewrite Hmem, offered_cons.
      split; [tauto|]. intros [H|[(_ & _ & others & ->)|H]]; [tauto| |tauto].
      exfalso. exact (Hsub _ _ eq_refl). }
    destruct sub as [[|suggestion others]|]; simpl;
      [apply Hskip; discriminate| |apply Hskip; discriminate].
    destruct (bool_decide (suggestion <> ""%string)) eqn:Hne;
      [apply bool_decide_eq_true in Hne|apply bool_decide_eq_false in Hne];
      simpl.
    2:{ destruct (IH suggestions Hnodup) as [Hn Hmem].
        split; [exact Hn|]. intros s. rewrite Hmem, offered_cons.
        split; [tauto|]. intros [H|[(H1 & _ & o & [= <- _])|H]]; tauto. }
    destruct (bool_decide (suggestion <> keyword)) eqn:Hkw;
      [apply bool_decide_eq_true in Hkw|apply bool_decide_eq_false in Hkw];
      simpl.
    2:{ destruct (IH suggestions Hnodup) as [Hn Hmem].
        split; [exact Hn|]. intros s. rewrite Hmem, offered_cons.
        split; [tauto|]. intros [H|[(_ & H2 & o & [= <- _])|H]]; tauto. }
    destruct (bool_decide (suggestion ∉ suggestions)) eqn:Hnew;
      [apply bool_decide_eq_true in Hnew|apply bool_decide_eq_false in Hnew].
    + assert (Hnodup' : NoDup (suggestions ++ [suggestion])).
      { apply NoDup_app. split; [exact Hnodup|]. split; [|apply NoDup_singleton].
        intros x Hx Hx'. apply list_elem_of_singleton in Hx'. subst. auto. }
      destruct (IH _ Hnodup') as [Hn Hmem].
      split; [exact Hn|]. intros s.
      rewrite Hmem, offered_cons, elem_of_app, list_elem_of_singleton.
      split.
      * intros [[H| ->]|H]; [tauto| |tauto]. right. left. eauto.
      * intros [H|[(_ & _ & o & [= <- _])|H]]; tauto.
    + apply dec_stable in Hnew.
      destruct (IH suggestions Hnodup) as [Hn Hmem].
      split; [exact Hn|]. intros s. rewrite Hmem, offered_cons.
      split; [tauto|]. intros [H|[(_ & _ & o & [= <- _])|H]]; tauto.
Qed.

Lemma items_loop_spec items suggestions :
  NoDup suggestions ->
  NoDup (items_loop keyword items suggestions)
  /\ forall s, s ∈ items_loop keyword items suggestions <->
       s ∈ suggestions
       \/ exists sub_items, Some sub_items ∈ items /\ offered keyword sub_items s.
Proof.
  revert suggestions.
  induction items as [|item rest IH]; intros suggestions Hnodup.
  - simpl. split; [exact Hnodup|]. intros s. split; [auto|].
    intros [H|(subs & H & _)]; [exact H|]. inversion H.
  - destruct item as [[|sub subs]|]; simpl.
    + destruct (IH suggestions Hnodup) as [Hn Hmem].
      split; [exact Hn|]. intros s. rewrite Hmem. split.
      * intros [H|(l & Hl & Ho)]; [tauto|]. right. exists l.
        split; [right; exact Hl|exact Ho].
      * intros [H|(l & Hl & Ho)]; [tauto|].
        apply elem_of_cons in Hl as [[= ->]|Hl]; [|eauto].
        destruct Ho as (_ & _ & o & Ho). inversion Ho.
    + destruct (sub_items_loop_spec (sub :: subs) suggestions Hnodup)
        as [Hn1 Hmem1].
      destruct (IH _ Hn1) as [Hn Hmem].
      split; [exact Hn|]. intros s. rewrite Hmem, Hmem1. split.
      * intros [[H|Ho]|(l & Hl & Ho)]; [tauto| |].
        -- right. exists (sub :: subs). split; [left|exact Ho].
        -- right. exists l. split; [right; exact Hl|exact Ho].
      * intros [H|(l & Hl & Ho)]; [tauto|].
        apply elem_of_cons in Hl as [[= ->]|Hl]; [tauto|eauto].
    + destruct (IH suggestions Hnodup) as [Hn Hmem].
      split; [exact Hn|]. intros s. rewrite Hmem. split.
      * intros [H|(l & Hl & Ho)]; [tauto|]. right. exists l.
        split; [right; exact Hl|exact Ho].
      * intros [H|(l & Hl & Ho)]; [tauto|].
        apply elem_of_cons in Hl as [[=]|Hl]. eauto.
Qed.

Lemma extract_suggestions_spec data :
  NoDup (extract_suggestions keyword data)
  /\ forall s, s ∈ extract_suggestions keyword data <->
       exists items sub_items,
         data = Items items /\ Some sub_items ∈ items /\ offered keyword sub_items s.
Proof.
  destruct data as [|[|item items]]; simpl.
  - split; [constructor|]. intros s. split; [intros H; inversion H|].
    intros (? & ? & [=] & _).
  - split; [constructor|]. intros s. split; [intros H; inversion H|].
    intros (? & ? & [= <-] & H & _). inversion H.
  - destruct (items_loop_spec (item :: items) [] (NoDup_nil_2)) as [Hn Hmem].
    split; [exact Hn|]. intros s.
    split.
    + intros Hs. apply Hmem in Hs as [Hs|(l & Hl & Ho)]; [inversion Hs|].
      exists (item :: items), l. auto.
    + intros (its & l & [= <-] & Hl & Ho). apply Hmem. right. eauto.
Qed.

End AutocompleteProofs.

(** X17.  The suggestions that [get_naver_autocomplete] returns have no
    duplicate and contain neither the empty string nor the queried keyword;
    they are exactly the non-empty first elements, other than the keyword,
    of the sub-items of the decoded answer.  A failed request or decoding
    gives the empty list. *)
Theorem autocomplete_suggestions_distinct
    (request : string -> option (list ascii))
    (json_loads : list ascii -> option autocomplete_data)
    (keyword : string) :
  NoDup (get_naver_autocomplete request json_loads keyword)
  /\ keyword ∉ get_naver_autocomplete request json_loads keyword
  /\ ""%string ∉ get_naver_autocomplete request json_loads keyword
  /\ (forall s, s ∈ get_naver_autocomplete request json_loads keyword <->
        s <> ""%string /\ s <> keyword
        /\ exists text items sub_items others,
             request keyword = Some text
             /\ json_loads (jsonp_payload text) = Some (Items items)
             /\ Some sub_items ∈ items
             /\ Some (s :: others) ∈ sub_items)
  /\ (request keyword = None ->
      get_naver_autocomplete request json_loads keyword = [])
  /\ (forall text, request keyword = Some text ->
        json_loads (jsonp_payload text) = None ->
        get_naver_autocomplete request json_loads keyword = []).
Proof.
  assert (Hmem : forall s,
    s ∈ get_naver_autocomplete request json_loads keyword <->
    s <> ""%string /\ s <> keyword
    /\ exists text items sub_items others,
         request keyword = Some text
         /\ json_loads (jsonp_payload text) = Some (Items items)
         /\ Some sub_items ∈ items
         /\ Some (s :: others) ∈ sub_items).
  { intros s. unfold get_naver_autocomplete.
    destruct (request keyword) as [text|].
    2:{ split; [intros H; inversion H|]. intros (_ & _ & ? & ? & ? & ? & [=] & _). }
    destruct (json_loads (jsonp_payload text)) as [data|] eqn:Hjson.
    2:{ split; [intros H; inversion H|].
        intros (_ & _ & ? & ? & ? & ? & [= <-] & Hdata & _). congruence. }
    rewrite (proj2 (extract_suggestions_spec keyword data)). split.
    - intros (items & l & -> & Hl & H1 & H2 & others & Ho).
      split; [exact H1|]. split; [exact H2|].
      exists text, items, l, others. auto.
    - intros (H1 & H2 & t & items & l & others & [= <-] & Hdata & Hl & Ho).
      rewrite Hjson in Hdata. injection Hdata as ->.
      exists items, l. split; [reflexivity|]. split; [exact Hl|].
      split; [exact H1|]. split; [exact H2|]. eauto. }
  split.
  { unfold get_naver_autocomplete.
    destruct (request keyword) as [text|]; [|constructor].
    destruct (json_loads _) as [data|]; [|constructor].
    apply extract_suggestions_spec. }
  split; [intros H; apply Hmem in H; tauto|].
  split; [intros H; apply Hmem in H; tauto|].
  split; [exact Hmem|].
  unfold get_naver_autocomplete. split.
  - intros ->. reflexivity.
  - intros text -> ->. reflexivity.
Qed.

Lemma jsonp_unwrap_body (body : list ascii) :
  jsonp_payload (jsonp_prefix ++ body ++ jsonp_suffix) = body.
Proof.
  unfold jsonp_payload.
  assert (Hstart : startswith jsonp_prefix (jsonp_prefix ++ body ++ jsonp_suffix)
                   = true).
  { apply bool_decide_eq_true. apply take_app_length. }
  assert (Hend : endswith jsonp_suffix (jsonp_prefix ++ body ++ jsonp_suffix)
                 = true).
  { apply bool_decide_eq_true. rewrite app_assoc.
    rewrite length_app.
    replace (length (jsonp_prefix ++ body) + length jsonp_suffix
             - length jsonp_suffix)%nat
      with (length (jsonp_prefix ++ body)) by lia.
    apply drop_app_length. }
  rewrite Hstart, Hend. simpl andb. cbv iota.
  unfold slice_from_to_end. rewrite app_assoc, length_app.
  change (length jsonp_suffix) with 2%nat.
  replace (length (jsonp_prefix ++ body) + 2 - 2)%nat
    with (length (jsonp_prefix ++ body)) by lia.
  rewrite take_app_length.
  change 11%nat with (length jsonp_prefix). apply drop_app_length.
Qed.

Lemma jsonp_wrapped_shape (text : list ascii) :
  startswith jsonp_prefix text && endswith jsonp_suffix text = true ->
  exists body, text = jsonp_prefix ++ body ++ jsonp_suffix.
Proof.
  intros Hw. apply andb_true_iff in Hw as [Hstart Hend].
  apply bool_decide_eq_true in Hstart. apply bool_decide_eq_true in Hend.
  assert (Htext : text = jsonp_prefix ++ drop 11 text).
  { rewrite <- Hstart at 1. symmetry. apply take_drop. }
  set (rest := drop 11 text) in *.
  assert (Hlen : length text = (11 + length rest)%nat).
  { rewrite Htext at 1. rewrite length_app. reflexivity. }
  rewrite Hlen in Hend. change (length jsonp_suffix) with 2%nat in Hend.
  rewrite Htext in Hend.
  destruct rest as [|c1 [|c2 rest']] eqn:Hrest.
  - vm_compute in Hend. discriminate.
  - vm_compute in Hend. discriminate.
  - exists (take (length rest') (c1 :: c2 :: rest')).
    rewrite Htext at 1. f_equal.
    change (length (c1 :: c2 :: rest')) with (S (S (length rest'))) in Hend.
    replace (11 + S (S (length rest')) - 2)%nat
      with (length jsonp_prefix + length rest')%nat in Hend
      by (change (length jsonp_prefix) with 11%nat; lia).
    rewrite drop_app_add' in Hend by reflexivity.
    rewrite <- Hend. symmetry. apply take_drop.
Qed.

(** X18.  The JSONP unwrapping cuts exactly the wrapper: a body wrapped in
    [jsonp12345(] and [);] is recovered whatever it is, a text that passes
    both tests is its payload with the wrapper around it, and any other text
    is decoded as it is. *)
Theorem jsonp_payload_unwraps (text : list ascii) :
  jsonp_payload (jsonp_prefix ++ text ++ jsonp_suffix) = text
  /\ (startswith jsonp_prefix text && endswith jsonp_suffix text = true ->
      text = jsonp_prefix ++ jsonp_payload text ++ jsonp_suffix)
  /\ (startswith jsonp_prefix text && endswith jsonp_suffix text = false ->
      jsonp_payload text = text).
Proof.
  split; [apply jsonp_unwrap_body|]. split.
  - intros Hw. destruct (jsonp_wrapped_shape text Hw) as [body ->].
    rewrite jsonp_unwrap_body. reflexivity.
  - intros Hw. unfold jsonp_payload. rewrite Hw. reflexivity.
Qed.

(** ** The analysis loop *)

Section FloatMore.

Local Open Scope Q_scope.

(** For document counts below [2 ^ 1000] the ratio is computed without an
    overflow, and it is a number. *)
Lemma competition_ratio_succeeds (d s : Z) :
  (0 <= d < 2 ^ 1000)%Z ->
  exists v, competition_ratio d s = Some v /\ is_Some (as_number v).
Proof.
  intros [Hd Hdmax]. unfold competition_ratio.
  destruct (Z_le_gt_dec s 0) as [Hs|Hs].
  { assert (s >? 0 = false)%Z as -> by lia.
    exists (PyInt 0). split; [reflexivity|]. eexists. reflexivity. }
  assert (s >? 0 = true)%Z as -> by lia.
  assert (Hs' : (0 < s)%Z) by lia.
  destruct (quotient_bounds d s Hd Hs') as [Hq0 Hqd].
  set (q := inject_Z d / inject_Z s) in *.
  destruct ulp_half_bounds as [Hu Hu4]. destruct tiny_bounds as [Ht Ht4].
  pose proof document_count_fits as Hfits.
  assert (Hdq : inject_Z d <= inject_Z (2 ^ 1000))
    by (rewrite <- Zle_Qle; lia).
  set (D := inject_Z (2 ^ 1000)) in *.
  assert (Hqu : q * ulp_half <= q * (1 # 4))
    by (rewrite !(Qmult_comm q); apply Qmult_le_compat_r; lra).
  destruct (binary64_nonneg q) as (x & Hx & Hx0 & Hxerr);
    [exact Hq0 | generalize dependent binary64_range; intros; lra |].
  unfold py_truediv. assert (s =? 0 = false)%Z as -> by lia.
  fold q. rewrite Hx. cbn [mbind option_bind].
  pose proof (round_half_even_error (x * 1000)) as Hk.
  pose proof (round_half_even_nonneg (x * 1000)) as Hk0.
  set (K := round_half_even (x * 1000)) in *.
  assert (HK0 : 0 <= inject_Z K).
  { rewrite <- (Zle_Qle 0). apply Hk0. lra. }
  assert (HKt : inject_Z K == inject_Z K / 1000 * 1000) by field.
  apply Qabs_diff_Qle_condition in Hk.
  apply Qabs_diff_Qle_condition in Hxerr.
  assert (HKq0 : 0 <= inject_Z K / 1000)
    by (apply Qle_shift_div_l; lra).
  assert (HKq : inject_Z K / 1000 <= x + (1 # 2000)).
  { revert Hk HKt. generalize (inject_Z K / 1000) (inject_Z K).
    intros t k Hk HKt. lra. }
  clear HKt.
  destruct (binary64_nonneg (inject_Z K / 1000)) as (r & Hr & Hr0 & Hrerr);
    [exact HKq0 | generalize dependent binary64_range; intros; lra |].
  unfold py_round3. fold K. rewrite Hr. cbn [mbind option_bind].
  exists (PyFloat r). split; [reflexivity|]. eexists. reflexivity.
Qed.

End FloatMore.

Section DictSet.

Lemma dict_set_keys k v (d : keyword_dict) kw :
  kw ∈ (dict_set k v d).*1 <-> kw = k \/ kw ∈ d.*1.
Proof.
  induction d as [|[k' v'] d IH]; simpl.
  - rewrite list_elem_of_singleton. split; [auto|].
    intros [H|H]; [exact H|inversion H].
  - destruct (decide (k' = k)) as [->|Hne]; simpl.
    + rewrite !elem_of_cons. tauto.
    + rewrite !elem_of_cons, IH. tauto.
Qed.

Lemma dict_set_keys_nodup k v (d : keyword_dict) :
  NoDup d.*1 -> NoDup (dict_set k v d).*1.
Proof.
  induction d as [|[k' v'] d IH]; simpl; intros Hn.
  - apply NoDup_singleton.
  - apply NoDup_cons in Hn as [Hnotin Hn].
    destruct (decide (k' = k)) as [->|Hne]; simpl.
    + apply NoDup_cons. auto.
    + apply NoDup_cons. split; [|auto].
      rewrite dict_set_keys. intros [Heq|H]; [exact (Hne Heq)|exact (Hnotin H)].
Qed.

Lemma dict_set_elem k v (d : keyword_dict) k' v' :
  (k', v') ∈ dict_set k v d -> (k', v') = (k, v) \/ (k', v') ∈ d.
Proof.
  induction d as [|[k0 v0] d IH]; simpl.
  - intros H. apply list_elem_of_singleton in H. auto.
  - destruct (decide (k0 = k)) as [->|Hne].
    + intros H. apply elem_of_cons in H as [H|H]; [auto|].
      right. right. exact H.
    + intros H. apply elem_of_cons in H as [H|H].
      * right. rewrite H. left.
      * destruct (IH H) as [Heq|Hin]; [auto|]. right. right. exact Hin.
Qed.

Lemma dict_set_refs k v (d : keyword_dict) r :
  r ∈ (dict_set k v d).*2 -> r = v \/ r ∈ d.*2.
Proof.
  intros Hr. apply list_elem_of_fmap in Hr as ([k' v'] & -> & Hin).
  apply dict_set_elem in Hin as [[= _ ->]|Hin]; [auto|].
  right. apply list_elem_of_fmap. exists (k', v'). auto.
Qed.

Lemma dict_set_refs_nodup k v (d : keyword_dict) :
  NoDup d.*2 -> v ∉ d.*2 -> NoDup (dict_set k v d).*2.
Proof.
  induction d as [|[k' v'] d IH]; simpl; intros Hn Hv.
  - apply NoDup_singleton.
  - apply NoDup_cons in Hn as [Hnotin Hn].
    apply not_elem_of_cons in Hv as [Hne Hv].
    destruct (decide (k' = k)) as [->|Hk]; simpl.
    + apply NoDup_cons. auto.
    + apply NoDup_cons. split; [|auto].
      intros Hin. apply dict_set_refs in Hin as [Heq|Hin]; [|exact (Hnotin Hin)].
      apply Hne. symmetry. exact Heq.
Qed.

End DictSet.

Section AnalysisLoopProofs.

Variable py_int : string -> option Z.
Variable py_strip : string -> string.
Variable keywordstool : nat -> list string -> keywordstool_answer.
Variable get_blog_count : nat -> string -> Z.

Local Abbreviation analyse := (analyse_keyword py_int get_blog_count).
Local Abbreviation analysis_pass :=
  (analysis_pass py_int py_strip get_blog_count).
Local Abbreviation clean := (clean_keyword py_strip).

(** The metrics object of a keyword. *)
Lemma keyword_metrics_analysed pc_cell mobile_cell blog_count metrics :
  keyword_metrics py_int pc_cell mobile_cell blog_count = Some metrics ->
  is_Some (as_number
             (default (PyInt 0) (metrics !! "competition_ratio"%string))) ->
  analysed_metrics metrics.
Proof.
  intros Hm Hnum.
  destruct (keyword_metrics_fields py_int _ _ _ _ Hm)
    as (Hpc & Hmobile & Htotal & Hblog & Hratio).
  unfold keyword_metrics in Hm.
  destruct (competition_ratio _ _) as [ratio|] eqn:Hr; [|discriminate].
  simpl in Hm. injection Hm as <-.
  exists (parse_volume py_int pc_cell), (parse_volume py_int mobile_cell),
    blog_count, ratio.
  split; [exact Hpc|]. split; [exact Hmobile|]. split; [exact Htotal|].
  split; [exact Hblog|]. split; [exact Hratio|].
  split.
  - rewrite Hratio in Hnum. exact Hnum.
  - repeat (rewrite lookup_insert_ne by discriminate). apply lookup_empty.
Qed.

(** The two nested loops are one pass over the keywords. *)
Lemma analysis_batch_loop_pass svr cleaned batch_idx i batch st :
  (forall j kw, batch !! j = Some kw ->
     cleaned !! (batch_idx + i + j)%nat = Some (clean kw)) ->
  analysis_batch_loop py_int get_blog_count svr cleaned batch_idx i batch st
    = analysis_pass svr batch st.
Proof.
  revert i st. induction batch as [|kw rest IH]; intros i st Hclean;
    [reflexivity|].
  simpl. pose proof (Hclean 0%nat kw eq_refl) as H0.
  rewrite Nat.add_0_r in H0. rewrite H0. simpl.
  destruct (analyse svr (clean kw) kw st) as [st'|]; [|reflexivity].
  simpl. apply IH. intros j kw' Hj.
  replace (batch_idx + S i + j)%nat with (batch_idx + i + S j)%nat by lia.
  apply Hclean. exact Hj.
Qed.

Lemma analysis_pass_app svr l1 l2 st :
  analysis_pass svr (l1 ++ l2) st
    = analysis_pass svr l1 st ≫= analysis_pass svr l2.
Proof.
  revert st. induction l1 as [|kw l1 IH]; intros st; [reflexivity|].
  simpl. destruct (analyse svr (clean kw) kw st) as [st'|];
    [|reflexivity].
  simpl. apply IH.
Qed.

Lemma analysis_loop_pass svr keywords batch_size indices st :
  analysis_loop py_int get_blog_count svr (clean <$> keywords) keywords
    batch_size indices st
  = analysis_pass svr
      (concat ((fun i => take batch_size (drop i keywords)) <$> indices)) st.
Proof.
  revert st. induction indices as [|batch_idx rest IH]; intros st;
    [reflexivity|].
  simpl. rewrite analysis_batch_loop_pass.
  - rewrite analysis_pass_app.
    destruct (analysis_pass svr (take batch_size (drop batch_idx keywords)) st)
      as [st'|]; [|reflexivity].
    simpl. apply IH.
  - intros j kw Hj. rewrite Nat.add_0_r, list_lookup_fmap.
    destruct (decide (j < batch_size)%nat) as [Hlt|Hge].
    + rewrite lookup_take_lt in Hj by exact Hlt. rewrite lookup_drop in Hj.
      rewrite Hj. reflexivity.
    + rewrite lookup_take_ge in Hj by lia. discriminate.
Qed.

Lemma keyword_analysis_run_pass keywords :
  keyword_analysis_run py_int py_strip keywordstool get_blog_count keywords
    = analysis_pass (get_search_volume py_strip keywordstool keywords)
        keywords empty_analysis.
Proof.
  unfold keyword_analysis_run. cbv zeta. rewrite analysis_loop_pass.
  change ((fun i => take 50 (drop i keywords))
            <$> range_step (length keywords) 50)
    with (chunks 50 keywords).
  rewrite chunks_concat by lia. reflexivity.
Qed.

(** One step of the pass. *)
Lemma analyse_keyword_invariant svr seen kw st st' :
  analysis_invariant py_strip svr seen st ->
  analyse svr (clean kw) kw st = Some st' ->
  analysis_invariant py_strip svr (seen ++ [kw]) st'.
Proof.
  intros (Hkeys & Hrefs & Hmem & Hcalls & Hobjs) Hstep.
  unfold analyse_keyword in Hstep.
  destruct (svr !! clean kw) as [entry|] eqn:Hentry.
  - destruct (entry !! "pc_search_volume"%string) as [pc|]; [|discriminate].
    destruct (entry !! "mobile_search_volume"%string) as [mobile|];
      [|discriminate].
    simpl in Hstep.
    destruct (keyword_metrics py_int pc mobile _) as [metrics|] eqn:Hm;
      [|discriminate].
    simpl in Hstep. injection Hstep as <-.
    assert (Hhas : clean kw ∈ dom svr) by (apply elem_of_dom; eauto).
    assert (Hfresh : next_object st ∉ (result_dict st).*2).
    { intros Hin. apply list_elem_of_fmap in Hin as ([k r] & Heq & Hin).
      simpl in Heq. subst r. destruct (Hobjs _ _ Hin) as [Hlt _].
      exact (Pos.lt_irrefl _ Hlt). }
    split; [apply dict_set_keys_nodup, Hkeys|].
    split; [apply dict_set_refs_nodup; assumption|].
    split; [|split].
    + intros kw0. simpl. rewrite dict_set_keys, Hmem, elem_of_app,
        list_elem_of_singleton.
      split; [|tauto]. intros [->|H]; tauto.
    + simpl. rewrite Hcalls, filter_app. f_equal.
      rewrite filter_cons_True by exact Hhas. reflexivity.
    + intros kw0 r Hin. simpl in Hin |- *.
      apply dict_set_elem in Hin as [[= -> ->]|Hin].
      * split; [apply Pos.lt_succ_diag_r|].
        exists metrics. split; [apply lookup_insert_eq|].
        apply (keyword_metrics_analysed _ _ _ _ Hm).
        unfold keyword_metrics in Hm.
        destruct (competition_ratio _ _) as [ratio|] eqn:Hr; [|discriminate].
        simpl in Hm. injection Hm as <-.
        repeat (rewrite lookup_insert_ne by discriminate).
        rewrite lookup_insert_eq. simpl.
        unfold competition_ratio in Hr.
        destruct (_ >? 0); [|injection Hr as <-; eexists; reflexivity].
        destruct (py_truediv _ _) as [x|]; [|discriminate]. simpl in Hr.
        destruct (py_round3 x) as [y|]; [|discriminate]. simpl in Hr.
        injection Hr as <-. eexists. reflexivity.
      * destruct (Hobjs _ _ Hin) as [Hlt (obj & Hobj & Hshape)].
        split; [lia|]. exists obj. split; [|exact Hshape].
        rewrite lookup_insert_ne by lia. exact Hobj.
  - injection Hstep as <-.
    assert (Hnot : clean kw ∉ dom svr) by (apply not_elem_of_dom; exact Hentry).
    split; [exact Hkeys|]. split; [exact Hrefs|]. split; [|split].
    + intros kw0. rewrite Hmem, elem_of_app, list_elem_of_singleton.
      split; [tauto|]. intros [[H| ->] Hd]; tauto.
    + rewrite Hcalls, filter_app.
      rewrite (filter_cons_False _ kw []) by exact Hnot.
      rewrite filter_nil, app_nil_r. reflexivity.
    + exact Hobjs.
Qed.

Lemma analysis_pass_invariant svr keywords seen st st' :
  analysis_invariant py_strip svr seen st ->
  analysis_pass svr keywords st = Some st' ->
  analysis_invariant py_strip svr (seen ++ keywords) st'.
Proof.
  revert seen st. induction keywords as [|kw rest IH]; intros seen st Hinv Hrun.
  - simpl in Hrun. injection Hrun as <-. rewrite app_nil_r. exact Hinv.
  - simpl in Hrun.
    destruct (analyse svr (clean kw) kw st) as [st1|] eqn:Hstep;
      [|discriminate].
    simpl in Hrun.
    replace (seen ++ kw :: rest) with ((seen ++ [kw]) ++ rest)
      by (rewrite <- app_assoc; reflexivity).
    apply (IH _ st1); [|exact Hrun].
    eapply analyse_keyword_invariant; eassumption.
Qed.

Lemma empty_analysis_invariant svr :
  analysis_invariant py_strip svr [] empty_analysis.
Proof.
  split; [constructor|]. split; [constructor|]. split; [|split].
  - intros kw. simpl. split; [intros H; inversion H|].
    intros [H _]. inversion H.
  - reflexivity.
  - intros kw r H. inversion H.
Qed.

Lemma keyword_analysis_run_invariant keywords st :
  keyword_analysis_run py_int py_strip keywordstool get_blog_count keywords
    = Some st ->
  analysis_invariant py_strip
    (get_search_volume py_strip keywordstool keywords) keywords st.
Proof.
  rewrite keyword_analysis_run_pass. intros Hrun.
  apply (analysis_pass_invariant _ _ [] _ _ (empty_analysis_invariant _) Hrun).
Qed.

(** The pass raises only when the metrics of a keyword cannot be computed. *)
Lemma analysis_pass_succeeds svr keywords st :
  well_formed_stats svr ->
  (forall n kw, (0 <= get_blog_count n kw < 2 ^ 1000)%Z) ->
  is_Some (analysis_pass svr keywords st).
Proof.
  intros Hwf Hcount. revert st.
  induction keywords as [|kw rest IH]; intros st; [eexists; reflexivity|].
  simpl.
  assert (Hstep : is_Some (analyse svr (clean kw) kw st)).
  { unfold analyse_keyword.
    destruct (svr !! clean kw) as [entry|] eqn:Hentry; [|eexists; reflexivity].
    destruct (Hwf _ _ Hentry) as (_ & [pc ->] & [mobile ->]). simpl.
    unfold keyword_metrics.
    destruct (competition_ratio_succeeds
                (get_blog_count (length (blog_calls st)) kw)
                (int_value (parse_volume py_int pc)
                 + int_value (parse_volume py_int mobile))
                (Hcount _ _)) as (v & -> & _).
    simpl. eexists. reflexivity. }
  destruct Hstep as [st1 ->]. simpl. apply IH.
Qed.

End AnalysisLoopProofs.

Lemma get_search_volume_well_formed py_strip keywordstool keywords :
  well_formed_stats (get_search_volume py_strip keywordstool keywords).
Proof.
  intros kw entry Hlook. unfold get_search_volume in Hlook.
  destruct (volume_loop_sound _ _ _ _ _ _ _ Hlook)
    as [Hempty|(j & batch & answer & _ & Hcall & Hentry)].
  { rewrite lookup_empty in Hempty. discriminate. }
  exact (batch_call_well_formed _ _ _ _ _ Hcall kw entry Hentry).
Qed.

Lemma example_analysis_run :
  keyword_analysis_run py_int_ascii (fun str => str) example_keywordstool_two
    example_blog_count example_keywords
  = Some example_analysed.
Proof. vm_compute. reflexivity. Qed.

(** What the filter and the table need of a metrics object. *)
Lemma analysed_metrics_verdict config target_stages obj :
  analysed_metrics obj ->
  exists decision, target_verdict config target_stages obj = Some decision.
Proof.
  intros (pc & mobile & blog_count & ratio & _ & _ & Htotal & Hblog & _).
  unfold target_verdict, metrics_stage. rewrite Hblog, Htotal. simpl.
  eexists. reflexivity.
Qed.

Lemma stamped_lookup (obj : gmap string pyval) stage key :
  key <> "stage"%string ->
  <["stage"%string := stage]> obj !! key = obj !! key.
Proof. intros Hne. apply lookup_insert_ne. congruence. Qed.

Lemma analysed_metrics_row kw stage obj :
  analysed_metrics obj ->
  is_Some (new_row (kw, <["stage"%string := PyInt stage]> obj)).
Proof.
  intros (pc & mobile & blog_count & ratio & Hpc & Hmobile & Htotal & Hblog
          & Hratio & [number Hnumber] & _).
  unfold new_row.
  rewrite (stamped_lookup obj _ "pc_search_volume"%string) by discriminate.
  rewrite (stamped_lookup obj _ "mobile_search_volume"%string) by discriminate.
  rewrite (stamped_lookup obj _ "total_search_volume"%string) by discriminate.
  rewrite (stamped_lookup obj _ "blog_count"%string) by discriminate.
  rewrite (stamped_lookup obj _ "competition_ratio"%string) by discriminate.
  rewrite lookup_insert_eq.
  rewrite Hpc, Hmobile, Htotal, Hblog, Hratio. simpl. rewrite Hnumber. simpl.
  eexists. reflexivity.
Qed.

Lemma resolve_succeeds heap (d : keyword_dict) :
  (forall item, item ∈ d -> is_Some (heap !! item.2)) ->
  is_Some (resolve heap d).
Proof.
  intros Hall. unfold resolve. apply mapM_is_Some. apply Forall_forall.
  intros item Hin. destruct (Hall item Hin) as [obj Hobj]. simpl.
  rewrite Hobj. eexists. reflexivity.
Qed.

(** X19.  [get_keyword_analysis] visits every keyword once, in order, with
    its own cleaned form, whatever the batches of fifty are: the result has
    one entry for each keyword whose cleaned form is in the volume lookup
    and no other, and [get_blog_count] is called exactly for the occurrences
    of these keywords, in the order of the list. *)
Theorem keyword_analysis_keys_and_calls
    (py_int : string -> option Z) (py_strip : string -> string)
    (keywordstool : nat -> list string -> keywordstool_answer)
    (get_blog_count : nat -> string -> Z)
    (keywords : list string) (st : analysis_state) :
  keyword_analysis_run py_int py_strip keywordstool get_blog_count keywords
    = Some st ->
  NoDup (result_dict st).*1
  /\ (forall kw, kw ∈ (result_dict st).*1 <->
        kw ∈ keywords
        /\ clean_keyword py_strip kw
             ∈ dom (get_search_volume py_strip keywordstool keywords))
  /\ blog_calls st
       = filter (fun kw => clean_keyword py_strip kw
                             ∈ dom (get_search_volume py_strip keywordstool
                                      keywords))
           keywords.
Proof.
  intros Hrun.
  destruct (keyword_analysis_run_invariant _ _ _ _ _ _ Hrun)
    as (Hkeys & _ & Hmem & Hcalls & _).
  auto.
Qed.

Lemma keyword_analysis_keys_and_calls_witness :
  NoDup (result_dict example_analysed).*1
  /\ (forall kw, kw ∈ (result_dict example_analysed).*1 <->
        kw ∈ example_keywords
        /\ clean_keyword (fun str => str) kw
             ∈ dom (get_search_volume (fun str => str)
                      example_keywordstool_two example_keywords))
  /\ blog_calls example_analysed
       = filter (fun kw => clean_keyword (fun str => str) kw
                             ∈ dom (get_search_volume (fun str => str)
                                      example_keywordstool_two
                                      example_keywords))
           example_keywords.
Proof.
  apply (keyword_analysis_keys_and_calls py_int_ascii (fun str => str)
           example_keywordstool_two example_blog_count).
  exact example_analysis_run.
Defined.

(** X20.  Every keyword of the result of [get_keyword_analysis] has a
    metrics object of its own: no two keywords share one, and each object
    holds the five metrics, its total being the sum of its two volumes, and
    has no stage yet. *)
Theorem keyword_analysis_objects
    (py_int : string -> option Z) (py_strip : string -> string)
    (keywordstool : nat -> list string -> keywordstool_answer)
    (get_blog_count : nat -> string -> Z)
    (keywords : list string) (heap : store) (result : keyword_dict) :
  get_keyword_analysis py_int py_strip keywordstool get_blog_count keywords
    = Some (heap, result) ->
  NoDup result.*2
  /\ forall kw r, (kw, r) ∈ result ->
       exists obj pc_volume mobile_volume blog_count ratio,
         heap !! r = Some obj
         /\ obj !! "pc_search_volume"%string = Some pc_volume
         /\ obj !! "mobile_search_volume"%string = Some mobile_volume
         /\ obj !! "total_search_volume"%string
              = Some (PyInt (int_value pc_volume + int_value mobile_volume))
         /\ obj !! "blog_count"%string = Some (PyInt blog_count)
         /\ obj !! "competition_ratio"%string = Some ratio
         /\ obj !! "stage"%string = None.
Proof.
  unfold get_keyword_analysis. intros Hrun.
  destruct (keyword_analysis_run _ _ _ _ _) as [st|] eqn:Hst; [|discriminate].
  simpl in Hrun. injection Hrun as <- <-.
  destruct (keyword_analysis_run_invariant _ _ _ _ _ _ Hst)
    as (_ & Hrefs & _ & _ & Hobjs).
  split; [exact Hrefs|]. intros kw r Hin.
  destruct (Hobjs kw r Hin)
    as (_ & obj & Hobj & pc & mobile & blog_count & ratio & Hpc & Hmobile
        & Htotal & Hblog & Hratio & _ & Hstage).
  exists obj, pc, mobile, blog_count, ratio. auto 10.
Qed.

Lemma example_analysis_result_run :
  get_keyword_analysis py_int_ascii (fun str => str) example_keywordstool_two
    example_blog_count example_keywords
  = Some (objects example_analysed, result_dict example_analysed).
Proof.
  unfold get_keyword_analysis. rewrite example_analysis_run. reflexivity.
Qed.

Lemma keyword_analysis_objects_witness :
  NoDup (result_dict example_analysed).*2
  /\ forall kw r, (kw, r) ∈ result_dict example_analysed ->
       exists obj pc_volume mobile_volume blog_count ratio,
         objects example_analysed !! r = Some obj
         /\ obj !! "pc_search_volume"%string = Some pc_volume
         /\ obj !! "mobile_search_volume"%string = Some mobile_volume
         /\ obj !! "total_search_volume"%string
              = Some (PyInt (int_value pc_volume + int_value mobile_volume))
         /\ obj !! "blog_count"%string = Some (PyInt blog_count)
         /\ obj !! "competition_ratio"%string = Some ratio
         /\ obj !! "stage"%string = None.
Proof.
  apply (keyword_analysis_objects py_int_ascii (fun str => str)
           example_keywordstool_two example_blog_count example_keywords).
  exact example_analysis_result_run.
Defined.

(** X21.  The filter and the table accept the result of the analysis: on
    the mapping and the objects that [get_keyword_analysis] returns,
    [filter_keywords_by_target_stages] finds the cells it reads in every
    object and returns, and every keyword it keeps refers to an object from
    which [save_to_excel] makes its row: the five metrics are there, the
    ratio is a number and the stage is the integer that the filter wrote.
    The stage table is the typed table of the model, whose bounds are
    integers or [inf]. *)
Theorem analysis_result_passes_filter_to_rows
    (py_int : string -> option Z) (py_strip : string -> string)
    (keywordstool : nat -> list string -> keywordstool_answer)
    (get_blog_count : nat -> string -> Z)
    (keywords : list string) (heap : store) (result : keyword_dict)
    (config : blog_stages_config) (target_stages : option (list Z)) :
  get_keyword_analysis py_int py_strip keywordstool get_blog_count keywords
    = Some (heap, result) ->
  exists heap' filtered items rows,
    filter_keywords_by_target_stages config heap result target_stages
      = Some (heap', filtered)
    /\ resolve heap' filtered = Some items
    /\ mapM new_row items = Some rows
    /\ row_keyword <$> rows = filtered.*1.
Proof.
  unfold get_keyword_analysis. intros Hrun.
  destruct (keyword_analysis_run _ _ _ _ _) as [st|] eqn:Hst; [|discriminate].
  simpl in Hrun. injection Hrun as <- <-.
  destruct (keyword_analysis_run_invariant _ _ _ _ _ _ Hst)
    as (Hkeys & _ & _ & _ & Hobjs).
  unfold filter_keywords_by_target_stages.
  destruct (config !! "blog_stages"%string) as [stages|].
  2:{ exists (objects st), [], [], []. repeat split; reflexivity. }
  set (targets := default TARGET_STAGES target_stages).
  rewrite target_stages_loop_auto, auto_mode_loop_stamp.
  pose proof (target_verdict_stable config targets) as Hstable.
  destruct (stamp_loop_succeeds _ Hstable (result_dict st) (objects st) [])
    as (heap' & filtered & Hloop).
  { intros [kw r] Hin. destruct (Hobjs kw r Hin) as (_ & obj & Hobj & Hshape).
    destruct (analysed_metrics_verdict config targets obj Hshape)
      as [decision Hdecision].
    exists obj, decision. auto. }
  pose proof (stamp_loop_result _ Hstable (result_dict st) (objects st) []
                heap' filtered Hkeys Hloop) as Hfiltered.
  simpl in Hfiltered.
  assert (Hstamped : forall item, item ∈ filtered ->
            exists obj stage,
              analysed_metrics obj
              /\ heap' !! item.2
                   = Some (<["stage"%string := PyInt stage]> obj)).
  { intros [kw r] Hin. rewrite Hfiltered in Hin.
    apply list_elem_of_filter in Hin as [Hkept Hin].
    destruct (proj1 (stamp_loop_heap _ Hstable _ _ _ _ _ Hloop r))
      as (obj & stage & Hobj & _ & Hobj').
    { exists (kw, r). auto. }
    destruct (Hobjs kw r Hin) as (_ & obj0 & Hobj0 & Hshape).
    rewrite Hobj in Hobj0. injection Hobj0 as <-.
    exists obj, stage. auto. }
  destruct (resolve_succeeds heap' filtered) as [items Hitems].
  { intros item Hin. destruct (Hstamped item Hin) as (obj & stage & _ & ->).
    eexists. reflexivity. }
  assert (Hrows : is_Some (mapM new_row items)).
  { apply mapM_is_Some, Forall_forall. intros [kw obj] Hin.
    destruct (resolve_items _ _ _ Hitems) as [_ Hres].
    destruct (Hres _ Hin) as (r & Hr & Hobj). simpl in Hr, Hobj.
    destruct (Hstamped _ Hr) as (obj0 & stage & Hshape & Hobj0).
    simpl in Hobj0. rewrite Hobj0 in Hobj. injection Hobj as <-.
    apply analysed_metrics_row. exact Hshape. }
  destruct Hrows as [rows Hrows].
  exists heap', filtered, items, rows.
  split; [exact Hloop|]. split; [exact Hitems|]. split; [exact Hrows|].
  rewrite (new_data_keywords _ _ Hrows).
  apply (resolve_items _ _ _ Hitems).
Qed.

Lemma analysis_result_passes_filter_to_rows_witness :
  exists heap' filtered items rows,
    filter_keywords_by_target_stages example_config
      (objects example_analysed) (result_dict example_analysed) None
      = Some (heap', filtered)
    /\ resolve heap' filtered = Some items
    /\ mapM new_row items = Some rows
    /\ row_keyword <$> rows = filtered.*1.
Proof.
  apply (analysis_result_passes_filter_to_rows py_int_ascii (fun str => str)
           example_keywordstool_two example_blog_count example_keywords).
  exact example_analysis_result_run.
Defined.

(** X22.  [get_keyword_analysis] itself does not raise when the document
    counts are below [2 ^ 1000]: the index into the cleaned keywords is
    always in range, an entry of the volume lookup always has its two
    cells, and the ratio does not overflow. *)
Theorem keyword_analysis_never_raises
    (py_int : string -> option Z) (py_strip : string -> string)
    (keywordstool : nat -> list string -> keywordstool_answer)
    (get_blog_count : nat -> string -> Z)
    (keywords : list string) :
  (forall n kw, 0 <= get_blog_count n kw < 2 ^ 1000) ->
  is_Some (get_keyword_analysis py_int py_strip keywordstool get_blog_count
             keywords).
Proof.
  intros Hcount. unfold get_keyword_analysis.
  rewrite keyword_analysis_run_pass.
  destruct (analysis_pass_succeeds py_int py_strip get_blog_count
              (get_search_volume py_strip keywordstool keywords) keywords
              empty_analysis
              (get_search_volume_well_formed _ _ _) Hcount) as [st ->].
  simpl. eexists. reflexivity.
Qed.

Lemma keyword_analysis_never_raises_witness :
  is_Some (get_keyword_analysis py_int_ascii (fun str => str)
             example_keywordstool_two example_blog_count example_keywords).
Proof.
  apply (keyword_analysis_never_raises py_int_ascii (fun str => str)
           example_keywordstool_two example_blog_count example_keywords).
  intros n kw. unfold example_blog_count. split; [lia|reflexivity].
Defined.

(** ** The document count *)

Lemma blog_count_loop_spec max_retries responses start len made :
  let run := blog_count_loop max_retries responses (seq start len) made in
  (made <= run.2 <= made + len)%nat
  /\ (0 < len -> made < run.2)%nat
  /\ (run.1 <> 0 ->
      exists k, (start <= k < start + len)%nat
        /\ responses k = BlogTotal run.1
        /\ forall j, (start <= j < k)%nat ->
             responses j = BlogTooManyRequests
             \/ responses j = BlogOtherStatus).
Proof.
  cbv zeta. revert start made.
  induction len as [|len IH]; intros start made; simpl.
  - split; [lia|]. split; [lia|]. intros H. congruence.
  - destruct (IH (S start) (S made)) as (Hcount & _ & Hfound).
    assert (Hretry :
      let run := blog_count_loop max_retries responses (seq (S start) len)
                   (S made) in
      (responses start = BlogTooManyRequests
       \/ responses start = BlogOtherStatus) ->
      (made <= run.2 <= made + S len)%nat
      /\ (0 < S len -> made < run.2)%nat
      /\ (run.1 <> 0 ->
          exists k, (start <= k < start + S len)%nat
            /\ responses k = BlogTotal run.1
            /\ forall j, (start <= j < k)%nat ->
                 responses j = BlogTooManyRequests
                 \/ responses j = BlogOtherStatus)).
    { cbv zeta. intros Hstart. split; [lia|]. split; [lia|].
      intros Hne. destruct (Hfound Hne) as (k & Hk & Hresp & Hbefore).
      exists k. split; [lia|]. split; [exact Hresp|].
      intros j Hj. destruct (decide (j = start)) as [->|Hjs]; [exact Hstart|].
      apply Hbefore. lia. }
    destruct (responses start) eqn:Hresp; simpl.
    + split; [lia|]. split; [lia|]. intros _. exists start.
      split; [lia|]. split; [exact Hresp|]. intros j Hj. lia.
    + destruct (start <? max_retries - 1)%nat.
      * apply Hretry. auto.
      * simpl. split; [lia|]. split; [lia|]. intros H. congruence.
    + apply Hretry. auto.
    + split; [lia|]. split; [lia|]. intros H. congruence.
Qed.

(** X23.  [get_blog_count] makes at least one attempt and never more than
    [max_retries]; a count other than 0 is the total of an answer with
    status 200 that came after retried attempts only; and with the
    [max_retries = 1] of the code there is exactly one attempt, whose total
    is returned, anything else giving 0. *)
Theorem get_blog_count_attempts (responses : nat -> blog_response) :
  (forall max_retries,
     ((blog_count_with max_retries responses).2 <= max_retries)%nat
     /\ (0 < max_retries ->
         0 < (blog_count_with max_retries responses).2)%nat
     /\ ((blog_count_with max_retries responses).1 <> 0 ->
         exists k, (k < max_retries)%nat
           /\ responses k
                = BlogTotal (blog_count_with max_retries responses).1
           /\ forall j, (j < k)%nat ->
                responses j = BlogTooManyRequests
                \/ responses j = BlogOtherStatus))
  /\ get_blog_count responses
       = (match responses 0%nat with
          | BlogTotal total_count => total_count
          | _ => 0
          end, 1%nat).
Proof.
  split.
  - intros max_retries. unfold blog_count_with.
    destruct (blog_count_loop_spec max_retries responses 0 max_retries 0)
      as (Hcount & Hpos & Hfound).
    split; [lia|]. split; [exact Hpos|].
    intros Hne. destruct (Hfound Hne) as (k & Hk & Hresp & Hbefore).
    exists k. split; [lia|]. split; [exact Hresp|].
    intros j Hj. apply Hbefore. lia.
  - unfold get_blog_count, blog_count_with. simpl.
    destruct (responses 0%nat); reflexivity.
Qed.

(** ** The analysis with intermediate saves *)

Lemma chunk_lookup_cleaned {A B} (f : A -> B) (l : list A)
    (batch_size batch_idx j : nat) (x : A) :
  take batch_size (drop batch_idx l) !! j = Some x ->
  (f <$> l) !! (batch_idx + 0 + j)%nat = Some (f x).
Proof.
  intros Hj. rewrite Nat.add_0_r, list_lookup_fmap.
  destruct (decide (j < batch_size)%nat) as [Hlt|Hge].
  - rewrite lookup_take_lt in Hj by exact Hlt. rewrite lookup_drop in Hj.
    rewrite Hj. reflexivity.
  - rewrite lookup_take_ge in Hj by lia. discriminate.
Qed.

Lemma competition_ratio_number d s v :
  competition_ratio d s = Some v -> is_Some (as_number v).
Proof.
  unfold competition_ratio.
  destruct (s >? 0); [|intros [= <-]; eexists; reflexivity].
  destruct (py_truediv d s) as [x|]; [|discriminate]. simpl.
  destruct (py_round3 x) as [y|]; [|discriminate]. simpl.
  intros [= <-]. eexists. reflexivity.
Qed.

(** The filter as an intermediate save writes stages only. *)
Lemma filter_writes_stage_only config target_stages :
  writes_stage_only
    (fun d heap =>
       match filter_keywords_by_target_stages config heap d target_stages with
       | Some (heap', _) => heap'
       | None => heap
       end).
Proof.
  intros d heap r obj Hobj. unfold filter_keywords_by_target_stages.
  destruct (config !! "blog_stages"%string) as [stages|]; [|eauto].
  rewrite target_stages_loop_auto, auto_mode_loop_stamp.
  set (verdict := target_verdict config (default TARGET_STAGES target_stages)).
  pose proof (target_verdict_stable config
                (default TARGET_STAGES target_stages)) as Hstable.
  destruct (stamp_loop verdict d heap []) as [[heap' filtered]|] eqn:Hloop;
    [|eauto].
  destruct (stamp_loop_heap _ Hstable _ _ _ _ _ Hloop r) as [Hkept Hsame].
  destruct (decide (Exists (fun item : string * ref =>
                      item.2 = r /\ kept_item verdict heap item = true) d))
    as [Hex|Hnone].
  - apply Exists_exists in Hex as (item & Hin & Hr & Hk).
    destruct Hkept as (obj0 & stage & Hobj0 & _ & Hobj'); [eauto|].
    rewrite Hobj in Hobj0. injection Hobj0 as <-.
    exists (<["stage"%string := PyInt stage]> obj). split; [exact Hobj'|].
    intros key Hkey. apply lookup_insert_ne. congruence.
  - exists obj. split; [|auto]. rewrite Hsame; [exact Hobj|].
    intros item Hin Hr Hk. apply Hnone. apply Exists_exists. eauto.
Qed.

Section WithSaveProofs.

Variable py_int : string -> option Z.
Variable py_strip : string -> string.
Variable keywordstool : nat -> list string -> keywordstool_answer.
Variable get_blog_count : nat -> string -> Z.
Variable save_intermediate : keyword_dict -> store -> store.

Local Abbreviation clean := (clean_keyword py_strip).
Local Abbreviation analyse :=
  (analyse_keyword_with_save py_int get_blog_count).
Local Abbreviation batch_loop :=
  (with_save_batch_loop py_int get_blog_count).
Local Abbreviation save_loop :=
  (with_save_loop py_int get_blog_count save_intermediate).

Lemma keyword_metrics_with_save_saved
    (svr : gmap string (gmap string pyval)) (cleaned : string)
    blog_count metrics :
  keyword_metrics_with_save py_int (svr !! cleaned) blog_count
    = Some metrics ->
  saved_metrics (bool_decide (cleaned ∈ dom svr)) metrics.
Proof.
  unfold keyword_metrics_with_save.
  destruct (svr !! cleaned) as [entry|] eqn:Hentry.
  - destruct (entry !! "pc_search_volume"%string) as [pc|]; [|discriminate].
    destruct (entry !! "mobile_search_volume"%string) as [mobile|];
      [|discriminate].
    simpl. intros Hm.
    destruct (keyword_metrics_fields py_int _ _ _ _ Hm)
      as (Hpc & Hmobile & Htotal & Hblog & Hratio).
    destruct (competition_ratio blog_count _) as [ratio|] eqn:Hr.
    2:{ unfold keyword_metrics in Hm. rewrite Hr in Hm. discriminate. }
    exists (parse_volume py_int pc), (parse_volume py_int mobile),
      blog_count, ratio.
    split; [exact Hpc|]. split; [exact Hmobile|]. split; [exact Htotal|].
    split; [exact Hblog|]. split; [exact Hratio|].
    split; [exact (competition_ratio_number _ _ _ Hr)|].
    rewrite bool_decide_eq_true_2 by (apply elem_of_dom; eauto).
    discriminate.
  - intros Hm.
    destruct (keyword_metrics_fields py_int _ _ _ _ Hm)
      as (Hpc & Hmobile & Htotal & Hblog & Hratio).
    exists (PyInt 0), (PyInt 0), blog_count, (PyInt 0).
    split; [exact Hpc|]. split; [exact Hmobile|]. split; [exact Htotal|].
    split; [exact Hblog|]. split; [exact Hratio|].
    split; [eexists; reflexivity|]. auto.
Qed.

Lemma analyse_with_save_invariant svr seen kw st st' :
  with_save_invariant py_strip svr seen st ->
  analyse svr (clean kw) kw st = Some st' ->
  with_save_invariant py_strip svr (seen ++ [kw]) st'.
Proof.
  intros (Hkeys & Hrefs & Hmem & Hcalls & Hobjs) Hstep.
  unfold analyse_keyword_with_save in Hstep.
  destruct (keyword_metrics_with_save py_int (svr !! clean kw) _)
    as [metrics|] eqn:Hm; [|discriminate].
  simpl in Hstep. injection Hstep as <-.
  assert (Hfresh : next_object st ∉ (result_dict st).*2).
  { intros Hin. apply list_elem_of_fmap in Hin as ([k r] & Heq & Hin).
    simpl in Heq. subst r. destruct (Hobjs _ _ Hin) as [Hlt _].
    exact (Pos.lt_irrefl _ Hlt). }
  split; [apply dict_set_keys_nodup, Hkeys|].
  split; [apply dict_set_refs_nodup; assumption|].
  split; [|split].
  - intros kw0. simpl. rewrite dict_set_keys, Hmem, elem_of_app,
      list_elem_of_singleton. tauto.
  - simpl. rewrite Hcalls. reflexivity.
  - intros kw0 r Hin. simpl in Hin |- *.
    apply dict_set_elem in Hin as [[= -> ->]|Hin].
    + split; [apply Pos.lt_succ_diag_r|].
      exists metrics. split; [apply lookup_insert_eq|].
      exact (keyword_metrics_with_save_saved _ _ _ _ Hm).
    + destruct (Hobjs _ _ Hin) as [Hlt (obj & Hobj & Hshape)].
      split; [lia|]. exists obj. split; [|exact Hshape].
      rewrite lookup_insert_ne by lia. exact Hobj.
Qed.

Lemma with_save_batch_loop_invariant svr cleaned batch_idx i batch seen st st' :
  (forall j kw, batch !! j = Some kw ->
     cleaned !! (batch_idx + i + j)%nat = Some (clean kw)) ->
  with_save_invariant py_strip svr seen st ->
  batch_loop svr cleaned batch_idx i batch st = Some st' ->
  with_save_invariant py_strip svr (seen ++ batch) st'.
Proof.
  revert i seen st. induction batch as [|kw rest IH];
    intros i seen st Hclean Hinv Hrun.
  - simpl in Hrun. injection Hrun as <-. rewrite app_nil_r. exact Hinv.
  - simpl in Hrun. pose proof (Hclean 0%nat kw eq_refl) as H0.
    rewrite Nat.add_0_r in H0. rewrite H0 in Hrun. simpl in Hrun.
    destruct (analyse svr (clean kw) kw st) as [st1|] eqn:Hstep;
      [|discriminate].
    simpl in Hrun.
    replace (seen ++ kw :: rest) with ((seen ++ [kw]) ++ rest)
      by (rewrite <- app_assoc; reflexivity).
    apply (IH (S i) _ st1); [|eapply analyse_with_save_invariant; eassumption
                             |exact Hrun].
    intros j kw' Hj.
    replace (batch_idx + S i + j)%nat with (batch_idx + i + S j)%nat by lia.
    apply Hclean. exact Hj.
Qed.

Lemma with_save_batch_loop_succeeds svr cleaned batch_idx i batch st :
  (forall j kw, batch !! j = Some kw ->
     cleaned !! (batch_idx + i + j)%nat = Some (clean kw)) ->
  well_formed_stats svr ->
  (forall n kw, 0 <= get_blog_count n kw < 2 ^ 1000) ->
  is_Some (batch_loop svr cleaned batch_idx i batch st).
Proof.
  intros Hclean Hwf Hcount. revert i st Hclean.
  induction batch as [|kw rest IH]; intros i st Hclean; [eexists; reflexivity|].
  simpl. pose proof (Hclean 0%nat kw eq_refl) as H0.
  rewrite Nat.add_0_r in H0. rewrite H0. simpl.
  assert (Hstep : is_Some (analyse svr (clean kw) kw st)).
  { unfold analyse_keyword_with_save, keyword_metrics_with_save.
    destruct (svr !! clean kw) as [entry|] eqn:Hentry.
    - destruct (Hwf _ _ Hentry) as (_ & [pc ->] & [mobile ->]). simpl.
      unfold keyword_metrics.
      destruct (competition_ratio_succeeds
                  (get_blog_count (length (blog_calls st)) kw)
                  (int_value (parse_volume py_int pc)
                   + int_value (parse_volume py_int mobile))
                  (Hcount _ _)) as (v & -> & _).
      simpl. eexists. reflexivity.
    - unfold keyword_metrics.
      destruct (competition_ratio_succeeds
                  (get_blog_count (length (blog_calls st)) kw)
                  (int_value (parse_volume py_int (PyInt 0))
                   + int_value (parse_volume py_int (PyInt 0)))
                  (Hcount _ _)) as (v & -> & _).
      simpl. eexists. reflexivity. }
  destruct Hstep as [st1 ->]. simpl. apply IH.
  intros j kw' Hj.
  replace (batch_idx + S i + j)%nat with (batch_idx + i + S j)%nat by lia.
  apply Hclean. exact Hj.
Qed.

Lemma intermediate_save_invariant svr seen st :
  writes_stage_only save_intermediate ->
  with_save_invariant py_strip svr seen st ->
  with_save_invariant py_strip svr seen
    (intermediate_save save_intermediate st).
Proof.
  intros Hsave Hinv. unfold intermediate_save.
  destruct (result_dict st) as [|item d] eqn:Hdict; [exact Hinv|].
  destruct Hinv as (Hkeys & Hrefs & Hmem & Hcalls & Hobjs).
  rewrite Hdict in Hkeys, Hrefs, Hmem, Hobjs.
  split; [exact Hkeys|]. split; [exact Hrefs|]. split; [exact Hmem|].
  split; [exact Hcalls|]. simpl. intros kw r Hin.
  destruct (Hobjs kw r Hin)
    as (Hlt & obj & Hobj & pc & mobile & blog_count & ratio & Hpc & Hmobile
        & Htotal & Hblog & Hratio & Hnumber & Hzero).
  split; [exact Hlt|].
  destruct (Hsave (item :: d) (objects st) r obj Hobj) as (obj' & Hobj' & Hsame).
  exists obj'. split; [exact Hobj'|].
  exists pc, mobile, blog_count, ratio.
  rewrite !Hsame by discriminate. auto 10.
Qed.

Lemma with_save_loop_invariant svr keywords batch_size indices seen st st' :
  writes_stage_only save_intermediate ->
  with_save_invariant py_strip svr seen st ->
  save_loop svr (clean <$> keywords) keywords batch_size indices st
    = Some st' ->
  with_save_invariant py_strip svr
    (seen ++ concat ((fun i => take batch_size (drop i keywords)) <$> indices))
    st'.
Proof.
  intros Hsave. revert seen st.
  induction indices as [|batch_idx rest IH]; intros seen st Hinv Hrun.
  - simpl in Hrun. injection Hrun as <-. simpl. rewrite app_nil_r. exact Hinv.
  - simpl in Hrun.
    destruct (batch_loop svr (clean <$> keywords) batch_idx 0
                (take batch_size (drop batch_idx keywords)) st)
      as [st1|] eqn:Hbatch; [|discriminate].
    simpl in Hrun. simpl. rewrite app_assoc.
    apply (IH _ (intermediate_save save_intermediate st1)); [|exact Hrun].
    apply intermediate_save_invariant; [exact Hsave|].
    apply (with_save_batch_loop_invariant _ _ _ _ _ _ _ _
             (chunk_lookup_cleaned clean keywords batch_size batch_idx)
             Hinv Hbatch).
Qed.

Lemma with_save_loop_succeeds svr keywords batch_size indices st :
  well_formed_stats svr ->
  (forall n kw, 0 <= get_blog_count n kw < 2 ^ 1000) ->
  is_Some (save_loop svr (clean <$> keywords) keywords batch_size indices st).
Proof.
  intros Hwf Hcount. revert st.
  induction indices as [|batch_idx rest IH]; intros st; [eexists; reflexivity|].
  simpl.
  destruct (with_save_batch_loop_succeeds svr (clean <$> keywords) batch_idx 0
              (take batch_size (drop batch_idx keywords)) st
              (chunk_lookup_cleaned clean keywords batch_size batch_idx)
              Hwf Hcount) as [st1 ->].
  simpl. apply IH.
Qed.

Lemma empty_with_save_invariant svr :
  with_save_invariant py_strip svr [] empty_analysis.
Proof.
  split; [constructor|]. split; [constructor|]. split; [|split].
  - intros kw. reflexivity.
  - reflexivity.
  - intros kw r H. inversion H.
Qed.

End WithSaveProofs.

Lemma example_with_save_run :
  keyword_analysis_with_save_run py_int_ascii (fun str => str)
    example_keywordstool_two example_blog_count example_save_intermediate
    example_keywords
  = Some example_saved.
Proof. vm_compute. reflexivity. Qed.

(** X24.  [get_keyword_analysis_with_save] analyses every keyword: when it
    returns, the result has an entry for each keyword of the list and no
    other, [get_blog_count] has been called for every keyword of the list
    in order, whether the volume lookup knows it or not, and every entry
    still holds its five metrics after the intermediate saves, which write
    stages only; a keyword that the lookup does not know has zero volumes
    and the ratio 0. *)
Theorem with_save_analyses_every_keyword
    (py_int : string -> option Z) (py_strip : string -> string)
    (keywordstool : nat -> list string -> keywordstool_answer)
    (get_blog_count : nat -> string -> Z)
    (save_intermediate : keyword_dict -> store -> store)
    (keywords : list string) (st : analysis_state) :
  writes_stage_only save_intermediate ->
  keyword_analysis_with_save_run py_int py_strip keywordstool get_blog_count
    save_intermediate keywords = Some st ->
  NoDup (result_dict st).*1
  /\ (forall kw, kw ∈ (result_dict st).*1 <-> kw ∈ keywords)
  /\ blog_calls st = keywords
  /\ forall kw r, (kw, r) ∈ result_dict st ->
       exists obj pc_volume mobile_volume blog_count ratio,
         objects st !! r = Some obj
         /\ obj !! "pc_search_volume"%string = Some pc_volume
         /\ obj !! "mobile_search_volume"%string = Some mobile_volume
         /\ obj !! "total_search_volume"%string
              = Some (PyInt (int_value pc_volume + int_value mobile_volume))
         /\ obj !! "blog_count"%string = Some (PyInt blog_count)
         /\ obj !! "competition_ratio"%string = Some ratio
         /\ (clean_keyword py_strip kw
               ∉ dom (get_search_volume py_strip keywordstool keywords) ->
             pc_volume = PyInt 0 /\ mobile_volume = PyInt 0
             /\ ratio = PyInt 0).
Proof.
  intros Hsave Hrun. unfold keyword_analysis_with_save_run in Hrun.
  cbv zeta in Hrun.
  pose proof (with_save_loop_invariant py_int py_strip get_blog_count
                save_intermediate _ keywords 20 _ [] _ _ Hsave
                (empty_with_save_invariant py_strip _) Hrun) as Hinv.
  change ((fun i => take 20 (drop i keywords))
            <$> range_step (length keywords) 20)
    with (chunks 20 keywords) in Hinv.
  rewrite chunks_concat in Hinv by lia. simpl in Hinv.
  destruct Hinv as (Hkeys & _ & Hmem & Hcalls & Hobjs).
  split; [exact Hkeys|]. split; [exact Hmem|]. split; [exact Hcalls|].
  intros kw r Hin.
  destruct (Hobjs kw r Hin)
    as (_ & obj & Hobj & pc & mobile & blog_count & ratio & Hpc & Hmobile
        & Htotal & Hblog & Hratio & _ & Hzero).
  exists obj, pc, mobile, blog_count, ratio.
  split; [exact Hobj|]. split; [exact Hpc|]. split; [exact Hmobile|].
  split; [exact Htotal|]. split; [exact Hblog|]. split; [exact Hratio|].
  intros Hunknown. apply Hzero. apply bool_decide_eq_false_2. exact Hunknown.
Qed.

Lemma with_save_analyses_every_keyword_witness :
  NoDup (result_dict example_saved).*1
  /\ (forall kw, kw ∈ (result_dict example_saved).*1 <-> kw ∈ example_keywords)
  /\ blog_calls example_saved = example_keywords
  /\ forall kw r, (kw, r) ∈ result_dict example_saved ->
       exists obj pc_volume mobile_volume blog_count ratio,
         objects example_saved !! r = Some obj
         /\ obj !! "pc_search_volume"%string = Some pc_volume
         /\ obj !! "mobile_search_volume"%string = Some mobile_volume
         /\ obj !! "total_search_volume"%string
              = Some (PyInt (int_value pc_volume + int_value mobile_volume))
         /\ obj !! "blog_count"%string = Some (PyInt blog_count)
         /\ obj !! "competition_ratio"%string = Some ratio
         /\ (clean_keyword (fun str => str) kw
               ∉ dom (get_search_volume (fun str => str)
                        example_keywordstool_two example_keywords) ->
             pc_volume = PyInt 0 /\ mobile_volume = PyInt 0
             /\ ratio = PyInt 0).
Proof.
  apply (with_save_analyses_every_keyword py_int_ascii (fun str => str)
           example_keywordstool_two example_blog_count
           example_save_intermediate example_keywords example_saved).
  - exact (filter_writes_stage_only example_config (Some TARGET_STAGES)).
  - exact example_with_save_run.
Defined.

(** X25.  [get_keyword_analysis_with_save] does not raise when the document
    counts are below [2 ^ 1000], whatever the intermediate saves do: no
    index is out of range, no cell is missing and no ratio overflows. *)
Theorem with_save_never_raises
    (py_int : string -> option Z) (py_strip : string -> string)
    (keywordstool : nat -> list string -> keywordstool_answer)
    (get_blog_count : nat -> string -> Z)
    (save_intermediate : keyword_dict -> store -> store)
    (keywords : list string) :
  (forall n kw, 0 <= get_blog_count n kw < 2 ^ 1000) ->
  is_Some (get_keyword_analysis_with_save py_int py_strip keywordstool
             get_blog_count save_intermediate keywords).
Proof.
  intros Hcount.
  unfold get_keyword_analysis_with_save, keyword_analysis_with_save_run.
  cbv zeta.
  destruct (with_save_loop_succeeds py_int py_strip get_blog_count
              save_intermediate
              (get_search_volume py_strip keywordstool keywords) keywords 20
              (range_step (length keywords) 20) empty_analysis
              (get_search_volume_well_formed _ _ _) Hcount) as [st ->].
  simpl. eexists. reflexivity.
Qed.

Lemma with_save_never_raises_witness :
  is_Some (get_keyword_analysis_with_save py_int_ascii (fun str => str)
             example_keywordstool_two example_blog_count
             example_save_intermediate example_keywords).
Proof.
  apply (with_save_never_raises py_int_ascii (fun str => str)
           example_keywordstool_two example_blog_count
           example_save_intermediate example_keywords).
  intros n kw. unfold example_blog_count. split; [lia|reflexivity].
Defined.

(** ** The table of all keywords *)

Lemma mapM_elements {A B} (f : A -> option B) (l : list A) (k : list B) :
  mapM f l = Some k ->
  (forall x, x ∈ l -> exists y, f x = Some y /\ y ∈ k)
  /\ (forall y, y ∈ k -> exists x, x ∈ l /\ f x = Some y).
Proof.
  intros Hmap. apply mapM_Some in Hmap.
  induction Hmap as [|x y l k Hxy Hrest [IH1 IH2]].
  - split; intros ? H; inversion H.
  - split.
    + intros x' Hin. apply elem_of_cons in Hin as [->|Hin].
      * exists y. split; [exact Hxy|left].
      * destruct (IH1 x' Hin) as (y' & Hy' & Hin'). exists y'.
        split; [exact Hy'|right; exact Hin'].
    + intros y' Hin. apply elem_of_cons in Hin as [->|Hin].
      * exists x. split; [left|exact Hxy].
      * destruct (IH2 y' Hin) as (x' & Hin' & Hx'). exists x'.
        split; [right; exact Hin'|exact Hx'].
Qed.

Lemma test_row_fields config item r :
  test_row config item = Some r ->
  row_keyword r = item.1 /\ row_stage r = metrics_stage config item.2.
Proof.
  destruct item as [keyword stats]. unfold test_row. cbn [fst snd].
  destruct (metrics_stage config stats) as [stage|]; [|discriminate]. simpl.
  destruct (stats !! "pc_search_volume"%string); [|discriminate]. simpl.
  destruct (stats !! "mobile_search_volume"%string); [|discriminate]. simpl.
  destruct (stats !! "total_search_volume"%string); [|discriminate]. simpl.
  destruct (stats !! "blog_count"%string); [|discriminate]. simpl.
  destruct (stats !! "competition_ratio"%string ≫= as_number);
    [|discriminate]. simpl.
  intros [= <-]. split; reflexivity.
Qed.

Lemma test_rows_keywords config items all_data :
  mapM (test_row config) items = Some all_data ->
  row_keyword <$> all_data = items.*1.
Proof.
  intros Hmap. apply mapM_Some in Hmap.
  induction Hmap as [|x y l k Hxy Hrest IH]; [reflexivity|].
  rewrite !fmap_cons, IH. f_equal.
  apply (test_row_fields _ _ _ Hxy).
Qed.

Lemma resolve_items_complete heap (d : keyword_dict) items kw r obj :
  resolve heap d = Some items ->
  (kw, r) ∈ d -> heap !! r = Some obj -> (kw, obj) ∈ items.
Proof.
  intros Hres Hin Hobj. unfold resolve in Hres.
  destruct (proj1 (mapM_elements _ _ _ Hres) (kw, r) Hin) as (y & Hy & Hyin).
  simpl in Hy. rewrite Hobj in Hy. simpl in Hy. injection Hy as <-.
  exact Hyin.
Qed.

(** X26.  The table that [save_all_keywords_to_test] writes has a row for
    every keyword of the mapping, whatever its stage, in ascending order of
    the ratio, and the stage of a row is the one the classifier gives to the
    metrics of its keyword, not a stage stored in them. *)
Theorem test_table_holds_classifier_stage
    (config : blog_stages_config)
    (analysis_result : list (string * gmap string pyval))
    (table : list row) :
  save_all_keywords_to_test config analysis_result = Some table ->
  row_keyword <$> table ≡ₚ analysis_result.*1
  /\ Sorted ratio_le table
  /\ forall r, r ∈ table ->
       exists stats,
         (row_keyword r, stats) ∈ analysis_result
         /\ row_stage r = metrics_stage config stats
         /\ is_Some (row_stage r).
Proof.
  unfold save_all_keywords_to_test. intros Hsave.
  destruct (mapM (test_row config) analysis_result) as [all_data|] eqn:Hrows;
    [|discriminate].
  simpl in Hsave. destruct all_data as [|r0 all_data]; [discriminate|].
  injection Hsave as <-.
  change (insert_row r0 (sort_values all_data))
    with (sort_values (r0 :: all_data)).
  split; [|split].
  - rewrite <- (test_rows_keywords _ _ _ Hrows).
    apply fmap_Permutation, sort_values_perm.
  - apply sort_values_sorted.
  - intros r Hin. rewrite sort_values_perm in Hin.
    destruct (proj2 (mapM_elements _ _ _ Hrows) r Hin)
      as ([keyword stats] & Hitem & Hrow).
    destruct (test_row_fields _ _ _ Hrow) as [Hkw Hstage].
    simpl in Hkw, Hstage. exists stats. rewrite Hkw.
    split; [exact Hitem|]. split; [exact Hstage|].
    rewrite Hstage. unfold test_row in Hrow.
    destruct (metrics_stage config stats); [eexists; reflexivity|discriminate].
Qed.

Lemma example_test_table_run :
  save_all_keywords_to_test example_config example_full_items
    = Some example_test_table.
Proof. vm_compute. reflexivity. Qed.

Lemma test_table_holds_classifier_stage_witness :
  row_keyword <$> example_test_table ≡ₚ example_full_items.*1
  /\ Sorted ratio_le example_test_table
  /\ forall r, r ∈ example_test_table ->
       exists stats,
         (row_keyword r, stats) ∈ example_full_items
         /\ row_stage r = metrics_stage example_config stats
         /\ is_Some (row_stage r).
Proof.
  apply (test_table_holds_classifier_stage example_config example_full_items).
  exact example_test_table_run.
Defined.

(** X27.  The two tables of a run agree on the stages: with the stage table
    loaded, the keywords that [filter_keywords_by_target_stages] returns are
    exactly the keywords whose row in the table of all keywords has a stage
    among the target stages. *)
Theorem filter_keeps_targets_of_test_table
    (config : blog_stages_config) (heap heap' : store)
    (analysis_result result : keyword_dict) (target_stages : option (list Z))
    (items : list (string * gmap string pyval)) (table : list row) :
  is_Some (config !! "blog_stages"%string) ->
  NoDup analysis_result.*1 ->
  resolve heap analysis_result = Some items ->
  save_all_keywords_to_test config items = Some table ->
  filter_keywords_by_target_stages config heap analysis_result target_stages
    = Some (heap', result) ->
  forall kw,
    kw ∈ result.*1 <->
    exists r stage,
      r ∈ table /\ row_keyword r = kw /\ row_stage r = Some stage
      /\ stage ∈ default TARGET_STAGES target_stages.
Proof.
  intros [stages Hconfig] Hkeys Hitems Hsave Hfilter kw.
  unfold filter_keywords_by_target_stages in Hfilter.
  rewrite Hconfig in Hfilter.
  set (targets := default TARGET_STAGES target_stages) in *.
  rewrite target_stages_loop_auto, auto_mode_loop_stamp in Hfilter.
  pose proof (target_verdict_stable config targets) as Hstable.
  pose proof (stamp_loop_result _ Hstable analysis_result heap [] heap' result
                Hkeys Hfilter) as Hresult.
  simpl in Hresult.
  unfold save_all_keywords_to_test in Hsave.
  destruct (mapM (test_row config) items) as [all_data|] eqn:Hrows;
    [|discriminate].
  simpl in Hsave. destruct all_data as [|r0 all_data]; [discriminate|].
  injection Hsave as <-.
  change (insert_row r0 (sort_values all_data))
    with (sort_values (r0 :: all_data)).
  assert (Hkept : forall ref obj,
            heap !! ref = Some obj ->
            (kept_item (target_verdict config targets) heap (kw, ref) = true
             <-> exists stage, metrics_stage config obj = Some stage
                   /\ stage ∈ targets)).
  { intros ref obj Hobj. unfold kept_item. rewrite bool_decide_eq_true.
    unfold kept_stage. cbn [snd]. rewrite Hobj. cbn [mbind option_bind].
    unfold target_verdict.
    destruct (metrics_stage config obj) as [stage|]; cbn [mbind option_bind].
    - destruct (bool_decide (stage ∈ targets)) eqn:Hin;
        [apply bool_decide_eq_true in Hin|apply bool_decide_eq_false in Hin].
      + split; [intros _; eauto|intros _; eexists; reflexivity].
      + split; [intros [? H]; discriminate|].
        intros (stage' & [= <-] & Hin'). contradiction.
    - split; [intros [? H]; discriminate|].
      intros (stage' & H & _). discriminate. }
  split.
  - intros Hin. apply list_elem_of_fmap in Hin as ([kw' ref] & Heq & Hin).
    simpl in Heq. subst kw'. rewrite Hresult in Hin.
    apply list_elem_of_filter in Hin as [Hk Hin].
    assert (Hobj : is_Some (heap !! ref)).
    { unfold kept_item in Hk. apply bool_decide_eq_true in Hk.
      unfold kept_stage in Hk. cbn [snd] in Hk.
      destruct (heap !! ref); [eauto|].
      cbn [mbind option_bind] in Hk. destruct Hk as [? Hk]. discriminate. }
    destruct Hobj as [obj Hobj].
    apply (Hkept ref obj Hobj) in Hk as (stage & Hstage & Htarget).
    pose proof (resolve_items_complete _ _ _ _ _ _ Hitems Hin Hobj) as Hitem.
    destruct (proj1 (mapM_elements _ _ _ Hrows) _ Hitem) as (r & Hrow & Hr).
    destruct (test_row_fields _ _ _ Hrow) as [Hkw Hrs]. simpl in Hkw, Hrs.
    exists r, stage. split; [rewrite sort_values_perm; exact Hr|].
    split; [exact Hkw|]. split; [congruence|exact Htarget].
  - intros (r & stage & Hr & Hkw & Hrs & Htarget).
    rewrite sort_values_perm in Hr.
    destruct (proj2 (mapM_elements _ _ _ Hrows) r Hr)
      as ([kw' stats] & Hitem & Hrow).
    destruct (test_row_fields _ _ _ Hrow) as [Hkw' Hrs']. simpl in Hkw', Hrs'.
    assert (kw' = kw) as -> by congruence.
    destruct (resolve_items _ _ _ Hitems) as [_ Hres].
    destruct (Hres _ Hitem) as (ref & Hin & Hobj). simpl in Hin, Hobj.
    apply list_elem_of_fmap. exists (kw, ref). split; [reflexivity|].
    rewrite Hresult. apply list_elem_of_filter. split; [|exact Hin].
    apply (Hkept ref stats Hobj). exists stage.
    split; [congruence|exact Htarget].
Qed.

Lemma example_full_resolve :
  resolve example_full_heap example_full_result = Some example_full_items.
Proof.
  unfold resolve, example_full_result, example_full_heap.
  cbn [mapM mbind mret fmap option_fmap option_map option_bind option_ret
       fst snd].
  rewrite lookup_insert_eq. reflexivity.
Qed.

Lemma filter_keeps_targets_of_test_table_witness :
  "a"%string ∈ example_full_result.*1 <->
  exists r stage,
    r ∈ example_test_table /\ row_keyword r = "a"%string
    /\ row_stage r = Some stage
    /\ stage ∈ default TARGET_STAGES None.
Proof.
  refine (filter_keeps_targets_of_test_table example_config example_full_heap
            example_full_heap_after example_full_result example_full_result
            None example_full_items example_test_table _ _
            example_full_resolve example_test_table_run
            example_full_filter_run "a"%string).
  - eexists. reflexivity.
  - apply NoDup_singleton.
Defined.
